(** * Typechecker (packages/vitest/src/typescript/parser.ts)

    A shallow embedding of the class [Typechecker]: the result builder
    [prepareResults] with its helper [markFailed], the diagnostic wrapper
    [parseTscLikeOutput], and the stdout handler installed by [start].

    JavaScript objects that the code shares and mutates (files, suites,
    synthetic tasks, the published [ErrorsCache]) live in explicit stores
    and are named by references; immutable values (strings, numbers, the
    stack frame of a [TypeCheckError]) are plain Rocq values. *)

From Stdlib Require Import ZArith Lia Ascii.
From stdpp Require Import base option list sorting gmap strings pretty.

Local Open Scope Z_scope.
#[local] Set Warnings "-clear-no-such-hyp".

(** ** Outcomes *)

Inductive JsError : Type :=
| JsTypeError (msg : string).

(** A computation returns, throws, or exhausts the recursion budget of the
    model (the JavaScript recursion would not return). *)
Inductive Res (A : Type) : Type :=
| Ok (a : A)
| Throw (e : JsError)
| OutOfFuel.
Arguments Ok {A} a.
Arguments Throw {A} e.
Arguments OutOfFuel {A}.

Definition bind {A B : Type} (m : Res A) (k : A -> Res B) : Res B :=
  match m with
  | Ok a => k a
  | Throw e => Throw e
  | OutOfFuel => OutOfFuel
  end.

Notation "x <- m ;; k" := (bind m (fun x => k))
  (at level 100, m at next level, right associativity).

(** ** Data model (the shapes of ../types that the code reads and writes) *)

Inductive RunMode : Type := Run | Skip | Only | Todo.

(** [TaskState = RunMode | 'pass' | 'fail'] *)
Inductive TaskState : Type :=
| StateMode (m : RunMode)
| Pass
| Fail.

Inductive TaskType : Type := SuiteT | TestT | TypecheckT.

Record SourcePos : Type := mkSourcePos { sp_line : Z; sp_column : Z }.

Record ParsedStack : Type := mkParsedStack {
  ps_file : string;
  ps_line : Z;
  ps_column : Z;
  ps_method : string;
  ps_sourcePos : SourcePos
}.

(** [class TypeCheckError extends Error]: [name], [message], [stacks], and
    the call-site frames that the [Error] constructor captures. *)
Record TypeCheckError : Type := mkTypeCheckError {
  err_name : string;
  err_message : string;
  err_stacks : list ParsedStack;
  err_captured : list string
}.

Record TscErrorInfo : Type := mkTscErrorInfo {
  info_filePath : string;
  info_errCode : Z;
  info_errMsg : string;
  info_line : Z;
  info_column : Z
}.

Record TaskResult : Type := mkTaskResult {
  state : TaskState;
  error : option TypeCheckError
}.

(** References into the store of task objects. *)
Abbreviation ref := nat (only parsing).

(** One shape for [File], [Suite] and the synthetic typecheck [Task]: a
    file is a task without [suite]. *)
Record Task : Type := mkTask {
  task_type : TaskType;
  task_id : string;
  task_name : string;
  task_mode : RunMode;
  task_file : option ref;
  task_suite : option ref;
  task_result : option TaskResult;
  task_tasks : list ref
}.

Definition set_result (t : Task) (r : TaskResult) : Task :=
  mkTask (task_type t) (task_id t) (task_name t) (task_mode t)
         (task_file t) (task_suite t) (Some r) (task_tasks t).

Definition push_task (t : Task) (r : ref) : Task :=
  mkTask (task_type t) (task_id t) (task_name t) (task_mode t)
         (task_file t) (task_suite t) (task_result t) (task_tasks t ++ [r]).

(** Reading a property of a reference that holds no object is reading a
    property of [undefined]. *)
Definition deref (h : list Task) (r : ref) : Res Task :=
  match h !! r with
  | Some t => Ok t
  | None => Throw (JsTypeError "Cannot read properties of undefined")
  end.

(** [new] object: allocated at the end of the store. *)
Definition alloc (h : list Task) (t : Task) : ref * list Task :=
  (length h, h ++ [t]).

(** [mode === 'run' || mode === 'only' ? 'fail' : mode] *)
Definition failOrMode (m : RunMode) : TaskState :=
  match m with
  | Run | Only => Fail
  | _ => StateMode m
  end.

(** ** markFailed (parser.ts:94-100) *)

Fixpoint markFailed (fuel : nat) (task : ref) (h : list Task) : Res (list Task) :=
  match fuel with
  | O => OutOfFuel
  | S fuel' =>
      t <- deref h task ;;
      let h1 := <[task := set_result t (mkTaskResult (failOrMode (task_mode t)) None)]> h in
      match task_suite t with
      | Some s => markFailed fuel' s h1
      | None => Ok h1
      end
  end.

(** ** Source maps

    Modelled from the spec: the class [SourceMapConsumer] of the imported
    package source-map-js is not part of this repository.  A consumer is
    the decoded list of its mappings; a lookup returns the nearest mapping
    at or before the given position, and an object whose [line] and
    [column] are [null] when there is none.  The package rejects a needle
    whose line is below 1 or whose column is negative with a [TypeError]. *)

Record Mapping : Type := mkMapping {
  generatedLine : Z;
  generatedColumn : Z;
  source : string;
  originalLine : Z;
  originalColumn : Z
}.

(** A position whose fields may be [null]. *)
Record Position : Type := mkPosition {
  pos_line : option Z;
  pos_column : option Z
}.

Definition nullPosition : Position := mkPosition None None.

(** Lexicographic order on (line, column). *)
Definition pos_leb (l1 c1 l2 c2 : Z) : bool :=
  (l1 <? l2) || ((l1 =? l2) && (c1 <=? c2)).

Definition pos_ltb (l1 c1 l2 c2 : Z) : bool :=
  (l1 <? l2) || ((l1 =? l2) && (c1 <? c2)).

(** Keeps the mapping with the greatest original position; among equal
    original positions the first in the consumer's order (generated column,
    then generated line). *)
Definition laterOriginal (m best : Mapping) : bool :=
  pos_ltb (originalLine best) (originalColumn best) (originalLine m) (originalColumn m)
  || ((originalLine m =? originalLine best) && (originalColumn m =? originalColumn best)
      && pos_ltb (generatedColumn m) (generatedLine m) (generatedColumn best) (generatedLine best)).

Definition nearest (later : Mapping -> Mapping -> bool) (cands : list Mapping) : option Mapping :=
  foldl (fun best m =>
           match best with
           | None => Some m
           | Some b => if later m b then Some m else Some b
           end) None cands.

(** Original to generated: [consumer.generatedPositionFor({ line, column, source })]. *)
Definition generatedPositionFor (sm : list Mapping) (line column : Z) (src : string) : Res Position :=
  if negb (existsb (fun m => bool_decide (source m = src)) sm) then Ok nullPosition
  else if line <=? 0 then Throw (JsTypeError "Line must be greater than or equal to 1")
  else if column <? 0 then Throw (JsTypeError "Column must be greater than or equal to 0")
  else
    let cands := filter (fun m => source m = src /\
                           pos_leb (originalLine m) (originalColumn m) line column = true) sm in
    match nearest laterOriginal cands with
    | Some m => Ok (mkPosition (Some (generatedLine m)) (Some (generatedColumn m)))
    | None => Ok nullPosition
    end.

Definition laterGenerated (m best : Mapping) : bool :=
  pos_ltb (generatedLine best) (generatedColumn best) (generatedLine m) (generatedColumn m).

(** Generated to original, in the spec's words: the nearest mapping at or
    before the given generated position. *)
Definition originalPositionFor (sm : list Mapping) (line column : Z) : Position :=
  let cands := filter (fun m => pos_leb (generatedLine m) (generatedColumn m) line column = true) sm in
  match nearest laterGenerated cands with
  | Some m => mkPosition (Some (originalLine m)) (Some (originalColumn m))
  | None => nullPosition
  end.

(** ** Definitions of a file (./collect) *)

Record LocalCallDefinition : Type := mkDefinition {
  def_start : Z;
  def_end : Z;
  def_task : ref
}.

Record FileInformation : Type := mkFileInformation {
  fi_file : ref;
  fi_filepath : string;
  fi_parsed : string;
  fi_map : option (list Mapping);
  fi_definitions : list LocalCallDefinition
}.

Definition set_definitions (fi : FileInformation) (ds : list LocalCallDefinition) : FileInformation :=
  mkFileInformation (fi_file fi) (fi_filepath fi) (fi_parsed fi) (fi_map fi) ds.

(** [definitions.sort((a, b) => b.start - a.start)]: [Array.prototype.sort]
    is stable, so the outcome is the one stable arrangement by descending
    [start]; insertion from the right computes it. *)
Fixpoint insertByStart (d : LocalCallDefinition) (l : list LocalCallDefinition)
  : list LocalCallDefinition :=
  match l with
  | [] => [d]
  | x :: r => if def_start x <=? def_start d then d :: x :: r
              else x :: insertByStart d r
  end.

Definition sortDefinitions (l : list LocalCallDefinition) : list LocalCallDefinition :=
  foldr insertByStart [] l.

(** What [definition] is bound to: a span, or the file. *)
Inductive Located : Type :=
| AtDefinition (d : LocalCallDefinition)
| AtFile (file : ref).

(** ['task' in definition ? definition.task : definition] *)
Definition suiteOf (d : Located) : ref :=
  match d with
  | AtDefinition d => def_task d
  | AtFile f => f
  end.

(** [`${line}:${column}`] *)
Definition showNullable (o : option Z) : string :=
  match o with
  | Some z => pretty z
  | None => "null"
  end.

Definition indexKey (p : Position) : string :=
  showNullable (pos_line p) +:+ ":" +:+ showNullable (pos_column p).

(** [(index != null && sortedDefinitions.find(def => def.start <= index &&
    def.end >= index)) || file] *)
Definition findDefinition (sortedDefinitions : list LocalCallDefinition)
    (index : option Z) (file : ref) : Located :=
  match index with
  | Some i =>
      match find (fun def => (def_start def <=? i) && (def_end def >=? i)) sortedDefinitions with
      | Some d => AtDefinition d
      | None => AtFile file
      end
  | None => AtFile file
  end.

Definition positionOf (e : TscErrorInfo) : Position :=
  mkPosition (Some (info_line e)) (Some (info_column e)).

(** [mapConsumer?.generatedPositionFor({ line, column, source: path }) ||
    originalError]: the consumer returns an object, which is truthy, so the
    right operand is taken exactly when there is no consumer. *)
Definition lookupPosition (mapConsumer : option (list Mapping)) (originalError : TscErrorInfo)
    (path : string) : Res Position :=
  match mapConsumer with
  | Some sm => generatedPositionFor sm (info_line originalError) (info_column originalError) path
  | None => Ok (positionOf originalError)
  end.

(** ** State of a [Typechecker] *)

(** [interface ErrorsCache { files: File[]; sourceErrors: TypeCheckError[] }] *)
Record ErrorsCache : Type := mkErrorsCache {
  ec_files : list ref;
  ec_sourceErrors : list TypeCheckError
}.

(** The instance fields [_tests] and [_result], the store of [ErrorsCache]
    objects that [_result] points into, the store of task objects, and the
    global [Error.stackTraceLimit]. *)
Record State : Type := mkState {
  _tests : option (gmap string FileInformation);
  _result : nat;
  caches : list ErrorsCache;
  heap : list Task;
  stackTraceLimit : Z
}.

Definition set_tests (st : State) (t : option (gmap string FileInformation)) : State :=
  mkState t (_result st) (caches st) (heap st) (stackTraceLimit st).

Definition set_heap (st : State) (h : list Task) : State :=
  mkState (_tests st) (_result st) (caches st) h (stackTraceLimit st).

Definition set_stackTraceLimit (st : State) (l : Z) : State :=
  mkState (_tests st) (_result st) (caches st) (heap st) l.

Definition set_result_ref (st : State) (r : nat) : State :=
  mkState (_tests st) r (caches st) (heap st) (stackTraceLimit st).

Definition set_caches (st : State) (c : list ErrorsCache) : State :=
  mkState (_tests st) (_result st) c (heap st) (stackTraceLimit st).

(** The state after [new Typechecker(ctx, files)]: [_result] is a fresh
    object with two empty arrays, [_tests] is the empty record. *)
Definition newTypechecker (h : list Task) (limit : Z) : State :=
  mkState (Some ∅) 0%nat [mkErrorsCache [] []] h limit.

(** The elements of [{ error, originalError }[]]. *)
Record SuiteError : Type := mkSuiteError {
  se_originalError : TscErrorInfo;
  se_error : TypeCheckError
}.

(** ** [Map] and [Set] with insertion order *)

Fixpoint Map_set {V : Type} (m : list (string * V)) (k : string) (v : V) : list (string * V) :=
  match m with
  | [] => [(k, v)]
  | (k', v') :: r => if decide (k' = k) then (k, v) :: r else (k', v') :: Map_set r k v
  end.

Fixpoint Map_get {V : Type} (m : list (string * V)) (k : string) : option V :=
  match m with
  | [] => None
  | (k', v') :: r => if decide (k' = k) then Some v' else Map_get r k
  end.

Definition Set_add (s : list string) (x : string) : list string :=
  if bool_decide (x ∈ s) then s else s ++ [x].

(** [new Set(iterable)] *)
Definition newSet (l : list string) : list string := foldl Set_add [] l.

Definition Set_has (s : list string) (x : string) : bool := bool_decide (x ∈ s).

(** ** The class [Typechecker] *)

Section Typechecker.

(** Collaborators that parser.ts imports: [getRawErrsMapFromTsCompile]
    (./parse), [resolve] (pathe), [createIndexMap] (./utils) and
    [collectTests] (./collect), which builds the file and suite objects of
    one file in the task store. *)
Variable getRawErrsMapFromTsCompile : string -> list (string * list TscErrorInfo).
Variable resolve : string -> string -> string.
Variable createIndexMap : string -> gmap string Z.
Variable collectFileTests : string -> list Task -> option FileInformation * list Task.

(** The frames on the call stack where [new TypeCheckError] is evaluated. *)
Variable callStack : list string.

(** [constructor(protected ctx: Vitest, protected files: string[])], with
    [ctx.config.root]. *)
Variable root : string.
Variable files : list string.

(** [new TypeCheckError(message, stacks)] under a given
    [Error.stackTraceLimit]. *)
Definition newTypeCheckError (limit : Z) (message : string) (stacks : list ParsedStack)
  : TypeCheckError :=
  mkTypeCheckError "TypeCheckError" message stacks (take (Z.to_nat limit) callStack).

(** The callback of [errors.map] in [parseTscLikeOutput] (parser.ts:145-165),
    threading [Error.stackTraceLimit]. *)
Definition wrapError (filepath : string) (info : TscErrorInfo) (stackTraceLimit0 : Z)
  : SuiteError * Z :=
  let limit := stackTraceLimit0 in
  let stackTraceLimit1 := 0 in
  let error := newTypeCheckError stackTraceLimit1 (info_errMsg info)
                 [mkParsedStack filepath (info_line info) (info_column info) ""
                    (mkSourcePos (info_line info) (info_column info))] in
  let stackTraceLimit2 := limit in
  (mkSuiteError info error, stackTraceLimit2).

Fixpoint wrapErrors (filepath : string) (errors : list TscErrorInfo) (limit : Z)
  : list SuiteError * Z :=
  match errors with
  | [] => ([], limit)
  | info :: rest =>
      let '(e, limit1) := wrapError filepath info limit in
      let '(es, limit2) := wrapErrors filepath rest limit1 in
      (e :: es, limit2)
  end.

(** [errorsMap.forEach((errors, path) => ...)] *)
Fixpoint resolveErrors (errorsMap : list (string * list TscErrorInfo))
    (typesErrors : list (string * list SuiteError)) (limit : Z)
  : list (string * list SuiteError) * Z :=
  match errorsMap with
  | [] => (typesErrors, limit)
  | (path, errors) :: rest =>
      let filepath := resolve root path in
      let '(suiteErrors, limit1) := wrapErrors filepath errors limit in
      resolveErrors rest (Map_set typesErrors filepath suiteErrors) limit1
  end.

(** [parseTscLikeOutput] (parser.ts:140-169) *)
Definition parseTscLikeOutput (output : string) (st : State)
  : list (string * list SuiteError) * State :=
  let errorsMap := getRawErrsMapFromTsCompile output in
  let '(typesErrors, limit) := resolveErrors errorsMap [] (stackTraceLimit st) in
  (typesErrors, set_stackTraceLimit st limit).

(** [Promise.all(this.files.map(filepath => this.collectFileTests(filepath)))] *)
Fixpoint collectAll (paths : list string) (h : list Task)
  : list (option FileInformation) * list Task :=
  match paths with
  | [] => ([], h)
  | p :: rest =>
      let '(data, h1) := collectFileTests p h in
      let '(datas, h2) := collectAll rest h1 in
      (data :: datas, h2)
  end.

(** [collectTests] (parser.ts:59-70) *)
Definition collectTests (st : State) : gmap string FileInformation * State :=
  let '(datas, h) := collectAll files (heap st) in
  let tests := foldl (fun acc data =>
                        match data with
                        | None => acc
                        | Some d => <[fi_filepath d := d]> acc
                        end) (∅ : gmap string FileInformation) datas in
  (tests, set_tests (set_heap st h) (Some tests)).

(** The callback of [errors.forEach] in [prepareResults] (parser.ts:101-126). *)
Definition attachError (fuel : nat) (path : string) (file : ref)
    (sortedDefinitions : list LocalCallDefinition) (mapConsumer : option (list Mapping))
    (indexMap : gmap string Z) (idx : nat) (e : SuiteError) (h : list Task)
  : Res (list Task) :=
  originalPos <- lookupPosition mapConsumer (se_originalError e) path ;;
  let index := indexMap !! indexKey originalPos in
  let definition := findDefinition sortedDefinitions index file in
  let suite := suiteOf definition in
  s <- deref h suite ;;
  let state := failOrMode (task_mode s) in
  let task := mkTask TypecheckT (pretty idx) ("error expect " +:+ pretty (idx + 1)%nat)
                (task_mode s) (Some file) (Some suite)
                (Some (mkTaskResult state
                         (match state with Fail => Some (se_error e) | _ => None end)))
                [] in
  let '(r, h1) := alloc h task in
  h2 <- match state with
        | Fail => markFailed fuel suite h1
        | _ => Ok h1
        end ;;
  s2 <- deref h2 suite ;;
  Ok (<[suite := push_task s2 r]> h2).

(** [errors.forEach((..., idx) => ...)] *)
Fixpoint forEachError (body : nat -> SuiteError -> list Task -> Res (list Task))
    (idx : nat) (errors : list SuiteError) (h : list Task) : Res (list Task) :=
  match errors with
  | [] => Ok h
  | e :: rest => h1 <- body idx e h ;; forEachError body (S idx) rest h1
  end.

(** The callback of [testFiles.forEach] in [prepareResults] (parser.ts:84-127),
    on the record [tests], the task store and the array [files] being built. *)
Definition attachFile (fuel : nat) (typeErrors : list (string * list SuiteError))
    (path : string) (acc : gmap string FileInformation * list Task * list ref)
  : Res (gmap string FileInformation * list Task * list ref) :=
  let '(tests, h, out) := acc in
  match tests !! path with
  | None => Throw (JsTypeError "Cannot destructure property 'file' of undefined")
  | Some info =>
      let file := fi_file info in
      let errors := Map_get typeErrors path in
      let out1 := out ++ [file] in
      match errors with
      | None => Ok (tests, h, out1)
      | Some errors =>
          let sortedDefinitions := sortDefinitions (fi_definitions info) in
          let tests1 := <[path := set_definitions info sortedDefinitions]> tests in
          let mapConsumer := fi_map info in
          let indexMap := createIndexMap (fi_parsed info) in
          h1 <- forEachError (attachError fuel path file sortedDefinitions mapConsumer indexMap)
                  0%nat errors h ;;
          Ok (tests1, h1, out1)
      end
  end.

Fixpoint forEachTestFile (fuel : nat) (typeErrors : list (string * list SuiteError))
    (testFiles : list string) (acc : gmap string FileInformation * list Task * list ref)
  : Res (gmap string FileInformation * list Task * list ref) :=
  match testFiles with
  | [] => Ok acc
  | path :: rest =>
      acc1 <- attachFile fuel typeErrors path acc ;;
      forEachTestFile fuel typeErrors rest acc1
  end.

(** [typeErrors.forEach((errors, path) => { if (!testFiles.has(path))
    sourceErrors.push(...errors.map(({ error }) => error)) })] *)
Fixpoint collectSourceErrors (testFiles : list string)
    (typeErrors : list (string * list SuiteError)) (sourceErrors : list TypeCheckError)
  : list TypeCheckError :=
  match typeErrors with
  | [] => sourceErrors
  | (path, errors) :: rest =>
      collectSourceErrors testFiles rest
        (if Set_has testFiles path then sourceErrors
         else sourceErrors ++ map se_error errors)
  end.

(** [prepareResults] (parser.ts:72-138).  The returned object literal is a
    new [ErrorsCache] object; its reference is the result. *)
Definition prepareResults (fuel : nat) (output : string) (st : State) : Res (nat * State) :=
  let '(typeErrors, st1) := parseTscLikeOutput output st in
  let testFiles := newSet files in
  let '(tests, st2) := match _tests st1 with
                       | Some tests => (tests, st1)
                       | None => collectTests st1
                       end in
  acc <- forEachTestFile fuel typeErrors testFiles (tests, heap st2, []) ;;
  let '(tests1, h, out) := acc in
  let sourceErrors := collectSourceErrors testFiles typeErrors [] in
  let st3 := set_heap (set_tests st2 (Some tests1)) h in
  Ok (length (caches st3),
      set_caches st3 (caches st3 ++ [mkErrorsCache out sourceErrors])).

End Typechecker.

(** ** Strings: [includes] and the pass-complete pattern *)

(** [hay.includes(needle)] *)
Fixpoint includes (needle hay : string) : bool :=
  String.prefix needle hay ||
  match hay with
  | EmptyString => false
  | String _ rest => includes needle rest
  end.

(** [\w] *)
Definition isWordChar (c : ascii) : bool :=
  let n := nat_of_ascii c in
  ((48 <=? n) && (n <=? 57) || (65 <=? n) && (n <=? 90)
   || (97 <=? n) && (n <=? 122) || (n =? 95))%nat.

(** [.] matches any character but a line terminator. *)
Definition isLineTerminator (c : ascii) : bool :=
  let n := nat_of_ascii c in ((n =? 10) || (n =? 13))%nat.

Fixpoint stripPrefix (p s : string) : option string :=
  match p, s with
  | EmptyString, _ => Some s
  | String a p', String b s' => if bool_decide (a = b) then stripPrefix p' s' else None
  | String _ _, EmptyString => None
  end.

Fixpoint skipWord (s : string) : string :=
  match s with
  | String c rest => if isWordChar c then skipWord rest else s
  | EmptyString => s
  end.

(** [s*. Watching for] at the start of [s], over every number of ['s']
    that [s*] may take. *)
Fixpoint matchTail (s : string) : bool :=
  match s with
  | EmptyString => false
  | String c rest =>
      (negb (isLineTerminator c) && String.prefix " Watching for" rest)
      || (bool_decide (c = "s"%char) && matchTail rest)
  end.

(** [Found \w+ errors*. Watching for] at the start of [s]: [\w+] is followed
    by a space, so it takes the whole run of word characters. *)
Definition matchHere (s : string) : bool :=
  match stripPrefix "Found " s with
  | None => false
  | Some s1 =>
      match s1 with
      | String c _ =>
          isWordChar c &&
          match stripPrefix " error" (skipWord s1) with
          | Some s2 => matchTail s2
          | None => false
          end
      | EmptyString => false
      end
  end.

(** [/Found \w+ errors*. Watching for/.test(s)] *)
Fixpoint passComplete (s : string) : bool :=
  matchHere s ||
  match s with
  | EmptyString => false
  | String _ rest => passComplete rest
  end.

(** ** [start] (parser.ts:177-222) *)

Inductive Event : Type :=
| OnParseStart
| OnWatcherRerun
| OnParseEnd (result : nat).

(** The instance state together with the variables that the stdout handler
    closes over, the calls of [prepareResults] whose promise has not
    settled yet (each with its argument), and the callbacks invoked so far. *)
Record Session : Type := mkSession {
  tc : State;
  output : string;
  rerunTriggered : bool;
  pending : list string;
  events : list Event
}.

(** [this._result.sourceErrors = []; this._result.files = []] *)
Definition clearResult (st : State) : State :=
  set_caches st (<[_result st := mkErrorsCache [] []]> (caches st)).

(** The handler of [stdout.on('data', ...)] (parser.ts:197-216). *)
Definition onData (watch : bool) (chunk : string) (s : Session) : Session :=
  let output1 := output s +:+ chunk in
  if negb watch then mkSession (tc s) output1 (rerunTriggered s) (pending s) (events s)
  else
    let s1 :=
      if includes "File change detected" output1 && negb (rerunTriggered s)
      then mkSession (set_tests (clearResult (tc s)) None) output1 true (pending s)
                     (events s ++ [OnWatcherRerun])
      else mkSession (tc s) output1 (rerunTriggered s) (pending s) (events s) in
    if passComplete (output s1)
    then mkSession (tc s1) "" false (pending s1 ++ [output s1]) (events s1)
    else s1.

Definition feed (watch : bool) (chunks : list string) (s : Session) : Session :=
  foldl (fun s chunk => onData watch chunk s) s chunks.

Definition isRerun (e : Event) : bool :=
  match e with
  | OnWatcherRerun => true
  | _ => false
  end.

(** How often [_onWatcherRerun] has been invoked. *)
Definition reruns (evs : list Event) : nat := length (List.filter isRerun evs).

Section Start.

Variable getRawErrsMapFromTsCompile : string -> list (string * list TscErrorInfo).
Variable resolve : string -> string -> string.
Variable createIndexMap : string -> gmap string Z.
Variable collectFileTests : string -> list Task -> option FileInformation * list Task.
Variable callStack : list string.
Variable root : string.
Variable files : list string.

(** The oldest unsettled [prepareResults(output)] fulfils:
    [.then((result) => { this._result = result; this._onParseEnd?.(result) })].
    The call is taken to run here, in one step: this is the order of events
    when no chunk arrives and no other call is under way between the call
    and its fulfilment. *)
Definition settle (fuel : nat) (s : Session) : Res Session :=
  match pending s with
  | [] => Ok s
  | out :: rest =>
      r <- prepareResults getRawErrsMapFromTsCompile resolve createIndexMap
             collectFileTests callStack root files fuel out (tc s) ;;
      let result := r.1 in
      Ok (mkSession (set_result_ref r.2 result) (output s) (rerunTriggered s) rest
                    (events s ++ [OnParseEnd result]))
  end.

(** [start] without [--watch]: the chunks arrive, the process exits, and
    the pipeline runs once over all of the output. *)
Definition startOnce (fuel : nat) (chunks : list string) (st : State) : Res Session :=
  let s0 := mkSession st "" false [] [OnParseStart] in
  let s1 := feed false chunks s0 in
  r <- prepareResults getRawErrsMapFromTsCompile resolve createIndexMap
         collectFileTests callStack root files fuel (output s1) (tc s1) ;;
  let result := r.1 in
  Ok (mkSession (set_result_ref r.2 result) (output s1) (rerunTriggered s1) (pending s1)
                (events s1 ++ [OnParseEnd result])).

(** [start] with [--watch], up to the installation of the handler. *)
Definition startWatch (st : State) : Session :=
  mkSession st "" false [] [OnParseStart].

End Start.

(** [getResult] *)
Definition getResult (st : State) : option ErrorsCache := caches st !! _result st.

(** ** Predicates used in the statements *)

(** What [markFailed] assigns to one task. *)
Definition marked (t : Task) : Task :=
  set_result t (mkTaskResult (failOrMode (task_mode t)) None).

(** [chain h task n]: following [suite] from [task] reaches a task without
    [suite] after visiting [n] objects. *)
Inductive chain (h : list Task) : ref -> nat -> Prop :=
| chain_top task t :
    h !! task = Some t -> task_suite t = None -> chain h task 1
| chain_up task t s n :
    h !! task = Some t -> task_suite t = Some s -> chain h s n -> chain h task (S n).

(** [t'] is [t] up to [result] and [tasks]. *)
Definition keepsIdentity (t t' : Task) : Prop :=
  task_type t' = task_type t /\ task_id t' = task_id t /\ task_name t' = task_name t /\
  task_mode t' = task_mode t /\ task_file t' = task_file t /\ task_suite t' = task_suite t.

(** [h2] is [h1] up to the [result] of its objects. *)
Definition onlyResults (h1 h2 : list Task) : Prop :=
  length h2 = length h1 /\
  forall r t, h1 !! r = Some t ->
    exists t', h2 !! r = Some t' /\ keepsIdentity t t' /\ task_tasks t' = task_tasks t.

(** The synthetic task that [attachError] builds for the error at [idx],
    owned by [suite] whose object is [s]. *)
Definition syntheticTask (file suite : ref) (s : Task) (idx : nat) (e : SuiteError) : Task :=
  mkTask TypecheckT (pretty idx) ("error expect " +:+ pretty (idx + 1)%nat)
    (task_mode s) (Some file) (Some suite)
    (Some (mkTaskResult (failOrMode (task_mode s))
             (match failOrMode (task_mode s) with Fail => Some (se_error e) | _ => None end)))
    [].

(** The owner that [attachError] selects for a looked-up position. *)
Definition owner (sortedDefinitions : list LocalCallDefinition) (indexMap : gmap string Z)
    (file : ref) (pos : Position) : ref :=
  suiteOf (findDefinition sortedDefinitions (indexMap !! indexKey pos) file).



(** By descending [start]. *)
Definition startsBefore (a b : LocalCallDefinition) : Prop := def_start b <= def_start a.

(** The original position of [m'] is at or before that of [m]. *)
Definition origLe (m' m : Mapping) : Prop :=
  pos_leb (originalLine m') (originalColumn m') (originalLine m) (originalColumn m) = true.

(** The original position of [m] is at or before the position that the
    diagnostic [e] reports. *)
Definition atOrBefore (m : Mapping) (e : TscErrorInfo) : Prop :=
  pos_leb (originalLine m) (originalColumn m) (info_line e) (info_column e) = true.

(** The error wrapped for a diagnostic of [filepath]: one frame, built from
    the resolved path and the diagnostic's line and column, and no frame
    captured from the call stack. *)
Definition wellFramed (filepath : string) (e : SuiteError) : Prop :=
  err_name (se_error e) = "TypeCheckError" /\
  err_message (se_error e) = info_errMsg (se_originalError e) /\
  err_stacks (se_error e) =
    [mkParsedStack filepath (info_line (se_originalError e)) (info_column (se_originalError e))
       "" (mkSourcePos (info_line (se_originalError e)) (info_column (se_originalError e)))] /\
  err_captured (se_error e) = [].

(** The references held by the [tasks] of all objects of a store. *)
Definition attachments (h : list Task) : list ref := concat (map task_tasks h).

(** The entry of [typeErrors] belongs to a requested file. *)
Definition requested (files : list string) (kv : string * list SuiteError) : bool :=
  Set_has (newSet files) kv.1.

(** The diagnostics of requested files, and those of the other files. *)
Definition underTest (files : list string) (typeErrors : list (string * list SuiteError))
  : list SuiteError :=
  concat (map (fun kv => if requested files kv then kv.2 else []) typeErrors).

Definition notUnderTest (files : list string) (typeErrors : list (string * list SuiteError))
  : list SuiteError :=
  concat (map (fun kv => if requested files kv then [] else kv.2) typeErrors).

(** [typeErrors.get(path)], an absent entry counting as no errors. *)
Definition errorsOf (typeErrors : list (string * list SuiteError)) (path : string)
  : list SuiteError :=
  default [] (Map_get typeErrors path).

(** The state in which [prepareResults] enters its loops: [collectTests]
    has run when [_tests] was null. *)
Definition collected (collectFileTests : string -> list Task -> option FileInformation * list Task)
    (files : list string) (st : State) : State :=
  match _tests st with
  | Some _ => st
  | None => (collectTests collectFileTests files st).2
  end.

(** Every possible owner of a diagnostic of the file, the file itself or
    the task of one of its definitions, has a finite chain of ancestors of
    at most [fuel] objects. *)
Definition ownersBounded (h : list Task) (fuel : nat) (file : ref)
    (defs : list LocalCallDefinition) : Prop :=
  forall o, o ∈ file :: map def_task defs -> exists n, chain h o n /\ (n <= fuel)%nat.

(** The position lookup of every error of the list returns. *)
Definition lookupsReturn (mc : option (list Mapping)) (path : string)
    (errors : list SuiteError) : Prop :=
  Forall (fun e => exists pos, lookupPosition mc (se_originalError e) path = Ok pos) errors.

(** Every requested file has been collected, its possible owners are
    bounded, and the lookups of its diagnostics return. *)
Definition collectedFiles (tests : gmap string FileInformation) (h : list Task) (fuel : nat)
    (typeErrors : list (string * list SuiteError)) (testFiles : list string) : Prop :=
  forall p, p ∈ testFiles ->
    exists info, tests !! p = Some info /\
      ownersBounded h fuel (fi_file info) (fi_definitions info) /\
      lookupsReturn (fi_map info) p (errorsOf typeErrors p).

(** ** A sample project

    One test file with two suites, checked together with a source file that
    is not under test; concrete collaborators for it. *)
Module Sample.

Definition root : string := "/r".
Definition path : string := "/r/a.test-d.ts".
Definition files : list string := [path].

(** The file object, then suite A (offsets 0 to 100) and suite B (offsets
    200 to 300), allocated at the end of the store. *)
Definition collectFileTests (filepath : string) (h : list Task)
  : option FileInformation * list Task :=
  if bool_decide (filepath = path) then
    let file := length h in
    (Some (mkFileInformation file path "describe('A'); describe('B')" None
             [mkDefinition 0 100 (file + 1)%nat; mkDefinition 200 300 (file + 2)%nat]),
     h ++ [mkTask SuiteT "0" "a.test-d.ts" Run None None None [(file + 1)%nat; (file + 2)%nat];
           mkTask SuiteT "1" "A" Run (Some file) (Some file) None [];
           mkTask SuiteT "2" "B" Run (Some file) (Some file) None []])
  else (None, h).

Definition createIndexMap (parsed : string) : gmap string Z :=
  list_to_map [("1:1", 5); ("2:3", 250)].

Definition resolve (root path : string) : string := root +:+ "/" +:+ path.

(** The first diagnostic of a.test-d.ts lies in suite B, the second in
    suite A; b.ts is not under test. *)
Definition getRawErrsMapFromTsCompile (output : string)
  : list (string * list TscErrorInfo) :=
  if includes "error TS" output then
    [("a.test-d.ts", [mkTscErrorInfo "a.test-d.ts" 2322 "in B" 2 3;
                      mkTscErrorInfo "a.test-d.ts" 2322 "in A" 1 1]);
     ("b.ts", [mkTscErrorInfo "b.ts" 2304 "in b" 1 1])]
  else [].

Definition callStack : list string := ["parseTscLikeOutput"; "prepareResults"].

(** A fresh checker after [collectTests]. *)
Definition state0 : State :=
  (collectTests collectFileTests files (newTypechecker [] 10)).2.

Definition prepare (fuel : nat) (output : string) (st : State) : Res (nat * State) :=
  prepareResults getRawErrsMapFromTsCompile resolve createIndexMap collectFileTests
    callStack root files fuel output st.

Definition settle (fuel : nat) (s : Session) : Res Session :=
  settle getRawErrsMapFromTsCompile resolve createIndexMap collectFileTests
    callStack root files fuel s.

(** What tsc prints when a file changes, and when the pass is done. *)
Definition changed : string :=
  "12:00:00 - File change detected. Starting incremental compilation...".
Definition finished : string :=
  "a.test-d.ts(2,3): error TS2322: in B 12:00:01 - Found 3 errors. Watching for file changes.".

(** A source map with two mappings of the test file: generated 3:0 from
    original 1:0, and generated 7:0 from original 3:0. *)
Definition sourceMap : list Mapping :=
  [mkMapping 3 0 path 1 0; mkMapping 7 0 path 3 0].

End Sample.

(** The marker of a restarted pass. *)
Definition rerunMarker : string := "File change detected".

(** What the buffer holds after [chunks] arrived during an open pass. *)
Definition buffer (s : Session) (chunks : list string) : string :=
  output s +:+ foldr String.append "" chunks.

(** No prefix of [chunks] completes the pass. *)
Definition passOpen (s : Session) (chunks : list string) : Prop :=
  forall k, (1 <= k <= length chunks)%nat -> passComplete (buffer s (take k chunks)) = false.

(** Two sessions agree on what the stdout handler reads and counts: the
    buffer, the flag, and the invocations of [_onWatcherRerun]. *)
Definition sameControl (s1 s2 : Session) : Prop :=
  output s1 = output s2 /\ rerunTriggered s1 = rerunTriggered s2 /\
  reruns (events s1) = reruns (events s2).

(** ** Further predicates *)

(** [onChain h task r]: [r] is [task] or one of its ancestors by [suite]. *)
Inductive onChain (h : list Task) : ref -> ref -> Prop :=
| onChain_here task : onChain h task task
| onChain_up task t s r :
    h !! task = Some t -> task_suite t = Some s -> onChain h s r -> onChain h task r.

(** Every character of the string passes the test. *)
Fixpoint allChars (P : ascii -> bool) (s : string) : bool :=
  match s with
  | EmptyString => true
  | String c rest => P c && allChars P rest
  end.

(** A decimal digit. *)
Definition isDigit (c : ascii) : bool :=
  let n := nat_of_ascii c in ((48 <=? n) && (n <=? 57))%nat.

(** A character of a printed integer: a digit or the sign. *)
Definition isNumberChar (c : ascii) : bool :=
  isDigit c || bool_decide (c = "-"%char).

Definition notColon (c : ascii) : bool := negb (bool_decide (c = ":"%char)).

(** The wrapped form of one diagnostic of [filepath]. *)
Definition wrapped (filepath : string) (info : TscErrorInfo) : SuiteError :=
  mkSuiteError info
    (mkTypeCheckError "TypeCheckError" (info_errMsg info)
       [mkParsedStack filepath (info_line info) (info_column info) ""
          (mkSourcePos (info_line info) (info_column info))] []).

(** The diagnostics of the last entry of the raw map whose path resolves to
    [p]. *)
Definition lastGroup (resolve : string -> string -> string) (root p : string)
    (errorsMap : list (string * list TscErrorInfo)) : option (list TscErrorInfo) :=
  foldl (fun acc kv => if bool_decide (resolve root kv.1 = p) then Some kv.2 else acc)
        None errorsMap.

(** The record of a file after [prepareResults] has sorted its definitions
    in place. *)
Definition sortedInfo (info : FileInformation) : FileInformation :=
  set_definitions info (sortDefinitions (fi_definitions info)).

(** The records that [collectTests] was given, nulls dropped. *)
Definition collectedData (datas : list (option FileInformation)) : list FileInformation :=
  omap id datas.

(** The concatenation of the strings of a list. *)
Definition joined (l : list string) : string := foldr String.append "" l.


(** The owner that [attachError] selects for a diagnostic, when the
    position lookup returns. *)
Definition ownerOf (path : string) (file : ref) (sortedDefinitions : list LocalCallDefinition)
    (mapConsumer : option (list Mapping)) (indexMap : gmap string Z) (e : SuiteError)
  : option ref :=
  match lookupPosition mapConsumer (se_originalError e) path with
  | Ok pos => Some (owner sortedDefinitions indexMap file pos)
  | _ => None
  end.

(** The references, allocated from [base] on in the order of the
    diagnostics, of the synthetic tasks whose owner is [r]. *)
Fixpoint attachedTo (owners : list (option ref)) (base : nat) (r : ref) : list ref :=
  match owners with
  | [] => []
  | o :: rest =>
      (if decide (o = Some r) then [base] else []) ++ attachedTo rest (S base) r
  end.

(** [r] is the owner of one of the diagnostics, or an ancestor of it, and
    that owner runs (mode 'run' or 'only'). *)
Definition failedBy (h : list Task) (owners : list (option ref)) (r : ref) : Prop :=
  exists o s, Some o ∈ owners /\ h !! o = Some s /\
              failOrMode (task_mode s) = Fail /\ onChain h o r.

(** The string of [k] letters s. *)
Fixpoint plural (k : nat) : string :=
  match k with
  | O => ""
  | S k' => String "s" (plural k')
  end.

(** ** A sample store

    A file object with suite A (mode only, offsets 0 to 100) and suite B
    (mode skip, offsets 200 to 300), and two diagnostics of the file: the
    first lies in B, the second in A. *)
Module SampleStore.

Definition h : list Task :=
  [mkTask SuiteT "0" "a.test-d.ts" Run None None None [1%nat; 2%nat];
   mkTask SuiteT "1" "A" Only (Some 0%nat) (Some 0%nat) None [];
   mkTask SuiteT "2" "B" Skip (Some 0%nat) (Some 0%nat) None []].

Definition defs : list LocalCallDefinition :=
  [mkDefinition 0 100 1%nat; mkDefinition 200 300 2%nat].

Definition im : gmap string Z := list_to_map [("1:1", 5); ("2:3", 250)].

Definition err (l c : Z) : SuiteError :=
  mkSuiteError (mkTscErrorInfo "a.test-d.ts" 2322 "msg" l c)
    (mkTypeCheckError "TypeCheckError" "msg"
       [mkParsedStack "/r/a.test-d.ts" l c "" (mkSourcePos l c)] []).

Definition errors : list SuiteError := [err 2 3; err 1 1].

End SampleStore.

(** ** The parsed diagnostics *)

(** The diagnostics that the parser returned, each with the path that its
    raw path resolves to, in the parser's order. *)
Definition parsedDiagnostics (resolve : string -> string -> string) (root : string)
    (raw : list (string * list TscErrorInfo)) : list (string * TscErrorInfo) :=
  concat (map (fun kv => map (fun info => (resolve root kv.1, info)) kv.2) raw).

(** The diagnostics that the map keyed by resolved path holds under [p]:
    those of the last raw entry whose path resolves to [p]. *)
Definition keptGroup (resolve : string -> string -> string) (root : string)
    (raw : list (string * list TscErrorInfo)) (p : string) : list TscErrorInfo :=
  default [] (lastGroup resolve root p raw).

(** The parsed diagnostics that the map keyed by resolved path keeps, by
    resolved path in the order of first occurrence. *)
Definition keptDiagnostics (resolve : string -> string -> string) (root : string)
    (raw : list (string * list TscErrorInfo)) : list (string * TscErrorInfo) :=
  concat (map (fun p => map (fun info => (p, info)) (keptGroup resolve root raw p))
              (newSet (map (fun kv => resolve root kv.1) raw))).

(** The error object built for a diagnostic of a resolved path. *)
Definition errorOf (d : string * TscErrorInfo) : TypeCheckError :=
  se_error (wrapped d.1 d.2).

(** How many synthetic tasks the first [i] requested files get. *)
Definition tasksBefore (resolve : string -> string -> string) (root : string)
    (raw : list (string * list TscErrorInfo)) (testFiles : list string) (i : nat) : nat :=
  sum_list (map (fun q => length (keptGroup resolve root raw q)) (take i testFiles)).

(** ** A parser output that names one file by two paths *)
Module Collision.

Definition first : TscErrorInfo := mkTscErrorInfo "a.test-d.ts" 2322 "in A" 1 1.
Definition second : TscErrorInfo := mkTscErrorInfo "./a.test-d.ts" 2322 "in B" 2 3.

Definition getRawErrsMapFromTsCompile (output : string)
  : list (string * list TscErrorInfo) :=
  [("a.test-d.ts", [first]); ("./a.test-d.ts", [second])].

(** A [resolve] that drops a leading "./" of the path. *)
Definition resolve (root path : string) : string :=
  root +:+ "/" +:+ match stripPrefix "./" path with
                   | Some rest => rest
                   | None => path
                   end.

End Collision.
(** * Properties of [markFailed] *)

Lemma marked_marked t : marked (marked t) = marked t.
Proof. by destruct t. Qed.

Lemma marked_suite t : task_suite (marked t) = task_suite t.
Proof. done. Qed.

Lemma bind_Ok {A B} (m : Res A) (k : A -> Res B) b :
  bind m k = Ok b -> exists a, m = Ok a /\ k a = Ok b.
Proof. destruct m; simpl; intros; [eauto | done | done]. Qed.

Lemma deref_Ok h r t : deref h r = Ok t <-> h !! r = Some t.
Proof. unfold deref. destruct (h !! r); split; intros; simplify_eq; done. Qed.

Lemma markFailed_unfold fuel task h t :
  h !! task = Some t ->
  markFailed (S fuel) task h =
    match task_suite t with
    | Some s => markFailed fuel s (<[task := marked t]> h)
    | None => Ok (<[task := marked t]> h)
    end.
Proof. intros Ht. simpl. unfold deref. rewrite Ht. done. Qed.

(** Every object is left alone or marked; nothing is allocated. *)
Lemma markFailed_lookup fuel : forall task h h',
  markFailed fuel task h = Ok h' ->
  forall r, h' !! r = h !! r \/ h' !! r = marked <$> (h !! r).
Proof.
  induction fuel as [|fuel IH]; intros task h h' Hm r; [done|].
  simpl in Hm. apply bind_Ok in Hm as (t & Ht & Hm). apply deref_Ok in Ht.
  fold (marked t) in Hm.
  assert (Hstep : forall r, <[task := marked t]> h !! r = h !! r \/
                            <[task := marked t]> h !! r = marked <$> (h !! r)).
  { intros r'. destruct (decide (task = r')) as [<-|Hne].
    - right. rewrite list_lookup_insert_eq; [by rewrite Ht|by eapply lookup_lt_Some].
    - left. by rewrite list_lookup_insert_ne. }
  destruct (task_suite t) as [s|].
  - destruct (IH _ _ _ Hm r) as [-> | ->]; [apply Hstep|].
    destruct (Hstep r) as [-> | ->]; [by right|].
    right. destruct (h !! r); simpl; [by rewrite marked_marked|done].
  - simplify_eq. apply Hstep.
Qed.

Lemma markFailed_length fuel task h h' :
  markFailed fuel task h = Ok h' -> length h' = length h.
Proof.
  intros Hm. apply Nat.le_antisymm.
  - destruct (decide (length h' <= length h)%nat) as [|Hgt]; [done|].
    destruct (lookup_lt_is_Some_2 h' (length h)) as [x Hx]; [lia|].
    destruct (markFailed_lookup _ _ _ _ Hm (length h)) as [Hr | Hr];
      rewrite Hx in Hr; rewrite (lookup_ge_None_2 h (length h)) in Hr; [done| lia |done|lia].
  - destruct (decide (length h <= length h')%nat) as [|Hgt]; [done|].
    destruct (lookup_lt_is_Some_2 h (length h')) as [x Hx]; [lia|].
    destruct (markFailed_lookup _ _ _ _ Hm (length h')) as [Hr | Hr];
      rewrite Hx in Hr; rewrite (lookup_ge_None_2 h' (length h')) in Hr; [done| lia |done|lia].
Qed.

(** The task that [markFailed] is called on ends up marked. *)
Lemma markFailed_root fuel task h h' t :
  markFailed fuel task h = Ok h' -> h !! task = Some t -> h' !! task = Some (marked t).
Proof.
  destruct fuel as [|fuel]; [done|]. intros Hm Ht.
  rewrite (markFailed_unfold _ _ _ _ Ht) in Hm.
  assert (Hins : <[task := marked t]> h !! task = Some (marked t)).
  { rewrite list_lookup_insert_eq; [done|by eapply lookup_lt_Some]. }
  destruct (task_suite t) as [s|]; [|by simplify_eq].
  destruct (markFailed_lookup _ _ _ _ Hm task) as [-> | ->]; rewrite Hins; [done|].
  simpl. by rewrite marked_marked.
Qed.

Lemma markFailed_idempotent fuel : forall task h h',
  markFailed fuel task h = Ok h' -> markFailed fuel task h' = Ok h'.
Proof.
  induction fuel as [|fuel IH]; intros task h h' Hm; [done|].
  pose proof Hm as Hm0.
  simpl in Hm. apply bind_Ok in Hm as (t & Ht & Hm). apply deref_Ok in Ht.
  fold (marked t) in Hm.
  pose proof (markFailed_root _ _ _ _ _ Hm0 Ht) as Hroot.
  rewrite (markFailed_unfold _ _ _ _ Hroot), marked_marked, marked_suite.
  rewrite (list_insert_id _ _ _ Hroot).
  destruct (task_suite t) as [s|]; [by eapply IH|done].
Qed.

Lemma chain_insert h task t n r :
  h !! task = Some t -> chain h r n -> chain (<[task := marked t]> h) r n.
Proof.
  intros Ht. induction 1 as [r x Hx Hs | r x s n Hx Hs _ IH].
  - destruct (decide (task = r)) as [->|Hne].
    + eapply chain_top; [rewrite list_lookup_insert_eq; [done|by eapply lookup_lt_Some]|].
      simplify_eq. done.
    + eapply chain_top; [by rewrite list_lookup_insert_ne|done].
  - destruct (decide (task = r)) as [->|Hne].
    + eapply chain_up; [rewrite list_lookup_insert_eq; [done|by eapply lookup_lt_Some]| |done].
      simplify_eq. done.
    + eapply chain_up; [by rewrite list_lookup_insert_ne|done|done].
Qed.

Lemma markFailed_returns h task n :
  chain h task n -> forall fuel, (n <= fuel)%nat -> exists h', markFailed fuel task h = Ok h'.
Proof.
  intros Hc. revert h task Hc.
  induction n as [|n IH]; intros h task Hc fuel Hle.
  { inversion Hc. }
  destruct fuel as [|fuel]; [lia|].
  inversion Hc as [r x Hx Hs | r x s m Hx Hs Hc']; subst;
    rewrite (markFailed_unfold _ _ _ _ Hx), Hs; [eauto|].
  eapply IH; [by apply chain_insert|lia].
Qed.

Lemma markFailed_fuel fuel : forall task h h',
  markFailed fuel task h = Ok h' -> forall fuel', (fuel <= fuel')%nat ->
  markFailed fuel' task h = Ok h'.
Proof.
  induction fuel as [|fuel IH]; intros task h h' Hm fuel' Hle; [done|].
  destruct fuel' as [|fuel']; [lia|].
  simpl in *. destruct (deref h task) as [t| |]; simpl in *; try done.
  destruct (task_suite t); [|done]. eapply IH; [done|lia].
Qed.

Lemma markFailed_app fuel : forall task h h' ext,
  markFailed fuel task h = Ok h' -> markFailed fuel task (h ++ ext) = Ok (h' ++ ext).
Proof.
  induction fuel as [|fuel IH]; intros task h h' ext Hm; [done|].
  simpl in Hm. apply bind_Ok in Hm as (t & Ht & Hm). apply deref_Ok in Ht.
  pose proof (lookup_lt_Some _ _ _ Ht) as Hlt.
  rewrite (markFailed_unfold fuel task (h ++ ext) t); [|by rewrite lookup_app_l].
  fold (marked t) in Hm. rewrite insert_app_l; [|done].
  destruct (task_suite t); [by apply IH|by simplify_eq].
Qed.

Lemma keepsIdentity_refl t : keepsIdentity t t.
Proof. by repeat split. Qed.

Lemma keepsIdentity_trans t1 t2 t3 :
  keepsIdentity t1 t2 -> keepsIdentity t2 t3 -> keepsIdentity t1 t3.
Proof. unfold keepsIdentity. intuition congruence. Qed.

Lemma keepsIdentity_marked t : keepsIdentity t (marked t).
Proof. by repeat split. Qed.

Lemma onlyResults_refl h : onlyResults h h.
Proof. split; [done|]. intros r t Ht. exists t. eauto using keepsIdentity_refl. Qed.

Lemma markFailed_onlyResults fuel task h h' :
  markFailed fuel task h = Ok h' -> onlyResults h h'.
Proof.
  intros Hm. split; [by eapply markFailed_length|].
  intros r t Ht. destruct (markFailed_lookup _ _ _ _ Hm r) as [Hr | Hr]; rewrite Ht in Hr.
  - exists t. eauto using keepsIdentity_refl.
  - exists (marked t). eauto using keepsIdentity_marked.
Qed.

(** C6: the ancestor-failure propagation [markFailed] terminates on every
    finite single-parent ancestor chain (any recursion budget of at least
    the length of the chain gives the same store), and it is idempotent: a
    second invocation on the resulting store returns that very store, so
    every ancestor keeps its result state and no [tasks] entry is created.
    The first invocation already leaves every [tasks] collection as it was
    and only assigns the state computed from the task's own mode. *)
Theorem markFailed_terminates_idempotent (h : list Task) (task : ref) (n : nat) :
  chain h task n ->
  exists h',
    (forall fuel, (n <= fuel)%nat ->
       markFailed fuel task h = Ok h' /\ markFailed fuel task h' = Ok h') /\
    length h' = length h /\
    (forall r, h' !! r = h !! r \/ h' !! r = marked <$> (h !! r)) /\
    (forall t, h !! task = Some t ->
       h' !! task = Some (marked t) /\
       (task_mode t = Run \/ task_mode t = Only ->
        state <$> task_result (marked t) = Some Fail)) /\
    (forall r t, h !! r = Some t ->
       exists t', h' !! r = Some t' /\ task_tasks t' = task_tasks t).
Proof.
  intros Hc.
  destruct (markFailed_returns _ _ _ Hc n) as [h' Hn]; [done|].
  exists h'. split; [|split; [|split; [|split]]].
  - intros fuel Hle.
    pose proof (markFailed_fuel _ _ _ _ Hn _ Hle) as Hf.
    split; [done|by eapply markFailed_idempotent].
  - by eapply markFailed_length.
  - by eapply markFailed_lookup.
  - intros t Ht. split; [by eapply markFailed_root|].
    intros [Hmode | Hmode]; simpl; by rewrite Hmode.
  - intros r t Ht.
    destruct (markFailed_onlyResults _ _ _ _ Hn) as [_ Hr].
    destruct (Hr _ _ Ht) as (t' & ? & _ & ?). eauto.
Qed.

(** * Properties of [attachError] *)

Lemma keepsIdentity_push t t' r : keepsIdentity t t' -> keepsIdentity t (push_task t' r).
Proof. intros (?&?&?&?&?&?). by repeat split. Qed.

Lemma attachError_unfold fuel path file defs mc im idx e h pos s :
  lookupPosition mc (se_originalError e) path = Ok pos ->
  h !! owner defs im file pos = Some s ->
  attachError fuel path file defs mc im idx e h =
    (h2 <- match failOrMode (task_mode s) with
           | Fail => markFailed fuel (owner defs im file pos)
                       (h ++ [syntheticTask file (owner defs im file pos) s idx e])
           | _ => Ok (h ++ [syntheticTask file (owner defs im file pos) s idx e])
           end ;;
     s2 <- deref h2 (owner defs im file pos) ;;
     Ok (<[owner defs im file pos := push_task s2 (length h)]> h2)).
Proof.
  intros Hpos Hs. unfold attachError, owner in *. rewrite Hpos. simpl.
  unfold deref at 1. rewrite Hs. simpl. done.
Qed.

Lemma attachError_Ok_inv fuel path file defs mc im idx e h h' :
  attachError fuel path file defs mc im idx e h = Ok h' ->
  exists pos s,
    lookupPosition mc (se_originalError e) path = Ok pos /\
    h !! owner defs im file pos = Some s.
Proof.
  unfold attachError, owner. intros H.
  apply bind_Ok in H as (pos & Hpos & H).
  apply bind_Ok in H as (s & Hs & H). apply deref_Ok in Hs. eauto.
Qed.

(** One step allocates one object, the synthetic task, appends its
    reference to the owner's [tasks], and otherwise changes results only. *)
Lemma attachError_step fuel path file defs mc im idx e h h' :
  attachError fuel path file defs mc im idx e h = Ok h' ->
  exists pos s fresh,
    lookupPosition mc (se_originalError e) path = Ok pos /\
    h !! owner defs im file pos = Some s /\
    length h' = S (length h) /\
    h' !! length h = Some fresh /\
    keepsIdentity (syntheticTask file (owner defs im file pos) s idx e) fresh /\
    task_tasks fresh = [] /\
    forall r t, h !! r = Some t ->
      exists t', h' !! r = Some t' /\ keepsIdentity t t' /\
        task_tasks t' = task_tasks t ++
                        (if decide (r = owner defs im file pos) then [length h] else []).
Proof.
  intros H. destruct (attachError_Ok_inv _ _ _ _ _ _ _ _ _ _ H) as (pos & s & Hpos & Hs).
  rewrite (attachError_unfold _ _ _ _ _ _ _ _ _ _ _ Hpos Hs) in H.
  set (suite := owner defs im file pos) in *.
  set (task := syntheticTask file suite s idx e) in *.
  apply bind_Ok in H as (h2 & Hh2 & H).
  apply bind_Ok in H as (s2 & Hs2 & H). apply deref_Ok in Hs2. simplify_eq.
  assert (Hres : onlyResults (h ++ [task]) h2).
  { destruct (failOrMode (task_mode s)); simplify_eq;
      eauto using onlyResults_refl, markFailed_onlyResults. }
  destruct Hres as [Hlen Hres]. rewrite length_app in Hlen. simpl in Hlen.
  pose proof (lookup_lt_Some _ _ _ Hs) as Hlt.
  destruct (Hres (length h) task) as (fresh & Hfresh & Hid & Htasks).
  { rewrite lookup_app_r; [|done]. by rewrite Nat.sub_diag. }
  exists pos, s, fresh. repeat split; try done.
  - rewrite length_insert. lia.
  - rewrite list_lookup_insert_ne; [done|]. fold suite. lia.
  - by destruct Hid.
  - by destruct Hid as (?&?&?).
  - by destruct Hid as (?&?&?&?).
  - by destruct Hid as (?&?&?&?&?).
  - by destruct Hid as (?&?&?&?&?&?).
  - by destruct Hid as (?&?&?&?&?&?).
  - intros r t Ht.
    destruct (Hres r t) as (t' & Ht' & Hid' & Htasks').
    { rewrite lookup_app_l; [done|by eapply lookup_lt_Some]. }
    destruct (decide (r = suite)) as [->|Hne].
    + assert (t' = s2) as -> by congruence. exists (push_task s2 (length h)).
      rewrite list_lookup_insert_eq; [|by eapply lookup_lt_Some].
      split; [done|]. split; [by apply keepsIdentity_push|]. simpl.
      rewrite Htasks'. by rewrite decide_True.
    + exists t'. rewrite list_lookup_insert_ne; [|done].
      split; [done|]. split; [done|]. rewrite decide_False; [|done]. by rewrite app_nil_r.
Qed.

(** With a finite ancestor chain from the owner and enough budget the step
    returns, and the synthetic task is stored exactly as built. *)
Lemma attachError_returns fuel path file defs mc im idx e h pos s n :
  lookupPosition mc (se_originalError e) path = Ok pos ->
  h !! owner defs im file pos = Some s ->
  chain h (owner defs im file pos) n -> (n <= fuel)%nat ->
  exists h',
    attachError fuel path file defs mc im idx e h = Ok h' /\
    h' !! length h = Some (syntheticTask file (owner defs im file pos) s idx e).
Proof.
  intros Hpos Hs Hc Hle.
  rewrite (attachError_unfold _ _ _ _ _ _ _ _ _ _ _ Hpos Hs).
  set (suite := owner defs im file pos) in *.
  set (task := syntheticTask file suite s idx e) in *.
  pose proof (lookup_lt_Some _ _ _ Hs) as Hlt.
  assert (Hh2 : exists h2, length h2 = length h /\ is_Some (h2 !! suite) /\
            match failOrMode (task_mode s) with
            | Fail => markFailed fuel suite (h ++ [task])
            | _ => Ok (h ++ [task])
            end = Ok (h2 ++ [task])).
  { destruct (failOrMode (task_mode s)) eqn:Hst; [by eauto|by eauto|].
    destruct (markFailed_returns _ _ _ Hc fuel Hle) as [h2 Hm].
    exists h2. pose proof (markFailed_length _ _ _ _ Hm) as Hlen.
    split; [done|]. split; [apply lookup_lt_is_Some_2; lia|].
    by apply markFailed_app. }
  destruct Hh2 as (h2 & Hlen & [s2 Hs2] & ->). simpl.
  unfold deref. rewrite lookup_app_l; [|lia]. rewrite Hs2. simpl.
  eexists. split; [done|].
  rewrite list_lookup_insert_ne; [|lia].
  rewrite lookup_app_r; [|lia]. by rewrite Hlen, Nat.sub_diag.
Qed.

(** * Properties of [forEachError] *)

Lemma forEachError_length body : forall errors idx h h',
  (forall i e h1 h2, body i e h1 = Ok h2 -> length h2 = S (length h1)) ->
  forEachError body idx errors h = Ok h' ->
  length h' = (length h + length errors)%nat.
Proof.
  induction errors as [|e errors IH]; intros idx h h' Hbody H; simpl in *.
  - simplify_eq. lia.
  - apply bind_Ok in H as (h1 & H1 & H). apply Hbody in H1.
    apply IH in H; [|done]. lia.
Qed.

Lemma forEachError_keeps fuel path file defs mc im : forall errors idx h h',
  forEachError (attachError fuel path file defs mc im) idx errors h = Ok h' ->
  forall r t, h !! r = Some t -> exists t', h' !! r = Some t' /\ keepsIdentity t t'.
Proof.
  induction errors as [|e errors IH]; intros idx h h' H r t Ht; simpl in *.
  - simplify_eq. eauto using keepsIdentity_refl.
  - apply bind_Ok in H as (h1 & H1 & H).
    destruct (attachError_step _ _ _ _ _ _ _ _ _ _ H1)
      as (pos & s & fresh & _ & _ & _ & _ & _ & _ & Hold).
    destruct (Hold _ _ Ht) as (t1 & Ht1 & Hid1 & _).
    destruct (IH _ _ _ H _ _ Ht1) as (t' & Ht' & Hid').
    eauto using keepsIdentity_trans.
Qed.

(** The task built for the error at position [k] of the list is labelled
    from [idx + k], where [idx] is the index the iteration started at. *)
Lemma forEachError_labels fuel path file defs mc im : forall errors idx h h',
  forEachError (attachError fuel path file defs mc im) idx errors h = Ok h' ->
  forall k e, errors !! k = Some e ->
    exists t, h' !! (length h + k)%nat = Some t /\
      task_type t = TypecheckT /\
      task_id t = pretty (idx + k)%nat /\
      task_name t = "error expect " +:+ pretty (idx + k + 1)%nat.
Proof.
  induction errors as [|e0 errors IH]; intros idx h h' H k e Hk; [done|].
  simpl in H. apply bind_Ok in H as (h1 & H1 & H).
  destruct (attachError_step _ _ _ _ _ _ _ _ _ _ H1)
    as (pos & s & fresh & _ & _ & Hlen & Hfresh & Hid & _ & _).
  destruct k as [|k].
  - destruct (forEachError_keeps _ _ _ _ _ _ _ _ _ _ H _ _ Hfresh) as (t & Ht & Hid').
    exists t. rewrite Nat.add_0_r. split; [done|].
    destruct (keepsIdentity_trans _ _ _ Hid Hid') as (Hty & Hi & Hn & _).
    rewrite Hty, Hi, Hn. simpl. by rewrite !Nat.add_0_r.
  - simpl in Hk. destruct (IH _ _ _ H _ _ Hk) as (t & Ht & Hty & Hi & Hn).
    exists t. rewrite Hlen in Ht.
    replace (length h + S k)%nat with (S (length h) + k)%nat by lia.
    split; [done|]. split; [done|].
    replace (idx + S k)%nat with (S idx + k)%nat by lia. done.
Qed.

Lemma attachError_length fuel path file defs mc im idx e h h' :
  attachError fuel path file defs mc im idx e h = Ok h' -> length h' = S (length h).
Proof.
  intros H.
  by destruct (attachError_step _ _ _ _ _ _ _ _ _ _ H) as (? & ? & ? & _ & _ & ? & _).
Qed.

(** * Properties of the definition locator *)


Lemma insertByStart_perm d l : insertByStart d l ≡ₚ d :: l.
Proof.
  induction l as [|x l IH]; simpl; [done|].
  case_match; [done|]. rewrite IH. apply Permutation_swap.
Qed.

Lemma sortDefinitions_perm l : sortDefinitions l ≡ₚ l.
Proof.
  induction l as [|d l IH]; simpl; [done|].
  unfold sortDefinitions in *. simpl. by rewrite insertByStart_perm, IH.
Qed.

Lemma insertByStart_sorted d l :
  StronglySorted startsBefore l -> StronglySorted startsBefore (insertByStart d l).
Proof.
  induction 1 as [|x l Hs IH Hall]; simpl.
  - repeat constructor.
  - case_match eqn:Hcmp.
    + apply Z.leb_le in Hcmp. constructor; [by constructor|].
      constructor; [done|].
      eapply Forall_impl; [done|]. unfold startsBefore. intros; simpl in *; lia.
    + apply Z.leb_gt in Hcmp. constructor; [done|].
      rewrite insertByStart_perm. constructor; [|done]. unfold startsBefore. lia.
Qed.

Lemma sortDefinitions_sorted l : StronglySorted startsBefore (sortDefinitions l).
Proof.
  induction l as [|d l IH]; [constructor|].
  unfold sortDefinitions in *. simpl. by apply insertByStart_sorted.
Qed.




(** * Properties of the position lookup *)

Lemma pos_leb_spec l1 c1 l2 c2 :
  pos_leb l1 c1 l2 c2 = true <-> l1 < l2 \/ (l1 = l2 /\ c1 <= c2).
Proof. unfold pos_leb. rewrite orb_true_iff, andb_true_iff. lia. Qed.

Lemma pos_ltb_spec l1 c1 l2 c2 :
  pos_ltb l1 c1 l2 c2 = true <-> l1 < l2 \/ (l1 = l2 /\ c1 < c2).
Proof. unfold pos_ltb. rewrite orb_true_iff, andb_true_iff. lia. Qed.

Lemma origLe_refl m : origLe m m.
Proof. unfold origLe. rewrite pos_leb_spec. lia. Qed.

Lemma origLe_trans m1 m2 m3 : origLe m1 m2 -> origLe m2 m3 -> origLe m1 m3.
Proof. unfold origLe. rewrite !pos_leb_spec. lia. Qed.

Lemma laterOriginal_true m b : laterOriginal m b = true -> origLe b m.
Proof.
  unfold laterOriginal, origLe.
  rewrite orb_true_iff, !andb_true_iff, pos_ltb_spec, pos_leb_spec. lia.
Qed.

Lemma laterOriginal_false m b : laterOriginal m b = false -> origLe m b.
Proof.
  unfold laterOriginal, origLe.
  rewrite orb_false_iff. intros [H _]. rewrite pos_leb_spec.
  destruct (pos_ltb _ _ _ _) eqn:E in H; [done|].
  apply not_true_iff_false in E. rewrite pos_ltb_spec in E. lia.
Qed.

(** The fold of [nearest], started from any candidate or from none, ends
    on an element that no other element is later than. *)
Lemma nearest_fold cands : forall acc,
  let step := fun best m =>
                match best with
                | None => Some m
                | Some b => if laterOriginal m b then Some m else Some b
                end in
  match foldl step acc cands with
  | None => acc = None /\ cands = []
  | Some m =>
      (acc = Some m \/ m ∈ cands) /\
      (forall b, acc = Some b -> origLe b m) /\
      (forall m', m' ∈ cands -> origLe m' m)
  end.
Proof.
  induction cands as [|c cands IH]; intros acc step; simpl.
  - destruct acc as [b|]; [|done].
    split; [by left|]. split; [|set_solver]. intros ? [= ->]. apply origLe_refl.
  - specialize (IH (step acc c)). simpl in IH. fold step in IH.
    destruct (foldl step (step acc c) cands) as [m|] eqn:Hfold.
    + destruct IH as (Hin & Hacc & Hall).
      assert (Hc : origLe c m /\ (forall b, acc = Some b -> origLe b m)).
      { unfold step in Hacc. destruct acc as [b|].
        - destruct (laterOriginal c b) eqn:Hl.
          + split; [by apply Hacc|]. intros ? [= <-].
            eapply origLe_trans; [by apply laterOriginal_true|by apply Hacc].
          + split; [|by intros ? [= <-]; apply Hacc].
            eapply origLe_trans; [by apply laterOriginal_false|by apply Hacc].
        - split; [by apply Hacc|done]. }
      destruct Hc as [Hc Hb]. split; [|split; [done|]].
      * destruct Hin as [Hin | Hin]; [|right; set_solver].
        unfold step in Hin. destruct acc as [b|]; [|right; set_solver].
        destruct (laterOriginal c b); simplify_eq; [right; set_solver|by left].
      * intros m' [-> | Hm']%elem_of_cons; [done|by apply Hall].
    + destruct IH as [Hstep _]. unfold step in Hstep.
      destruct acc as [b|]; [destruct (laterOriginal c b)|]; done.
Qed.

Lemma nearest_original cands :
  match nearest laterOriginal cands with
  | None => cands = []
  | Some m => m ∈ cands /\ forall m', m' ∈ cands -> origLe m' m
  end.
Proof.
  pose proof (nearest_fold cands None) as H. simpl in H. unfold nearest.
  destruct (foldl _ None cands) as [m|].
  - destruct H as ([?|?] & _ & ?); done.
  - by destruct H.
Qed.

(** C1 (as amended): with a source map, the position used for the
    definition lookup is the result of the consumer's original-to-generated
    lookup ([generatedPositionFor]) of the reported position, read as a
    position in the authored source [path]: the generated position of the
    mapping of that source whose original position is the nearest at or
    before the reported one, and the null position when that source has no
    such mapping.  Nothing bounds this position by the reported one. *)
Theorem lookupPosition_original_to_generated (sm : list Mapping) (e : TscErrorInfo)
    (path : string) :
  1 <= info_line e -> 0 <= info_column e ->
  (exists m,
     m ∈ sm /\ source m = path /\ atOrBefore m e /\
     lookupPosition (Some sm) e path =
       Ok (mkPosition (Some (generatedLine m)) (Some (generatedColumn m))) /\
     forall m', m' ∈ sm -> source m' = path -> atOrBefore m' e -> origLe m' m)
  \/ ((forall m, m ∈ sm -> source m = path -> ~ atOrBefore m e) /\
      lookupPosition (Some sm) e path = Ok nullPosition).
Proof.
  intros Hline Hcol. unfold lookupPosition, generatedPositionFor.
  destruct (existsb _ sm) eqn:Hsrc; simpl.
  - assert ((info_line e <=? 0) = false) as -> by (apply Z.leb_gt; lia).
    assert ((info_column e <? 0) = false) as -> by (apply Z.ltb_ge; lia).
    pose proof (nearest_original
      (filter (fun m => source m = path /\
                 pos_leb (originalLine m) (originalColumn m) (info_line e) (info_column e) = true)
              sm)) as Hn.
    destruct (nearest _ _) as [m|].
    + left. destruct Hn as [Hin Hmax]. apply list_elem_of_filter in Hin as [[Hs Hle] Hin].
      exists m. repeat split; try done.
      intros m' Hm' Hs' Hle'. apply Hmax. apply list_elem_of_filter. done.
    + right. split; [|done]. intros m Hm Hs Hle.
      assert (Hin : m ∈ filter (fun m => source m = path /\
                 pos_leb (originalLine m) (originalColumn m) (info_line e) (info_column e) = true)
              sm) by (apply list_elem_of_filter; done).
      rewrite Hn in Hin. set_solver.
  - right. split; [|done]. intros m Hm Hs _.
    apply not_true_iff_false in Hsrc. apply Hsrc. apply existsb_exists.
    exists m. split; [by apply list_elem_of_In|]. by apply bool_decide_eq_true.
Qed.

(** * Properties of [parseTscLikeOutput] *)

Lemma Map_set_keys {V} (m : list (string * V)) k v :
  forall y, y ∈ map fst (Map_set m k v) <-> y ∈ map fst m \/ y = k.
Proof.
  induction m as [|[k' v'] m IH]; intros y; simpl; [set_solver|].
  case_decide; subst; simpl; [set_solver|]. rewrite !elem_of_cons, IH. tauto.
Qed.

Lemma Map_set_NoDup {V} (m : list (string * V)) k v :
  NoDup (map fst m) -> NoDup (map fst (Map_set m k v)).
Proof.
  induction m as [|[k' v'] m IH]; simpl; intros Hn; [repeat constructor; set_solver|].
  apply NoDup_cons in Hn as [Hk Hn].
  case_decide; subst; simpl; [by apply NoDup_cons|].
  apply NoDup_cons. split; [|by apply IH]. rewrite Map_set_keys. set_solver.
Qed.

Section ParseFacts.

Variable getRawErrsMapFromTsCompile : string -> list (string * list TscErrorInfo).
Variable resolve : string -> string -> string.
Variable callStack : list string.
Variable root : string.

Lemma wrapError_spec filepath info limit :
  (wrapError callStack filepath info limit).2 = limit /\
  se_originalError (wrapError callStack filepath info limit).1 = info /\
  wellFramed filepath (wrapError callStack filepath info limit).1.
Proof. by repeat split. Qed.

Lemma wrapErrors_spec filepath : forall errors limit,
  (wrapErrors callStack filepath errors limit).2 = limit /\
  map se_originalError (wrapErrors callStack filepath errors limit).1 = errors /\
  Forall (wellFramed filepath) (wrapErrors callStack filepath errors limit).1.
Proof.
  induction errors as [|info errors IH]; intros limit; simpl; [by repeat split|].
  destruct (IH limit) as (Hl & Hm & Hf).
  destruct (wrapErrors callStack filepath errors limit) as [es l2]. simpl in *.
  subst. split; [done|]. split; [done|]. constructor; [by repeat split|done].
Qed.

Lemma Map_set_Forall {V} (P : string * V -> Prop) (m : list (string * V)) k v :
  Forall P m -> P (k, v) -> Forall P (Map_set m k v).
Proof.
  induction 1 as [|[k' v'] m Hx Hm IH]; intros Hkv; simpl; [by repeat constructor|].
  case_decide; constructor; auto.
Qed.

Lemma resolveErrors_spec : forall errorsMap typesErrors limit,
  Forall (fun kv => Forall (wellFramed kv.1) kv.2) typesErrors ->
  NoDup (map fst typesErrors) ->
  (resolveErrors resolve callStack root errorsMap typesErrors limit).2 = limit /\
  Forall (fun kv => Forall (wellFramed kv.1) kv.2)
         (resolveErrors resolve callStack root errorsMap typesErrors limit).1 /\
  NoDup (map fst (resolveErrors resolve callStack root errorsMap typesErrors limit).1).
Proof.
  induction errorsMap as [|[path errors] errorsMap IH]; intros typesErrors limit Hall Hnd;
    simpl; [done|].
  destruct (wrapErrors_spec (resolve root path) errors limit) as (Hl & _ & Hf).
  destruct (wrapErrors callStack (resolve root path) errors limit) as [suiteErrors l1].
  simpl in *. subst. apply IH; [by apply Map_set_Forall|by apply Map_set_NoDup].
Qed.

Lemma parseTscLikeOutput_spec (output : string) (st : State) :
  (parseTscLikeOutput getRawErrsMapFromTsCompile resolve callStack root output st).2 = st /\
  Forall (fun kv => Forall (wellFramed kv.1) kv.2)
    (parseTscLikeOutput getRawErrsMapFromTsCompile resolve callStack root output st).1 /\
  NoDup (map fst
    (parseTscLikeOutput getRawErrsMapFromTsCompile resolve callStack root output st).1).
Proof.
  unfold parseTscLikeOutput.
  destruct (resolveErrors_spec (getRawErrsMapFromTsCompile output) [] (stackTraceLimit st))
    as (Hl & Hf & Hnd); [constructor|constructor|].
  destruct (resolveErrors _ _ _ _ _ _) as [typesErrors limit]. simpl in *. subst.
  split; [by destruct st|done].
Qed.

(** C10: building a [TypeCheckError] leaves [Error.stackTraceLimit] as it
    found it, after every single diagnostic and so after the whole of
    [parseTscLikeOutput], which leaves the state as it was; and every
    synthesized error carries exactly one stack frame, built from the
    diagnostic's resolved file, line and column (and captures no frame of
    the call stack). *)
Theorem parseTscLikeOutput_stackTraceLimit (output : string) (st : State) :
  (forall filepath info limit,
     (wrapError callStack filepath info limit).2 = limit /\
     wellFramed filepath (wrapError callStack filepath info limit).1) /\
  (parseTscLikeOutput getRawErrsMapFromTsCompile resolve callStack root output st).2 = st /\
  Forall (fun kv => Forall (wellFramed kv.1) kv.2)
    (parseTscLikeOutput getRawErrsMapFromTsCompile resolve callStack root output st).1.
Proof.
  split; [intros; by repeat split|].
  destruct (parseTscLikeOutput_spec output st) as (? & ? & _). done.
Qed.

End ParseFacts.

(** * Properties of [Map] and [Set] *)

Lemma Set_add_elem s x y : y ∈ Set_add s x <-> y ∈ s \/ y = x.
Proof. unfold Set_add. case_bool_decide; set_solver. Qed.

Lemma Set_add_NoDup s x : NoDup s -> NoDup (Set_add s x).
Proof.
  unfold Set_add. case_bool_decide; [done|]. intros Hs.
  apply NoDup_app. repeat split; [done| |apply NoDup_singleton]. set_solver.
Qed.

Lemma newSet_fold l : forall s,
  NoDup s -> NoDup (foldl Set_add s l) /\ forall y, y ∈ foldl Set_add s l <-> y ∈ s \/ y ∈ l.
Proof.
  induction l as [|x l IH]; intros s Hs; simpl; [set_solver|].
  destruct (IH (Set_add s x)) as [Hn He]; [by apply Set_add_NoDup|].
  split; [done|]. intros y. rewrite He, Set_add_elem. set_solver.
Qed.

Lemma newSet_NoDup l : NoDup (newSet l).
Proof. apply newSet_fold. constructor. Qed.

Lemma newSet_elem l y : y ∈ newSet l <-> y ∈ l.
Proof. unfold newSet. destruct (newSet_fold l []) as [_ ->]; [constructor|]. set_solver. Qed.

Lemma Map_get_None {V} (m : list (string * V)) k : k ∉ map fst m -> Map_get m k = None.
Proof.
  induction m as [|[k' v'] m IH]; simpl; [done|].
  intros Hk. case_decide; [set_solver|]. apply IH. set_solver.
Qed.

(** Summing over a duplicate-free list of keys a function that differs from
    [g] at one key only. *)
Lemma sum_list_single (keys : list string) (k : string) (a : nat) (g : string -> nat) :
  NoDup keys -> g k = 0%nat ->
  sum_list (map (fun p => if decide (k = p) then a else g p) keys) =
  ((if bool_decide (k ∈ keys) then a else 0) + sum_list (map g keys))%nat.
Proof.
  intros Hn Hg. induction Hn as [|p keys Hp Hn IH]; simpl; [done|].
  rewrite IH. destruct (decide (k = p)) as [<-|Hkp].
  - rewrite (bool_decide_eq_true_2 (k ∈ k :: keys)) by (apply elem_of_cons; auto).
    rewrite (bool_decide_eq_false_2 (k ∈ keys)) by done. lia.
  - destruct (bool_decide (k ∈ keys)) eqn:HS.
    + apply bool_decide_eq_true in HS.
      rewrite (bool_decide_eq_true_2 (k ∈ p :: keys)) by (apply elem_of_cons; auto). lia.
    + apply bool_decide_eq_false in HS.
      rewrite (bool_decide_eq_false_2 (k ∈ p :: keys))
        by (rewrite elem_of_cons; intros [?|?]; done). lia.
Qed.

(** Visiting the requested files and reading each one's entry meets every
    diagnostic of a requested file exactly once. *)
Lemma underTest_count (files : list string) (typeErrors : list (string * list SuiteError)) :
  NoDup (map fst typeErrors) ->
  sum_list (map (fun p => length (errorsOf typeErrors p)) (newSet files)) =
  length (underTest files typeErrors).
Proof.
  unfold underTest, requested, Set_has.
  induction typeErrors as [|[k v] m IH]; simpl; intros Hn.
  - induction (newSet files); simpl; [done|]. done.
  - apply NoDup_cons in Hn as [Hk Hn]. rewrite length_app, <- IH by done.
    transitivity ((if bool_decide (k ∈ newSet files) then length v else 0) +
                  sum_list (map (fun p => length (errorsOf m p)) (newSet files)))%nat;
      [|by destruct (bool_decide _)].
    rewrite <- (sum_list_single (newSet files) k (length v)
                  (fun p => length (errorsOf m p))).
    + f_equal. apply map_ext. intros p. unfold errorsOf. simpl. by case_decide.
    + apply newSet_NoDup.
    + unfold errorsOf. by rewrite Map_get_None.
Qed.

(** * Attachments made by the result builder *)

Lemma concat_insert_snoc (ls : list (list nat)) : forall i l x,
  ls !! i = Some l -> concat (<[i := l ++ [x]]> ls) ≡ₚ concat ls ++ [x].
Proof.
  induction ls as [|l0 ls IH]; intros i l x Hi; [done|].
  destruct i as [|i]; simpl in *.
  - simplify_eq. rewrite <- !app_assoc. apply Permutation_app_head, Permutation_app_comm.
  - rewrite (IH _ _ _ Hi). by rewrite app_assoc.
Qed.

Lemma attachError_tasks fuel path file defs mc im idx e h h' :
  attachError fuel path file defs mc im idx e h = Ok h' ->
  exists pos s,
    lookupPosition mc (se_originalError e) path = Ok pos /\
    h !! owner defs im file pos = Some s /\
    map task_tasks h' =
      <[owner defs im file pos := task_tasks s ++ [length h]]> (map task_tasks h) ++ [[]].
Proof.
  intros H. destruct (attachError_step _ _ _ _ _ _ _ _ _ _ H)
    as (pos & s & fresh & Hpos & Hs & Hlen & Hfresh & _ & Hnil & Hold).
  exists pos, s. split; [done|]. split; [done|].
  set (suite := owner defs im file pos) in *.
  apply list_eq. intros i. rewrite list_lookup_fmap.
  destruct (decide (i < length h)%nat) as [Hlt|Hge].
  - destruct (lookup_lt_is_Some_2 h i Hlt) as [t Ht].
    destruct (Hold _ _ Ht) as (t' & Ht' & _ & Htasks). rewrite Ht'. simpl.
    rewrite lookup_app_l by (by rewrite length_insert, length_map).
    destruct (decide (i = suite)) as [->|Hne].
    + rewrite list_lookup_insert_eq by (by rewrite length_map).
      rewrite Htasks. by assert (t = s) as -> by congruence.
    + rewrite list_lookup_insert_ne by done. rewrite list_lookup_fmap, Ht. simpl.
      by rewrite Htasks, app_nil_r.
  - rewrite lookup_app_r by (rewrite length_insert, length_map; lia).
    rewrite length_insert, length_map.
    destruct (decide (i = length h)) as [->|Hne].
    + rewrite Hfresh, Nat.sub_diag. simpl. by rewrite Hnil.
    + rewrite (lookup_ge_None_2 h') by lia.
      destruct (i - length h)%nat as [|j] eqn:Hj; [lia|]. done.
Qed.

Lemma attachError_attachments fuel path file defs mc im idx e h h' :
  attachError fuel path file defs mc im idx e h = Ok h' ->
  length h' = S (length h) /\ attachments h' ≡ₚ attachments h ++ [length h].
Proof.
  intros H. split.
  { by eapply attachError_length. }
  destruct (attachError_tasks _ _ _ _ _ _ _ _ _ _ H) as (pos & s & _ & Hs & Hmap).
  unfold attachments. rewrite Hmap, concat_app. simpl. rewrite app_nil_r.
  apply concat_insert_snoc. by rewrite list_lookup_fmap, Hs.
Qed.

Lemma forEachError_attachments fuel path file defs mc im : forall errors idx h h',
  forEachError (attachError fuel path file defs mc im) idx errors h = Ok h' ->
  length h' = (length h + length errors)%nat /\
  attachments h' ≡ₚ attachments h ++ seq (length h) (length errors).
Proof.
  induction errors as [|e errors IH]; intros idx h h' H; simpl in *.
  - simplify_eq. by rewrite Nat.add_0_r, app_nil_r.
  - apply bind_Ok in H as (h1 & H1 & H).
    apply attachError_attachments in H1 as [Hlen Hperm].
    apply IH in H as [Hlen' Hperm'].
    split; [lia|]. rewrite Hperm', Hperm, Hlen, <- app_assoc. done.
Qed.

(** The synthetic tasks of one file are typecheck tasks, and stay so. *)
Lemma forEachError_typecheck fuel path file defs mc im errors h h' :
  forEachError (attachError fuel path file defs mc im) 0 errors h = Ok h' ->
  forall r, (length h <= r < length h')%nat ->
    exists t, h' !! r = Some t /\ task_type t = TypecheckT.
Proof.
  intros H r Hr.
  destruct (forEachError_attachments _ _ _ _ _ _ _ _ _ _ H) as [Hlen _].
  destruct (lookup_lt_is_Some_2 errors (r - length h)) as [e He]; [lia|].
  destruct (forEachError_labels _ _ _ _ _ _ _ _ _ _ H _ _ He) as (t & Ht & Hty & _).
  replace (length h + (r - length h))%nat with r in Ht by lia. eauto.
Qed.

Section PipelineFacts.

Variable getRawErrsMapFromTsCompile : string -> list (string * list TscErrorInfo).
Variable resolve : string -> string -> string.
Variable createIndexMap : string -> gmap string Z.
Variable collectFileTests : string -> list Task -> option FileInformation * list Task.
Variable callStack : list string.
Variable root : string.
Variable files : list string.

(** What one requested file contributes. *)
Lemma attachFile_inv fuel typeErrors path tests h out tests' h' out' :
  attachFile createIndexMap fuel typeErrors path (tests, h, out) = Ok (tests', h', out') ->
  exists info,
    tests !! path = Some info /\
    out' = out ++ [fi_file info] /\
    length h' = (length h + length (errorsOf typeErrors path))%nat /\
    attachments h' ≡ₚ attachments h ++ seq (length h) (length (errorsOf typeErrors path)) /\
    (forall p, fi_file <$> tests' !! p = fi_file <$> tests !! p) /\
    (forall r t, h !! r = Some t -> exists t', h' !! r = Some t' /\ keepsIdentity t t') /\
    (forall r, (length h <= r < length h')%nat ->
       exists t, h' !! r = Some t /\ task_type t = TypecheckT).
Proof.
  unfold attachFile, errorsOf. intros H.
  destruct (tests !! path) as [info|] eqn:Hinfo; [|done].
  exists info. split; [done|].
  destruct (Map_get typeErrors path) as [errors|]; simpl in *.
  - apply bind_Ok in H as (h1 & H1 & H). simplify_eq.
    destruct (forEachError_attachments _ _ _ _ _ _ _ _ _ _ H1) as [Hlen Hperm].
    split; [done|]. split; [done|]. split; [done|]. split; [|split].
    + intros p. destruct (decide (path = p)) as [<-|Hne].
      * by rewrite lookup_insert_eq, Hinfo.
      * by rewrite lookup_insert_ne.
    + by eapply forEachError_keeps.
    + intros r Hr. by eapply forEachError_typecheck.
  - simplify_eq. split; [done|]. split; [simpl; lia|].
    split; [simpl; by rewrite app_nil_r|]. split; [done|].
    split; [eauto using keepsIdentity_refl|]. intros r Hr. lia.
Qed.

Lemma forEachTestFile_inv fuel typeErrors : forall testFiles tests h out tests' h' out',
  forEachTestFile createIndexMap fuel typeErrors testFiles (tests, h, out)
    = Ok (tests', h', out') ->
  let n := sum_list (map (fun p => length (errorsOf typeErrors p)) testFiles) in
  exists fs,
    Forall2 (fun p f => fi_file <$> tests !! p = Some f) testFiles fs /\
    out' = out ++ fs /\
    length h' = (length h + n)%nat /\
    attachments h' ≡ₚ attachments h ++ seq (length h) n /\
    (forall p, fi_file <$> tests' !! p = fi_file <$> tests !! p) /\
    (forall r t, h !! r = Some t -> exists t', h' !! r = Some t' /\ keepsIdentity t t') /\
    (forall r, (length h <= r < length h')%nat ->
       exists t, h' !! r = Some t /\ task_type t = TypecheckT).
Proof.
  induction testFiles as [|path testFiles IH]; intros tests h out tests' h' out' H; simpl in *.
  - simplify_eq. exists []. split; [constructor|]. split; [by rewrite app_nil_r|].
    split; [lia|]. split; [by rewrite app_nil_r|]. split; [done|].
    split; [eauto using keepsIdentity_refl|]. intros r Hr. lia.
  - apply bind_Ok in H as ([[tests1 h1] out1] & H1 & H).
    apply attachFile_inv in H1
      as (info & Hinfo & -> & Hlen1 & Hperm1 & Htests1 & Hkeep1 & Hty1).
    apply IH in H as (fs & Hfs & -> & Hlen & Hperm & Htests & Hkeep & Hty).
    exists (fi_file info :: fs). split; [|split; [|split; [|split; [|split; [|split]]]]].
    + constructor; [by rewrite Hinfo|].
      eapply Forall2_impl; [done|]. intros p f Hp. simpl in Hp. by rewrite <- Htests1.
    + by rewrite <- app_assoc.
    + lia.
    + rewrite Hperm, Hperm1, Hlen1, <- app_assoc. by rewrite <- seq_app.
    + intros p. by rewrite Htests, Htests1.
    + intros r t Ht. destruct (Hkeep1 _ _ Ht) as (t1 & Ht1 & Hid1).
      destruct (Hkeep _ _ Ht1) as (t' & Ht' & Hid'). eauto using keepsIdentity_trans.
    + intros r Hr. destruct (decide (r < length h1)%nat) as [Hlt|Hge].
      * destruct (Hty1 r) as (t1 & Ht1 & Hty1'); [lia|].
        destruct (Hkeep _ _ Ht1) as (t' & Ht' & Hid'). exists t'. split; [done|].
        destruct Hid' as [-> _]. done.
      * apply Hty. lia.
Qed.

Lemma collectSourceErrors_spec testFiles : forall typeErrors acc,
  collectSourceErrors testFiles typeErrors acc =
  acc ++ map se_error
           (concat (map (fun kv => if Set_has testFiles kv.1 then [] else kv.2) typeErrors)).
Proof.
  induction typeErrors as [|[path errors] typeErrors IH]; intros acc; simpl.
  - by rewrite app_nil_r.
  - rewrite IH. destruct (Set_has testFiles path); simpl; [done|].
    by rewrite map_app, app_assoc.
Qed.

Lemma prepareResults_inv fuel output st r st' :
  prepareResults getRawErrsMapFromTsCompile resolve createIndexMap collectFileTests
    callStack root files fuel output st = Ok (r, st') ->
  let typeErrors :=
    (parseTscLikeOutput getRawErrsMapFromTsCompile resolve callStack root output st).1 in
  exists tests tests' out,
    _tests (collected collectFileTests files st) = Some tests /\
    forEachTestFile createIndexMap fuel typeErrors (newSet files)
      (tests, heap (collected collectFileTests files st), []) = Ok (tests', heap st', out) /\
    r = length (caches st) /\
    caches st' = caches st ++
      [mkErrorsCache out (map se_error (notUnderTest files typeErrors))] /\
    _tests st' = Some tests' /\
    _result st' = _result st /\
    stackTraceLimit st' = stackTraceLimit st.
Proof.
  unfold prepareResults, collected. intros H.
  destruct (parseTscLikeOutput_spec getRawErrsMapFromTsCompile resolve callStack root
              output st) as (Hst & _ & _).
  destruct (parseTscLikeOutput _ _ _ _ output st) as [typeErrors st1]. simpl in *. subst st1.
  destruct (_tests st) as [tests|] eqn:Htests.
  - apply bind_Ok in H as ([[tests1 h] out] & Hloop & H). simplify_eq.
    exists tests, tests1, out. simpl.
    rewrite collectSourceErrors_spec. by destruct st.
  - unfold collectTests in *.
    destruct (collectAll collectFileTests files (heap st)) as [datas h0].
    apply bind_Ok in H as ([[tests1 h] out] & Hloop & H). simplify_eq.
    eexists _, tests1, out. simpl in *.
    rewrite collectSourceErrors_spec. by destruct st.
Qed.

End PipelineFacts.

(** A snapshot comes out only if every requested file has an entry in
    [_tests]; its [files] then holds the file object of each distinct
    requested file, in the order of first request. *)
Lemma prepareResults_files getRawErrsMapFromTsCompile resolve createIndexMap
    collectFileTests callStack root files fuel output st r st' :
  prepareResults getRawErrsMapFromTsCompile resolve createIndexMap collectFileTests
    callStack root files fuel output st = Ok (r, st') ->
  exists tests ec,
    _tests (collected collectFileTests files st) = Some tests /\
    caches st' !! r = Some ec /\
    Forall2 (fun p f => fi_file <$> tests !! p = Some f) (newSet files) (ec_files ec).
Proof.
  intros H. apply prepareResults_inv in H
    as (tests & tests' & out & Htests & Hloop & -> & Hcaches & _).
  apply forEachTestFile_inv in Hloop as (fs & Hfs & -> & _).
  exists tests. eexists. split; [done|]. split.
  - rewrite Hcaches, lookup_app_r, Nat.sub_diag; done.
  - done.
Qed.

(** A requested file without an entry in [_tests] leaves [prepareResults]
    without a snapshot, whatever the output and the budget. *)
Lemma prepareResults_uncollected getRawErrsMapFromTsCompile resolve createIndexMap
    collectFileTests callStack root files fuel output st tests p :
  _tests (collected collectFileTests files st) = Some tests ->
  p ∈ files -> tests !! p = None ->
  forall r st',
    prepareResults getRawErrsMapFromTsCompile resolve createIndexMap collectFileTests
      callStack root files fuel output st <> Ok (r, st').
Proof.
  intros Htests Hp Hnone r st' H.
  apply prepareResults_files in H as (tests' & ec & Htests' & _ & Hall).
  assert (tests' = tests) as -> by congruence.
  apply newSet_elem, list_elem_of_lookup in Hp as [i Hi].
  destruct (Forall2_lookup_l _ _ _ _ _ Hall Hi) as (f & _ & Hf).
  by rewrite Hnone in Hf.
Qed.

(** C3, at the failing input: two files are requested and definition
    collection yields null for the second one.  [collectTests] skips the
    null, the loop of [prepareResults] then destructures a missing entry,
    and no snapshot is produced at all. *)
Theorem prepareResults_uncollected_file_throws :
  let files := [Sample.path; "/r/empty.test-d.ts"] in
  let st := set_tests (newTypechecker [] 10) None in
  (collectAll Sample.collectFileTests files (heap st)).1 !! 1%nat = Some None /\
  forall fuel,
    prepareResults Sample.getRawErrsMapFromTsCompile Sample.resolve Sample.createIndexMap
      Sample.collectFileTests Sample.callStack Sample.root files fuel "" st
    = Throw (JsTypeError "Cannot destructure property 'file' of undefined").
Proof.
  split; [vm_compute; reflexivity|]. intros fuel. vm_compute. reflexivity.
Qed.

(** * The result builder returns *)

Lemma chain_keeps h h' :
  (forall r t, h !! r = Some t -> exists t', h' !! r = Some t' /\ keepsIdentity t t') ->
  forall o n, chain h o n -> chain h' o n.
Proof.
  intros Hkeep o n. induction 1 as [r t Ht Hs | r t s n Ht Hs _ IH].
  - destruct (Hkeep _ _ Ht) as (t' & Ht' & Hid).
    eapply chain_top; [done|]. destruct Hid as (_&_&_&_&_&->). done.
  - destruct (Hkeep _ _ Ht) as (t' & Ht' & Hid).
    eapply chain_up; [done| |done]. destruct Hid as (_&_&_&_&_&->). done.
Qed.

Lemma chain_lookup h o n : chain h o n -> is_Some (h !! o).
Proof. by destruct 1; eexists. Qed.

Lemma ownersBounded_keeps h h' fuel file defs :
  (forall r t, h !! r = Some t -> exists t', h' !! r = Some t' /\ keepsIdentity t t') ->
  ownersBounded h fuel file defs -> ownersBounded h' fuel file defs.
Proof.
  intros Hkeep Hb o Ho. destruct (Hb o Ho) as (n & Hc & Hn).
  exists n. split; [by eapply chain_keeps|done].
Qed.

(** The owner is the file or the task of one of the definitions. *)
Lemma owner_elem defs im file pos : owner defs im file pos ∈ file :: map def_task defs.
Proof.
  unfold owner, findDefinition. destruct (im !! indexKey pos) as [i|]; [|by left].
  destruct (find _ defs) as [d|] eqn:Hfind; [|by left].
  apply find_some in Hfind as [Hin _]. apply elem_of_cons. right.
  apply list_elem_of_fmap. exists d. split; [done|by apply list_elem_of_In].
Qed.

Lemma forEachError_returns fuel path file defs mc im : forall errors idx h,
  lookupsReturn mc path errors ->
  ownersBounded h fuel file defs ->
  exists h', forEachError (attachError fuel path file defs mc im) idx errors h = Ok h'.
Proof.
  induction errors as [|e errors IH]; intros idx h Hl Hb; simpl; [by eexists|].
  apply Forall_cons in Hl as [[pos Hpos] Hl].
  destruct (Hb _ (owner_elem defs im file pos)) as (n & Hc & Hn).
  destruct (chain_lookup _ _ _ Hc) as [s Hs].
  destruct (attachError_returns fuel path file defs mc im idx e h pos s n Hpos Hs Hc Hn)
    as (h1 & H1 & _).
  rewrite H1. simpl. apply IH; [done|].
  eapply ownersBounded_keeps; [|done]. intros r t Ht.
  destruct (attachError_step _ _ _ _ _ _ _ _ _ _ H1)
    as (pos' & s' & fresh & _ & _ & _ & _ & _ & _ & Hold).
  destruct (Hold _ _ Ht) as (t' & Ht' & Hid & _). eauto.
Qed.

Section ReturnFacts.

Variable getRawErrsMapFromTsCompile : string -> list (string * list TscErrorInfo).
Variable resolve : string -> string -> string.
Variable createIndexMap : string -> gmap string Z.
Variable collectFileTests : string -> list Task -> option FileInformation * list Task.
Variable callStack : list string.
Variable root : string.
Variable files : list string.

Lemma ownersBounded_sorted h fuel file defs :
  ownersBounded h fuel file defs -> ownersBounded h fuel file (sortDefinitions defs).
Proof.
  intros Hb o Ho. apply Hb. by rewrite <- (sortDefinitions_perm defs).
Qed.

Lemma forEachTestFile_returns fuel typeErrors : forall testFiles tests h out,
  NoDup testFiles ->
  collectedFiles tests h fuel typeErrors testFiles ->
  exists acc, forEachTestFile createIndexMap fuel typeErrors testFiles (tests, h, out) = Ok acc.
Proof.
  induction testFiles as [|path testFiles IH]; intros tests h out Hnd Hc;
    cbn [forEachTestFile]; [by eexists|].
  apply NoDup_cons in Hnd as [Hpath Hnd].
  destruct (Hc path) as (info & Hinfo & Hb & Hl); [by left|].
  assert (H1 : exists acc1,
            attachFile createIndexMap fuel typeErrors path (tests, h, out) = Ok acc1).
  { unfold attachFile, errorsOf in *. rewrite Hinfo.
    destruct (Map_get typeErrors path) as [errors|]; simpl in *; [|by eexists].
    destruct (forEachError_returns fuel path (fi_file info)
                (sortDefinitions (fi_definitions info)) (fi_map info)
                (createIndexMap (fi_parsed info)) errors 0%nat h Hl
                (ownersBounded_sorted _ _ _ _ Hb)) as [h1 ->].
    simpl. by eexists. }
  destruct H1 as [[[tests1 h1] out1] H1]. rewrite H1. cbn [bind].
  pose proof H1 as H1'.
  apply attachFile_inv in H1' as (info' & Hinfo' & _ & _ & _ & Htests & Hkeep & _).
  apply IH; [done|]. intros p Hp.
  destruct (Hc p) as (infop & Hinfop & Hbp & Hlp); [by right|].
  assert (Hne : path <> p) by (intros ->; done).
  unfold attachFile in H1. rewrite Hinfo in H1.
  assert (Hp1 : tests1 !! p = Some infop).
  { destruct (Map_get typeErrors path) as [errors|]; simpl in H1.
    - apply bind_Ok in H1 as (h2 & _ & H1). simplify_eq. by rewrite lookup_insert_ne.
    - by simplify_eq. }
  exists infop. split; [done|]. split; [|done].
  by eapply ownersBounded_keeps.
Qed.

(** With every requested file collected and well formed, and a budget that
    covers the deepest chain of ancestors, [prepareResults] returns a
    snapshot. *)
Lemma prepareResults_returns fuel output st tests :
  _tests (collected collectFileTests files st) = Some tests ->
  collectedFiles tests (heap (collected collectFileTests files st)) fuel
    (parseTscLikeOutput getRawErrsMapFromTsCompile resolve callStack root output st).1
    (newSet files) ->
  exists r st',
    prepareResults getRawErrsMapFromTsCompile resolve createIndexMap collectFileTests
      callStack root files fuel output st = Ok (r, st').
Proof.
  unfold prepareResults, collected. intros Htests Hc.
  destruct (parseTscLikeOutput_spec getRawErrsMapFromTsCompile resolve callStack root
              output st) as (Hst & _ & _).
  destruct (parseTscLikeOutput _ _ _ _ output st) as [typeErrors st1]. simpl in *. subst st1.
  destruct (_tests st) as [tests0|] eqn:Ht0.
  - assert (tests0 = tests) as -> by congruence.
    destruct (forEachTestFile_returns fuel typeErrors (newSet files) tests (heap st) []
                (newSet_NoDup files) Hc) as [[[tests1 h1] out1] ->].
    simpl. by eexists _, _.
  - destruct (collectTests collectFileTests files st) as [tests0 st2] eqn:Hct. simpl in *.
    assert (tests0 = tests) as ->.
    { unfold collectTests in Hct.
      destruct (collectAll collectFileTests files (heap st)) as [datas h0].
      simplify_eq. simpl in Htests. by simplify_eq. }
    destruct (forEachTestFile_returns fuel typeErrors (newSet files) tests (heap st2) []
                (newSet_NoDup files) Hc) as [[[tests1 h1] out1] ->].
    simpl. by eexists _, _.
Qed.

End ReturnFacts.

(** * Synthetic tasks stay as built *)

Lemma syntheticTask_mode file suite s s' idx e :
  task_mode s' = task_mode s ->
  syntheticTask file suite s' idx e = syntheticTask file suite s idx e.
Proof. unfold syntheticTask. by intros ->. Qed.

(** One step on a store whose possible owners all lie in [base]: the
    objects allocated after [base] are left alone, and the synthetic task
    is appended as built. *)
Lemma attachError_app fuel path file defs mc im idx e base ext pos s n :
  lookupPosition mc (se_originalError e) path = Ok pos ->
  base !! owner defs im file pos = Some s ->
  chain base (owner defs im file pos) n -> (n <= fuel)%nat ->
  exists base1 s1,
    attachError fuel path file defs mc im idx e (base ++ ext) =
      Ok (base1 ++ ext ++ [syntheticTask file (owner defs im file pos) s idx e]) /\
    length base1 = length base /\
    (forall r t, base !! r = Some t ->
       exists t', base1 !! r = Some t' /\ keepsIdentity t t' /\
                  task_tasks t `prefix_of` task_tasks t') /\
    base1 !! owner defs im file pos = Some s1 /\
    length (base ++ ext) ∈ task_tasks s1.
Proof.
  intros Hpos Hs Hc Hle.
  pose proof (lookup_lt_Some _ _ _ Hs) as Hlt.
  rewrite (attachError_unfold fuel path file defs mc im idx e (base ++ ext) pos s Hpos)
    by (by rewrite lookup_app_l).
  set (suite := owner defs im file pos) in *.
  set (task := syntheticTask file suite s idx e) in *.
  assert (Hb2 : exists base2, onlyResults base base2 /\
            match failOrMode (task_mode s) with
            | Fail => markFailed fuel suite ((base ++ ext) ++ [task])
            | _ => Ok ((base ++ ext) ++ [task])
            end = Ok (base2 ++ ext ++ [task])).
  { destruct (failOrMode (task_mode s)) eqn:Hst.
    - exists base. split; [apply onlyResults_refl|by rewrite <- app_assoc].
    - exists base. split; [apply onlyResults_refl|by rewrite <- app_assoc].
    - destruct (markFailed_returns _ _ _ Hc fuel Hle) as [base2 Hm].
      exists base2. split; [by eapply markFailed_onlyResults|].
      rewrite <- app_assoc. by apply markFailed_app. }
  destruct Hb2 as (base2 & [Hlen Hres] & ->). simpl.
  destruct (Hres _ _ Hs) as (s2 & Hs2 & Hid2 & Htasks2).
  unfold deref. rewrite lookup_app_l by lia. rewrite Hs2. simpl.
  rewrite insert_app_l by lia.
  exists (<[suite := push_task s2 (length (base ++ ext))]> base2),
         (push_task s2 (length (base ++ ext))).
  split; [done|]. split; [by rewrite length_insert|]. split; [|split].
  - intros r t Ht. destruct (Hres _ _ Ht) as (t' & Ht' & Hid' & Htasks').
    destruct (decide (r = suite)) as [->|Hne].
    + assert (t' = s2) as -> by congruence.
      exists (push_task s2 (length (base ++ ext))).
      rewrite list_lookup_insert_eq by lia.
      split; [done|]. split; [by apply keepsIdentity_push|].
      simpl. rewrite Htasks'. by apply prefix_app_r.
    + exists t'. rewrite list_lookup_insert_ne by done.
      split; [done|]. split; [done|]. by rewrite Htasks'.
  - by rewrite list_lookup_insert_eq by lia.
  - simpl. apply elem_of_app. right. apply elem_of_cons. by left.
Qed.

Lemma forEachError_app fuel path file defs mc im : forall errors idx base ext,
  lookupsReturn mc path errors ->
  ownersBounded base fuel file defs ->
  exists base' synth,
    forEachError (attachError fuel path file defs mc im) idx errors (base ++ ext)
      = Ok (base' ++ ext ++ synth) /\
    length base' = length base /\
    length synth = length errors /\
    (forall r t, base !! r = Some t ->
       exists t', base' !! r = Some t' /\ keepsIdentity t t' /\
                  task_tasks t `prefix_of` task_tasks t') /\
    forall k e, errors !! k = Some e ->
      exists pos s s',
        lookupPosition mc (se_originalError e) path = Ok pos /\
        base !! owner defs im file pos = Some s /\
        synth !! k = Some (syntheticTask file (owner defs im file pos) s (idx + k) e) /\
        base' !! owner defs im file pos = Some s' /\
        (length base + length ext + k)%nat ∈ task_tasks s'.
Proof.
  induction errors as [|e errors IH]; intros idx base ext Hl Hb.
  - exists base, []. simpl. rewrite app_nil_r. split; [done|]. split; [done|].
    split; [done|]. split; [|done].
    intros r t Ht. exists t. split; [done|]. split; [apply keepsIdentity_refl|done].
  - apply Forall_cons in Hl as [[pos Hpos] Hl].
    destruct (Hb _ (owner_elem defs im file pos)) as (n & Hc & Hn).
    destruct (chain_lookup _ _ _ Hc) as [s Hs].
    destruct (attachError_app fuel path file defs mc im idx e base ext pos s n
                Hpos Hs Hc Hn) as (base1 & s1 & H1 & Hlen1 & Hkeep1 & Hs1 & Hin1).
    assert (Hb1 : ownersBounded base1 fuel file defs).
    { eapply ownersBounded_keeps; [|done]. intros r t Ht.
      destruct (Hkeep1 _ _ Ht) as (t' & ? & ? & _). eauto. }
    destruct (IH (S idx) base1
                (ext ++ [syntheticTask file (owner defs im file pos) s idx e]) Hl Hb1)
      as (base' & synth & H & Hlen & Hlens & Hkeep & Hsynth).
    exists base', (syntheticTask file (owner defs im file pos) s idx e :: synth).
    cbn [forEachError]. rewrite H1. cbn [bind]. rewrite H.
    split; [by rewrite <- !app_assoc|]. split; [lia|]. split; [simpl; lia|]. split.
    + intros r t Ht. destruct (Hkeep1 _ _ Ht) as (t1 & Ht1 & Hid1 & Hpre1).
      destruct (Hkeep _ _ Ht1) as (t' & Ht' & Hid' & Hpre').
      exists t'. split; [done|]. split; [by eapply keepsIdentity_trans|].
      by etrans.
    + intros k e' Hk. destruct k as [|k]; simpl in Hk.
      * simplify_eq. destruct (Hkeep _ _ Hs1) as (s' & Hs' & _ & Hpre).
        exists pos, s, s'. rewrite Nat.add_0_r. split; [done|]. split; [done|].
        split; [done|]. split; [done|].
        rewrite length_app in Hin1. rewrite Nat.add_0_r.
        eapply elem_of_prefix; [exact Hin1|exact Hpre].
      * destruct (Hsynth _ _ Hk) as (pos' & s1' & s' & Hpos' & Hs1' & Hsy & Hs' & Hin).
        assert (Hs0 : exists s0, base !! owner defs im file pos' = Some s0 /\
                        task_mode s1' = task_mode s0).
        { destruct (Hb _ (owner_elem defs im file pos')) as (n' & Hc' & _).
          destruct (chain_lookup _ _ _ Hc') as [s0 Hs0].
          destruct (Hkeep1 _ _ Hs0) as (t' & Ht' & Hid & _).
          assert (t' = s1') as -> by congruence.
          exists s0. split; [done|]. by destruct Hid as (_&_&_&?&_). }
        destruct Hs0 as (s0 & Hs0 & Hmode).
        exists pos', s0, s'. split; [done|]. split; [done|]. split.
        { simpl. rewrite Hsy. f_equal.
          rewrite (syntheticTask_mode _ _ _ _ _ _ Hmode). f_equal. lia. }
        split; [done|].
        rewrite length_app, Hlen1 in Hin. simpl in Hin.
        replace (length base + length ext + S k)%nat
          with (length base + (length ext + 1) + k)%nat by lia. done.
Qed.

(** * Labels and classification *)

(** C8 (as amended): each synthetic task is labelled with the 1-based
    position of its diagnostic among the diagnostics of its file, whichever
    suite owns it: the task built for the diagnostic at index [k] of the
    file's errors is named "error expect k+1" and has id "k", and this
    labelling is a function of the file's error list alone.  The loop over
    the file's errors returns whenever the position lookups return and the
    possible owners have ancestor chains within the budget. *)
Theorem forEachError_ordinals (fuel : nat) (path : string) (file : ref)
    (defs : list LocalCallDefinition) (mc : option (list Mapping)) (im : gmap string Z)
    (errors : list SuiteError) (h : list Task) :
  (lookupsReturn mc path errors -> ownersBounded h fuel file defs ->
   exists h', forEachError (attachError fuel path file defs mc im) 0 errors h = Ok h') /\
  forall h', forEachError (attachError fuel path file defs mc im) 0 errors h = Ok h' ->
    length h' = (length h + length errors)%nat /\
    forall k e, errors !! k = Some e ->
      exists t, h' !! (length h + k)%nat = Some t /\
        task_type t = TypecheckT /\
        task_id t = pretty k /\
        task_name t = "error expect " +:+ pretty (k + 1)%nat.
Proof.
  split; [apply forEachError_returns|].
  intros h' H. split.
  - eapply forEachError_length; [|done]. intros i e h1 h2. apply attachError_length.
  - intros k e Hk. by apply (forEachError_labels _ _ _ _ _ _ _ _ _ _ H _ _ Hk).
Qed.

(** C7: for every diagnostic of a file, when the owning suite runs (mode
    'run' or 'only') the synthetic task has result state 'fail' and carries
    the diagnostic's error; when the owning suite has another mode (such as
    'skip' or 'todo') the synthetic task's mode and result state are that
    mode and its result carries no error.  This is how each task stands in
    the store when the loop over the file's errors is over: it is a
    typecheck task, its suite is the owner, and the owner's tasks hold it. *)
Theorem forEachError_states (fuel : nat) (path : string) (file : ref)
    (defs : list LocalCallDefinition) (mc : option (list Mapping)) (im : gmap string Z)
    (errors : list SuiteError) (h : list Task) :
  lookupsReturn mc path errors ->
  ownersBounded h fuel file defs ->
  exists h',
    forEachError (attachError fuel path file defs mc im) 0 errors h = Ok h' /\
    forall k e, errors !! k = Some e ->
      exists pos s s' task,
        lookupPosition mc (se_originalError e) path = Ok pos /\
        h !! owner defs im file pos = Some s /\
        h' !! (length h + k)%nat = Some task /\
        task_type task = TypecheckT /\
        task_suite task = Some (owner defs im file pos) /\
        h' !! owner defs im file pos = Some s' /\
        task_mode s' = task_mode s /\
        (length h + k)%nat ∈ task_tasks s' /\
        (task_mode s = Run \/ task_mode s = Only ->
           task_mode task = task_mode s /\
           task_result task = Some (mkTaskResult Fail (Some (se_error e)))) /\
        (task_mode s <> Run -> task_mode s <> Only ->
           task_mode task = task_mode s /\
           task_result task = Some (mkTaskResult (StateMode (task_mode s)) None)).
Proof.
  intros Hl Hb.
  destruct (forEachError_app fuel path file defs mc im errors 0%nat h [] Hl Hb)
    as (base' & synth & H & Hlen & _ & Hkeep & Hsynth).
  rewrite app_nil_r in H. simpl in H.
  exists (base' ++ synth). split; [done|].
  intros k e Hk.
  destruct (Hsynth _ _ Hk) as (pos & s & s' & Hpos & Hs & Hsy & Hs' & Hin).
  exists pos, s, s', (syntheticTask file (owner defs im file pos) s k e).
  pose proof (lookup_lt_Some _ _ _ Hs) as Hlt.
  split; [done|]. split; [done|]. split.
  { rewrite lookup_app_r by lia. by replace (length h + k - length base')%nat with k by lia. }
  split; [done|]. split; [done|]. split; [by rewrite lookup_app_l by lia|]. split.
  { destruct (Hkeep _ _ Hs) as (t' & Ht' & Hid & _).
    assert (t' = s') as -> by congruence. by destruct Hid as (_&_&_&?&_). }
  split; [by rewrite Nat.add_0_r in Hin|]. split.
  - simpl. intros [-> | ->]; done.
  - simpl. intros H1 H2. destruct (task_mode s); done.
Qed.

Section ClassifyFacts.

Variable getRawErrsMapFromTsCompile : string -> list (string * list TscErrorInfo).
Variable resolve : string -> string -> string.
Variable createIndexMap : string -> gmap string Z.
Variable collectFileTests : string -> list Task -> option FileInformation * list Task.
Variable callStack : list string.
Variable root : string.
Variable files : list string.

(** The diagnostics of the map that [parseTscLikeOutput] returns are split
    in two: those of a requested file each yield one new typecheck task,
    allocated in the store and appended exactly once to the tasks of one
    owner; the errors of all others, and only those, make up
    [sourceErrors].  The pipeline returns whenever every requested file has
    been collected and is well formed. *)
Lemma prepareResults_partition (fuel : nat) (output : string) (st : State) :
  let typeErrors :=
    (parseTscLikeOutput getRawErrsMapFromTsCompile resolve callStack root output st).1 in
  let h0 := heap (collected collectFileTests files st) in
  (forall tests,
     _tests (collected collectFileTests files st) = Some tests ->
     collectedFiles tests h0 fuel typeErrors (newSet files) ->
     exists r st',
       prepareResults getRawErrsMapFromTsCompile resolve createIndexMap collectFileTests
         callStack root files fuel output st = Ok (r, st')) /\
  forall r st',
    prepareResults getRawErrsMapFromTsCompile resolve createIndexMap collectFileTests
      callStack root files fuel output st = Ok (r, st') ->
    exists ec,
      caches st' !! r = Some ec /\
      ec_sourceErrors ec = map se_error (notUnderTest files typeErrors) /\
      length (heap st') = (length h0 + length (underTest files typeErrors))%nat /\
      attachments (heap st') ≡ₚ
        attachments h0 ++ seq (length h0) (length (underTest files typeErrors)) /\
      (forall x, (length h0 <= x)%nat /\ (x < length (heap st'))%nat ->
         exists t, heap st' !! x = Some t /\ task_type t = TypecheckT) /\
      length (concat (map snd typeErrors)) =
        (length (underTest files typeErrors) + length (ec_sourceErrors ec))%nat /\
      Forall (fun e => exists p, p ∈ files /\ wellFramed p e) (underTest files typeErrors) /\
      Forall (fun e => exists p, (p ∉ files) /\ wellFramed p e)
        (notUnderTest files typeErrors).
Proof.
  intros typeErrors h0. split.
  { intros tests Htests Hc. by eapply prepareResults_returns. }
  intros r st' H.
  destruct (parseTscLikeOutput_spec getRawErrsMapFromTsCompile resolve callStack root
              output st) as (_ & Hframed & Hnd).
  fold typeErrors in Hframed, Hnd.
  apply prepareResults_inv in H
    as (tests & tests' & out & _ & Hloop & -> & Hcaches & _ & _ & _).
  fold typeErrors in Hloop, Hcaches. fold h0 in Hloop.
  apply forEachTestFile_inv in Hloop as (fs & _ & _ & Hlen & Hperm & _ & _ & Hty).
  rewrite underTest_count in Hlen, Hperm by done.
  eexists. split.
  { rewrite Hcaches, lookup_app_r; [|done]. by rewrite Nat.sub_diag. }
  simpl.
  split; [done|]. split; [done|]. split; [done|]. split; [done|]. split; [|split].
  - rewrite length_map. unfold underTest, notUnderTest. clear.
    induction typeErrors as [|[k v] m IH]; simpl; [done|].
    rewrite !length_app, IH. destruct (requested files (k, v)); simpl; lia.
  - unfold underTest. clear -Hframed.
    induction Hframed as [|[k v] m Hkv Hm IH]; simpl; [constructor|].
    apply Forall_app. split; [|done].
    unfold requested, Set_has. simpl. case_bool_decide as Hk; [|constructor].
    rewrite newSet_elem in Hk. eapply Forall_impl; [exact Hkv|].
    intros e He. by exists k.
  - unfold notUnderTest. clear -Hframed.
    induction Hframed as [|[k v] m Hkv Hm IH]; simpl; [constructor|].
    apply Forall_app. split; [|done].
    unfold requested, Set_has. simpl. case_bool_decide as Hk; [constructor|].
    rewrite newSet_elem in Hk. eapply Forall_impl; [exact Hkv|].
    intros e He. by exists k.
Qed.

End ClassifyFacts.

(** * The statements on the sample project *)

Lemma markFailed_terminates_idempotent_witness :
  let h := [mkTask SuiteT "0" "a.test-d.ts" Run None None None [1%nat];
            mkTask SuiteT "1" "A" Only (Some 0%nat) (Some 0%nat) None []] in
  chain h 1%nat 2 /\
  exists h',
    (forall fuel, (2 <= fuel)%nat ->
       markFailed fuel 1%nat h = Ok h' /\ markFailed fuel 1%nat h' = Ok h') /\
    length h' = length h /\
    (forall r, h' !! r = h !! r \/ h' !! r = marked <$> (h !! r)) /\
    (forall t, h !! 1%nat = Some t ->
       h' !! 1%nat = Some (marked t) /\
       (task_mode t = Run \/ task_mode t = Only ->
        state <$> task_result (marked t) = Some Fail)) /\
    (forall r t, h !! r = Some t ->
       exists t', h' !! r = Some t' /\ task_tasks t' = task_tasks t).
Proof.
  intros h.
  assert (Hc : chain h 1%nat 2).
  { eapply chain_up; [reflexivity | reflexivity | eapply chain_top; reflexivity]. }
  split; [exact Hc|]. exact (markFailed_terminates_idempotent h 1%nat 2 Hc).
Defined.


Lemma forEachError_states_witness :
  let h := [mkTask SuiteT "0" "a.test-d.ts" Run None None None [1%nat; 2%nat];
            mkTask SuiteT "1" "A" Only (Some 0%nat) (Some 0%nat) None [];
            mkTask SuiteT "2" "B" Skip (Some 0%nat) (Some 0%nat) None []] in
  let defs := [mkDefinition 0 100 1%nat; mkDefinition 200 300 2%nat] in
  let im : gmap string Z := list_to_map [("1:1", 5); ("2:3", 250)] in
  let err := fun l c =>
    mkSuiteError (mkTscErrorInfo "a.test-d.ts" 2322 "msg" l c)
      (mkTypeCheckError "TypeCheckError" "msg"
         [mkParsedStack "/r/a.test-d.ts" l c "" (mkSourcePos l c)] []) in
  let errors := [err 2 3; err 1 1] in
  lookupsReturn None "/r/a.test-d.ts" errors /\
  ownersBounded h 2 0%nat defs /\
  exists h',
    forEachError (attachError 2 "/r/a.test-d.ts" 0%nat defs None im) 0 errors h = Ok h' /\
    forall k e, errors !! k = Some e ->
      exists pos s s' task,
        lookupPosition None (se_originalError e) "/r/a.test-d.ts" = Ok pos /\
        h !! owner defs im 0%nat pos = Some s /\
        h' !! (length h + k)%nat = Some task /\
        task_type task = TypecheckT /\
        task_suite task = Some (owner defs im 0%nat pos) /\
        h' !! owner defs im 0%nat pos = Some s' /\
        task_mode s' = task_mode s /\
        (length h + k)%nat ∈ task_tasks s' /\
        (task_mode s = Run \/ task_mode s = Only ->
           task_mode task = task_mode s /\
           task_result task = Some (mkTaskResult Fail (Some (se_error e)))) /\
        (task_mode s <> Run -> task_mode s <> Only ->
           task_mode task = task_mode s /\
           task_result task = Some (mkTaskResult (StateMode (task_mode s)) None)).
Proof.
  intros h defs im err errors.
  assert (Hl : lookupsReturn None "/r/a.test-d.ts" errors).
  { repeat constructor; eexists; reflexivity. }
  assert (Hb : ownersBounded h 2 0%nat defs).
  { intros o Ho. apply elem_of_cons in Ho as [-> | Ho].
    { exists 1%nat. split; [eapply chain_top; reflexivity | lia]. }
    apply elem_of_cons in Ho as [-> | Ho].
    { exists 2%nat. split; [|lia].
      eapply chain_up; [reflexivity | reflexivity | eapply chain_top; reflexivity]. }
    apply elem_of_cons in Ho as [-> | Ho]; [|by apply elem_of_nil in Ho].
    exists 2%nat. split; [|lia].
    eapply chain_up; [reflexivity | reflexivity | eapply chain_top; reflexivity]. }
  split; [exact Hl|]. split; [exact Hb|].
  exact (forEachError_states 2 "/r/a.test-d.ts" 0%nat defs None im errors h Hl Hb).
Defined.

(** C1, counterexample: with the sample source map and a diagnostic
    reported at 3:1, the position used for the lookup is 7:0.  It is not
    the generated-to-original translation of 3:1, which is 1:0, and it lies
    after the reported position. *)
Lemma lookupPosition_not_generated_to_original :
  let e := mkTscErrorInfo "a.test-d.ts" 2322 "msg" 3 1 in
  lookupPosition (Some Sample.sourceMap) e Sample.path
    = Ok (mkPosition (Some 7) (Some 0)) /\
  originalPositionFor Sample.sourceMap (info_line e) (info_column e)
    = mkPosition (Some 1) (Some 0) /\
  pos_ltb (info_line e) (info_column e) 7 0 = true.
Proof. vm_compute. repeat split. Qed.

Lemma lookupPosition_original_to_generated_witness :
  let e := mkTscErrorInfo "a.test-d.ts" 2322 "msg" 3 1 in
  1 <= info_line e /\ 0 <= info_column e /\
  ((exists m,
      m ∈ Sample.sourceMap /\ source m = Sample.path /\ atOrBefore m e /\
      lookupPosition (Some Sample.sourceMap) e Sample.path =
        Ok (mkPosition (Some (generatedLine m)) (Some (generatedColumn m))) /\
      forall m', m' ∈ Sample.sourceMap -> source m' = Sample.path -> atOrBefore m' e ->
        origLe m' m)
   \/ ((forall m, m ∈ Sample.sourceMap -> source m = Sample.path -> ~ atOrBefore m e) /\
       lookupPosition (Some Sample.sourceMap) e Sample.path = Ok nullPosition)).
Proof.
  intros e.
  assert (Hl : 1 <= info_line e) by (simpl; lia).
  assert (Hc : 0 <= info_column e) by (simpl; lia).
  split; [exact Hl|]. split; [exact Hc|].
  exact (lookupPosition_original_to_generated Sample.sourceMap e Sample.path Hl Hc).
Defined.

(** C8, counterexample: in the sample project the first diagnostic of the
    file lies in suite B and the second in suite A.  The first (and only)
    synthetic task attached to suite A carries ordinal 2, not 1. *)
Lemma ordinal_not_per_suite :
  exists r st' suiteA task,
    Sample.prepare 3 "a.test-d.ts(2,3): error TS2322" Sample.state0 = Ok (r, st') /\
    heap st' !! 1%nat = Some suiteA /\
    task_name suiteA = "A" /\
    task_tasks suiteA = [4%nat] /\
    heap st' !! 4%nat = Some task /\
    task_type task = TypecheckT /\
    task_suite task = Some 1%nat /\
    task_name task = "error expect 2" /\
    task_name task <> "error expect " +:+ pretty 1%nat.
Proof.
  eexists _, _, _, _. split; [vm_compute; reflexivity|].
  split; [vm_compute; reflexivity|]. split; [reflexivity|]. split; [reflexivity|].
  split; [vm_compute; reflexivity|]. split; [reflexivity|]. split; [reflexivity|].
  split; [reflexivity|]. vm_compute. discriminate.
Qed.

Lemma forEachError_ordinals_witness :
  let h := [mkTask SuiteT "0" "a.test-d.ts" Run None None None [1%nat];
            mkTask SuiteT "1" "A" Run (Some 0%nat) (Some 0%nat) None []] in
  let defs := [mkDefinition 0 100 1%nat] in
  let im : gmap string Z := {[ "1:1" := 5 ]} in
  let err := fun l c =>
    mkSuiteError (mkTscErrorInfo "a.test-d.ts" 2322 "msg" l c)
      (mkTypeCheckError "TypeCheckError" "msg"
         [mkParsedStack "/r/a.test-d.ts" l c "" (mkSourcePos l c)] []) in
  let errors := [err 9 9; err 1 1] in
  lookupsReturn None "/r/a.test-d.ts" errors /\
  ownersBounded h 2 0%nat defs /\
  exists h',
    forEachError (attachError 2 "/r/a.test-d.ts" 0%nat defs None im) 0 errors h = Ok h' /\
    length h' = (length h + length errors)%nat /\
    forall k e, errors !! k = Some e ->
      exists t, h' !! (length h + k)%nat = Some t /\
        task_type t = TypecheckT /\
        task_id t = pretty k /\
        task_name t = "error expect " +:+ pretty (k + 1)%nat.
Proof.
  intros h defs im err errors.
  assert (Hl : lookupsReturn None "/r/a.test-d.ts" errors).
  { repeat constructor; eexists; reflexivity. }
  assert (Hb : ownersBounded h 2 0%nat defs).
  { intros o Ho. apply elem_of_cons in Ho as [-> | Ho].
    - exists 1%nat. split; [eapply chain_top; reflexivity | lia].
    - apply elem_of_cons in Ho as [-> | Ho]; [|by apply elem_of_nil in Ho].
      exists 2%nat. split; [|lia].
      eapply chain_up; [reflexivity | reflexivity | eapply chain_top; reflexivity]. }
  destruct (forEachError_ordinals 2 "/r/a.test-d.ts" 0%nat defs None im errors h)
    as [Hret Hlab].
  destruct (Hret Hl Hb) as [h' H].
  split; [exact Hl|]. split; [exact Hb|]. exists h'. split; [exact H|]. exact (Hlab h' H).
Defined.

Lemma sample_collected :
  let output := "a.test-d.ts(2,3): error TS2322" in
  exists tests,
    _tests (collected Sample.collectFileTests Sample.files Sample.state0) = Some tests /\
    collectedFiles tests
      (heap (collected Sample.collectFileTests Sample.files Sample.state0)) 3
      (parseTscLikeOutput Sample.getRawErrsMapFromTsCompile Sample.resolve Sample.callStack
         Sample.root output Sample.state0).1
      (newSet Sample.files).
Proof.
  intros output. eexists. split; [vm_compute; reflexivity|].
  intros p Hp. rewrite newSet_elem in Hp. unfold Sample.files in Hp.
  apply elem_of_cons in Hp as [-> | Hp]; [|by apply elem_of_nil in Hp].
  eexists. split; [vm_compute; reflexivity|]. split.
  - intros o Ho. simpl in Ho.
    apply elem_of_cons in Ho as [-> | Ho].
    { exists 1%nat. split; [eapply chain_top; reflexivity | lia]. }
    apply elem_of_cons in Ho as [-> | Ho].
    { exists 2%nat. split; [|lia].
      eapply chain_up; [reflexivity | reflexivity | eapply chain_top; reflexivity]. }
    apply elem_of_cons in Ho as [-> | Ho]; [|by apply elem_of_nil in Ho].
    exists 2%nat. split; [|lia].
    eapply chain_up; [reflexivity | reflexivity | eapply chain_top; reflexivity].
  - unfold lookupsReturn. vm_compute. repeat constructor; eexists; reflexivity.
Qed.

(** * Properties of the stdout handler *)

Lemma append_cons (x : ascii) (a b : string) : String x a +:+ b = String x (a +:+ b).
Proof. done. Qed.

Lemma append_nil_l (b : string) : "" +:+ b = b.
Proof. done. Qed.

Lemma append_assoc (a b c : string) : (a +:+ b) +:+ c = a +:+ (b +:+ c).
Proof. induction a as [|x a IH]; [done|]. rewrite !append_cons. by f_equal. Qed.

Lemma append_nil_r (a : string) : a +:+ "" = a.
Proof. induction a as [|x a IH]; [done|]. rewrite append_cons. by f_equal. Qed.

Lemma prefix_append (p s c : string) :
  String.prefix p s = true -> String.prefix p (s +:+ c) = true.
Proof.
  revert s. induction p as [|x p IH]; intros s; [by destruct s; destruct c|].
  destruct s as [|y s]; [done|]. rewrite append_cons. simpl.
  destruct (ascii_dec x y); [apply IH|done].
Qed.

(** A marker that the buffer includes stays included while the buffer
    grows. *)
Lemma includes_append (needle s c : string) :
  includes needle s = true -> includes needle (s +:+ c) = true.
Proof.
  induction s as [|y s IH].
  - simpl. rewrite orb_false_r. intros Hp. destruct needle; [|done].
    rewrite append_nil_l. by destruct c.
  - rewrite append_cons. cbn [includes]. rewrite !orb_true_iff. intros [Hp | Hi].
    + left. by apply (prefix_append needle (String y s) c).
    + right. by apply IH.
Qed.

Lemma onData_watch chunk s :
  onData true chunk s =
    let output1 := output s +:+ chunk in
    let fire := includes rerunMarker output1 && negb (rerunTriggered s) in
    let tc1 := if fire then set_tests (clearResult (tc s)) None else tc s in
    let events1 := if fire then events s ++ [OnWatcherRerun] else events s in
    if passComplete output1
    then mkSession tc1 "" false (pending s ++ [output1]) events1
    else mkSession tc1 output1 (rerunTriggered s || fire) (pending s) events1.
Proof.
  unfold onData, rerunMarker. simpl.
  destruct (includes _ _ && negb (rerunTriggered s)) eqn:Hf; simpl.
  - destruct (passComplete _); [done|]. by rewrite orb_true_r.
  - destruct (passComplete _); [done|]. by rewrite orb_false_r.
Qed.

Lemma reruns_app evs evs' : reruns (evs ++ evs') = (reruns evs + reruns evs')%nat.
Proof. unfold reruns. by rewrite List.filter_app, length_app. Qed.

Lemma reruns_snoc evs : reruns (evs ++ [OnWatcherRerun]) = S (reruns evs).
Proof. rewrite reruns_app. unfold reruns. simpl. lia. Qed.

(** While the pass stays open the buffer accumulates the chunks, and the
    callback fires on the first chunk that brings the marker in, unless it
    has fired in this pass already. *)
Lemma feed_open : forall chunks c s,
  passOpen s (c :: chunks) ->
  let s' := feed true (c :: chunks) s in
  let fire := negb (rerunTriggered s) && includes rerunMarker (buffer s (c :: chunks)) in
  output s' = buffer s (c :: chunks) /\
  rerunTriggered s' = rerunTriggered s || fire /\
  reruns (events s') = (reruns (events s) + (if fire then 1 else 0))%nat /\
  pending s' = pending s /\
  _result (tc s') = _result (tc s).
Proof.
  induction chunks as [|c' chunks IH]; intros c s Hopen.
  - pose proof (Hopen 1%nat ltac:(simpl; lia)) as H1.
    unfold feed, buffer in *. simpl in H1 |- *. rewrite append_nil_r in H1 |- *.
    rewrite onData_watch. simpl. rewrite H1.
    rewrite (andb_comm (negb _)).
    destruct (includes rerunMarker _ && negb _); simpl.
    + rewrite reruns_app. by destruct (tc s).
    + rewrite Nat.add_0_r. done.
  - pose proof (Hopen 1%nat ltac:(simpl; lia)) as H1. simpl in H1.
    change (feed true (c :: c' :: chunks) s)
      with (feed true (c' :: chunks) (onData true c s)).
    set (s1 := onData true c s).
    assert (Hs1 : output s1 = output s +:+ c /\
                  rerunTriggered s1 = rerunTriggered s ||
                     (includes rerunMarker (output s +:+ c) && negb (rerunTriggered s)) /\
                  reruns (events s1) = (reruns (events s) +
                     (if includes rerunMarker (output s +:+ c) && negb (rerunTriggered s)
                      then 1 else 0))%nat /\
                  pending s1 = pending s /\ _result (tc s1) = _result (tc s)).
    { unfold s1. rewrite onData_watch. unfold buffer in H1. simpl in *.
      rewrite append_nil_r in H1. rewrite H1.
      destruct (includes rerunMarker _ && negb _); simpl.
      - rewrite reruns_app. by destruct (tc s).
      - by rewrite Nat.add_0_r. }
    destruct Hs1 as (Ho1 & Hf1 & Hr1 & Hp1 & Hres1).
    assert (Hbuf : forall l, buffer s1 l = buffer s (c :: l)).
    { intros l. unfold buffer. simpl. by rewrite Ho1, append_assoc. }
    destruct (IH c' s1) as (Ho & Hf & Hr & Hp & Hres).
    { intros k Hk. rewrite Hbuf. apply (Hopen (S k)). simpl in *. lia. }
    rewrite Hbuf in Ho, Hf, Hr.
    split; [done|]. rewrite Hf, Hr, Hf1, Hr1, Hp, Hp1, Hres, Hres1.
    assert (Hmono : includes rerunMarker (output s +:+ c) = true ->
                    includes rerunMarker (buffer s (c :: c' :: chunks)) = true).
    { intros Hi. unfold buffer. simpl. rewrite <- append_assoc. by apply includes_append. }
    destruct (rerunTriggered s); simpl.
    { rewrite andb_false_r. simpl. repeat split; lia. }
    rewrite !andb_true_r.
    destruct (includes rerunMarker (output s +:+ c)); simpl.
    + rewrite Hmono by done. repeat split; lia.
    + destruct (includes rerunMarker _); repeat split; lia.
Qed.









(** * Publishing and clearing the snapshot *)

Section SessionFacts.

Variable getRawErrsMapFromTsCompile : string -> list (string * list TscErrorInfo).
Variable resolve : string -> string -> string.
Variable createIndexMap : string -> gmap string Z.
Variable collectFileTests : string -> list Task -> option FileInformation * list Task.
Variable callStack : list string.
Variable root : string.
Variable files : list string.

(** The handler never replaces [_result]; it changes the object that
    [_result] points to exactly when it detects a rerun. *)
Lemma onData_caches watch chunk s :
  let s1 := onData watch chunk s in
  _result (tc s1) = _result (tc s) /\
  caches (tc s1) =
    if watch && includes rerunMarker (output s +:+ chunk) && negb (rerunTriggered s)
    then <[_result (tc s) := mkErrorsCache [] []]> (caches (tc s))
    else caches (tc s).
Proof.
  destruct watch; [|done]. rewrite onData_watch. simpl.
  destruct (includes rerunMarker _ && negb _); destruct (passComplete _); done.
Qed.

Lemma feed_once_tc chunks : forall s, tc (feed false chunks s) = tc s.
Proof. induction chunks as [|c chunks IH]; intros s; simpl; [done|]. by rewrite IH. Qed.

Lemma prepareResults_publishes fuel output st r st' :
  prepareResults getRawErrsMapFromTsCompile resolve createIndexMap collectFileTests
    callStack root files fuel output st = Ok (r, st') ->
  r = length (caches st) /\ _result st' = _result st /\
  exists ec, caches st' = caches st ++ [ec].
Proof.
  intros H. apply prepareResults_inv in H
    as (tests & tests' & out & _ & _ & -> & Hcaches & _ & Hres & _).
  eauto.
Qed.

Lemma onData_sameControl chunk s1 s2 :
  sameControl s1 s2 -> sameControl (onData true chunk s1) (onData true chunk s2).
Proof.
  intros (Ho & Hf & Hr). rewrite !onData_watch. simpl. rewrite Ho, Hf.
  destruct (includes rerunMarker _ && negb _); destruct (passComplete _);
    repeat split; simpl; rewrite ?reruns_snoc; congruence.
Qed.

Lemma feed_sameControl chunks : forall s1 s2,
  sameControl s1 s2 -> sameControl (feed true chunks s1) (feed true chunks s2).
Proof.
  induction chunks as [|c chunks IH]; intros s1 s2 H; [done|].
  apply IH. by apply onData_sameControl.
Qed.

(** The fulfilment of a call of [prepareResults] does not touch what the
    handler reads and counts. *)
Lemma settle_sameControl fuel s s' :
  settle getRawErrsMapFromTsCompile resolve createIndexMap collectFileTests
    callStack root files fuel s = Ok s' -> sameControl s' s.
Proof.
  unfold settle. destruct (pending s) as [|out rest]; [by intros [= <-]|].
  intros H. apply bind_Ok in H as (r & _ & H). simplify_eq.
  repeat split. simpl. rewrite reruns_app. unfold reruns at 2. simpl. lia.
Qed.

(** C2 (as amended): a publish at the end of a parse cycle installs a newly
    created [ErrorsCache] object as [_result] and leaves every
    [ErrorsCache] object that existed before as it was; the stdout handler
    never replaces [_result], and when it detects a watch-mode rerun it
    assigns empty arrays to [files] and [sourceErrors] of the object that
    [_result] points to, the currently published object, in place, leaving
    all other objects as they were. *)
Theorem publish_replaces_rerun_clears (watch : bool) (chunk : string) (fuel : nat)
    (s s' : Session) (chunks : list string) (st : State) (s'' : Session) :
  (let s1 := onData watch chunk s in
   _result (tc s1) = _result (tc s) /\
   length (caches (tc s1)) = length (caches (tc s)) /\
   (forall r, r <> _result (tc s) -> caches (tc s1) !! r = caches (tc s) !! r) /\
   caches (tc s1) !! _result (tc s) =
     if watch && includes rerunMarker (output s +:+ chunk) && negb (rerunTriggered s)
     then (fun _ => mkErrorsCache [] []) <$> (caches (tc s) !! _result (tc s))
     else caches (tc s) !! _result (tc s)) /\
  (pending s <> [] ->
   settle getRawErrsMapFromTsCompile resolve createIndexMap collectFileTests
     callStack root files fuel s = Ok s' ->
   _result (tc s') = length (caches (tc s)) /\
   is_Some (caches (tc s') !! _result (tc s')) /\
   OnParseEnd (_result (tc s')) ∈ events s' /\
   forall r, (r < length (caches (tc s)))%nat -> caches (tc s') !! r = caches (tc s) !! r) /\
  (startOnce getRawErrsMapFromTsCompile resolve createIndexMap collectFileTests
     callStack root files fuel chunks st = Ok s'' ->
   _result (tc s'') = length (caches st) /\
   is_Some (caches (tc s'') !! _result (tc s'')) /\
   OnParseEnd (_result (tc s'')) ∈ events s'' /\
   forall r, (r < length (caches st))%nat -> caches (tc s'') !! r = caches st !! r).
Proof.
  split; [|split].
  - destruct (onData_caches watch chunk s) as [Hres Hc]. simpl in *.
    split; [done|]. rewrite Hc.
    destruct (watch && includes rerunMarker _ && negb _).
    + split; [by rewrite length_insert|]. split.
      * intros r Hr. by rewrite list_lookup_insert_ne.
      * destruct (caches (tc s) !! _result (tc s)) as [ec|] eqn:Hec; simpl.
        -- rewrite list_lookup_insert_eq; [done|by eapply lookup_lt_Some].
        -- rewrite list_insert_ge; [done|by apply lookup_ge_None].
    + done.
  - unfold settle. intros Hp H. destruct (pending s) as [|out rest]; [done|].
    apply bind_Ok in H as ([r st1] & Hprep & H). simplify_eq. simpl.
    apply prepareResults_publishes in Hprep as (-> & _ & ec & ->).
    split; [done|]. split; [|split].
    + rewrite lookup_app_r, Nat.sub_diag; [by eexists|done].
    + apply elem_of_app. right. apply elem_of_cons. by left.
    + intros r Hr. by rewrite lookup_app_l.
  - unfold startOnce. intros H.
    apply bind_Ok in H as ([r st1] & Hprep & H). simplify_eq. simpl.
    rewrite feed_once_tc in Hprep. simpl in Hprep.
    apply prepareResults_publishes in Hprep as (-> & _ & ec & ->).
    split; [done|]. split; [|split].
    + rewrite lookup_app_r, Nat.sub_diag; [by eexists|done].
    + apply elem_of_app. right. apply elem_of_cons. by left.
    + intros r Hr. by rewrite lookup_app_l.
Qed.

End SessionFacts.

(** C2, counterexample: in the sample project the snapshot published at
    the end of the first pass lists the test file; the next chunk carries
    the rerun marker, and afterwards that same object, still [_result],
    has empty [files] and [sourceErrors]. *)
Lemma published_snapshot_cleared_in_place :
  exists s1 r ec,
    Sample.settle 3 (feed true [Sample.finished] (startWatch Sample.state0)) = Ok s1 /\
    r = _result (tc s1) /\
    OnParseEnd r ∈ events s1 /\
    caches (tc s1) !! r = Some ec /\
    ec_files ec = [0%nat] /\
    length (ec_sourceErrors ec) = 1%nat /\
    let s2 := onData true Sample.changed s1 in
    _result (tc s2) = r /\
    caches (tc s2) !! r = Some (mkErrorsCache [] []) /\
    caches (tc s2) !! r <> caches (tc s1) !! r.
Proof.
  eexists _, _, _. split; [vm_compute; reflexivity|].
  split; [reflexivity|]. split; [apply elem_of_cons; right; apply elem_of_cons; by left|].
  split; [vm_compute; reflexivity|]. split; [reflexivity|]. split; [reflexivity|].
  split; [reflexivity|]. split; [vm_compute; reflexivity|]. vm_compute. discriminate.
Qed.

Lemma publish_replaces_rerun_clears_witness :
  let s := feed true [Sample.finished] (startWatch Sample.state0) in
  exists s' s'',
    pending s <> [] /\
    Sample.settle 3 s = Ok s' /\
    startOnce Sample.getRawErrsMapFromTsCompile Sample.resolve Sample.createIndexMap
      Sample.collectFileTests Sample.callStack Sample.root Sample.files 3 [Sample.finished]
      Sample.state0 = Ok s'' /\
    (_result (tc s') = length (caches (tc s)) /\
     is_Some (caches (tc s') !! _result (tc s')) /\
     OnParseEnd (_result (tc s')) ∈ events s' /\
     forall r, (r < length (caches (tc s)))%nat ->
       caches (tc s') !! r = caches (tc s) !! r) /\
    (_result (tc s'') = length (caches Sample.state0) /\
     is_Some (caches (tc s'') !! _result (tc s'')) /\
     OnParseEnd (_result (tc s'')) ∈ events s'' /\
     forall r, (r < length (caches Sample.state0))%nat ->
       caches (tc s'') !! r = caches Sample.state0 !! r).
Proof.
  intros s.
  assert (Hp : pending s <> []) by (vm_compute; discriminate).
  assert (H1 : exists s', Sample.settle 3 s = Ok s') by (eexists; vm_compute; reflexivity).
  assert (H2 : exists s'',
    startOnce Sample.getRawErrsMapFromTsCompile Sample.resolve Sample.createIndexMap
      Sample.collectFileTests Sample.callStack Sample.root Sample.files 3 [Sample.finished]
      Sample.state0 = Ok s'') by (eexists; vm_compute; reflexivity).
  destruct H1 as [s' H1]. destruct H2 as [s'' H2]. exists s', s''.
  destruct (publish_replaces_rerun_clears Sample.getRawErrsMapFromTsCompile Sample.resolve
              Sample.createIndexMap Sample.collectFileTests Sample.callStack Sample.root
              Sample.files true Sample.changed 3 s s' [Sample.finished] Sample.state0 s'')
    as (_ & Hsettle & Honce).
  split; [exact Hp|]. split; [exact H1|]. split; [exact H2|].
  split; [exact (Hsettle Hp H1)|exact (Honce H2)].
Defined.

(** * More on [markFailed] *)

Lemma keepsIdentity_sym t t' : keepsIdentity t t' -> keepsIdentity t' t.
Proof. unfold keepsIdentity. intuition congruence. Qed.

Lemma onChain_keeps (h h' : list Task) :
  (forall r t, h !! r = Some t -> exists t', h' !! r = Some t' /\ keepsIdentity t t') ->
  forall a b, onChain h a b -> onChain h' a b.
Proof.
  intros Hkeep a b. induction 1 as [a | a t s b Ht Hs _ IH]; [constructor|].
  destruct (Hkeep _ _ Ht) as (t' & Ht' & Hid).
  eapply onChain_up; [done| |done]. destruct Hid as (_&_&_&_&_&->). done.
Qed.

Lemma insert_marked_keeps (h : list Task) (task : nat) (t : Task) :
  h !! task = Some t ->
  (forall r x, h !! r = Some x ->
     exists x', <[task := marked t]> h !! r = Some x' /\ keepsIdentity x x') /\
  (forall r x, <[task := marked t]> h !! r = Some x ->
     exists x', h !! r = Some x' /\ keepsIdentity x x').
Proof.
  intros Ht. pose proof (lookup_lt_Some _ _ _ Ht) as Hlt. split; intros r x Hx.
  - destruct (decide (task = r)) as [<-|Hne].
    + rewrite list_lookup_insert_eq by done. assert (x = t) as -> by congruence.
      eauto using keepsIdentity_marked.
    + rewrite list_lookup_insert_ne by done. eauto using keepsIdentity_refl.
  - destruct (decide (task = r)) as [<-|Hne].
    + rewrite list_lookup_insert_eq in Hx by done. simplify_eq.
      eauto using keepsIdentity_sym, keepsIdentity_marked.
    + rewrite list_lookup_insert_ne in Hx by done. eauto using keepsIdentity_refl.
Qed.

(** What a call that returns has done: the objects on the chain of
    ancestors are marked, the others untouched. *)
Lemma markFailed_Ok_effect fuel : forall (h h' : list Task) (task : nat),
  markFailed fuel task h = Ok h' ->
  (forall r, onChain h task r -> h' !! r = marked <$> (h !! r)) /\
  (forall r, ~ onChain h task r -> h' !! r = h !! r).
Proof.
  induction fuel as [|fuel IH]; intros h h' task Hm; [done|].
  simpl in Hm. apply bind_Ok in Hm as (t & Ht & Hm). apply deref_Ok in Ht.
  fold (marked t) in Hm.
  pose proof (lookup_lt_Some _ _ _ Ht) as Hlt.
  destruct (task_suite t) as [s|] eqn:Hs.
  - destruct (insert_marked_keeps h task t Ht) as [Hfwd Hbwd].
    destruct (IH _ _ _ Hm) as (Hon & Hoff). split.
    + intros r Hr.
      assert (Hcase : r = task \/ onChain h s r).
      { inversion Hr as [|? t0 s0 ? Ht0 Hs0 Hr']; subst; [by left|].
        right. by assert (s0 = s) as -> by congruence. }
      destruct Hcase as [-> | Hr'].
      * rewrite Ht. simpl.
        destruct (markFailed_lookup _ _ _ _ Hm task) as [-> | ->];
          rewrite list_lookup_insert_eq by done; [done|].
        simpl. by rewrite marked_marked.
      * rewrite Hon by (by eapply onChain_keeps).
        destruct (decide (task = r)) as [<-|Hne].
        -- rewrite list_lookup_insert_eq, Ht by done. simpl. by rewrite marked_marked.
        -- by rewrite list_lookup_insert_ne.
    + intros r Hr.
      assert (Hne : task <> r) by (intros ->; apply Hr; constructor).
      rewrite Hoff, list_lookup_insert_ne; [done|done|].
      intros Hr'. apply Hr. eapply onChain_up; [done|done|].
      by eapply onChain_keeps.
  - simplify_eq. split.
    + intros r Hr. inversion Hr as [|? t0 s0 ? Ht0 Hs0 _]; subst.
      * by rewrite list_lookup_insert_eq, Ht.
      * congruence.
    + intros r Hr. rewrite list_lookup_insert_ne; [done|].
      intros ->. apply Hr. constructor.
Qed.

(** X1: on a finite ancestor chain [markFailed] rewrites the result of the
    task and of each of its ancestors, from the object's own mode, and
    leaves every other object of the store exactly as it was. *)
Theorem markFailed_marks_chain_only (h : list Task) (task : ref) (n fuel : nat) :
  chain h task n -> (n <= fuel)%nat ->
  exists h',
    markFailed fuel task h = Ok h' /\
    (forall r, onChain h task r -> h' !! r = marked <$> (h !! r)) /\
    (forall r, ~ onChain h task r -> h' !! r = h !! r).
Proof.
  intros Hc Hle. destruct (markFailed_returns _ _ _ Hc fuel Hle) as [h' Hm].
  exists h'. split; [done|]. by eapply markFailed_Ok_effect.
Qed.

Lemma markFailed_Ok_chain fuel : forall (h h' : list Task) (task : nat),
  markFailed fuel task h = Ok h' -> exists n, (n <= fuel)%nat /\ chain h task n.
Proof.
  induction fuel as [|fuel IH]; intros h h' task Hm; [done|].
  simpl in Hm. apply bind_Ok in Hm as (t & Ht & Hm). apply deref_Ok in Ht.
  fold (marked t) in Hm.
  destruct (task_suite t) as [s|] eqn:Hs.
  - destruct (IH _ _ _ Hm) as (n & Hn & Hc).
    exists (S n). split; [lia|]. eapply chain_up; [done|done|].
    eapply chain_keeps; [|done]. by apply insert_marked_keeps.
  - exists 1%nat. split; [lia|]. by eapply chain_top.
Qed.

Lemma chain_functional (h : list Task) (task : nat) n :
  chain h task n -> forall m, chain h task m -> n = m.
Proof.
  induction 1 as [a t Ht Hs | a t s n Ht Hs _ IH]; intros m Hm;
    inversion Hm as [? t' Ht' Hs' | ? t' s' m' Ht' Hs' Hm']; subst;
    assert (t' = t) as -> by congruence; try congruence.
  f_equal. apply IH. by assert (s' = s) as -> by congruence.
Qed.

Lemma chain_onChain (h : list Task) (a : nat) n :
  chain h a n -> forall b, onChain h a b -> exists m, (m <= n)%nat /\ chain h b m.
Proof.
  induction 1 as [a t Ht Hs | a t s n Ht Hs Hc IH]; intros b Hb.
  - inversion Hb as [|? t' s' ? Ht' Hs' _]; subst.
    + exists 1%nat. split; [lia|]. by eapply chain_top.
    + congruence.
  - inversion Hb as [|? t' s' ? Ht' Hs' Hb']; subst.
    + exists (S n). split; [lia|]. by eapply chain_up.
    + assert (s' = s) as -> by congruence.
      destruct (IH _ Hb') as (m & Hm & Hcm). exists m. split; [lia|done].
Qed.

(** X2: [markFailed] returns exactly when the chain of ancestors is finite
    and no longer than the recursion budget; on a cycle of [suite]
    references it never returns, whatever the budget. *)
Theorem markFailed_returns_iff_chain (h : list Task) (task : ref) :
  (forall fuel,
     (exists h', markFailed fuel task h = Ok h') <->
     (exists n, (n <= fuel)%nat /\ chain h task n)) /\
  (forall t s, h !! task = Some t -> task_suite t = Some s -> onChain h s task ->
   forall fuel h', markFailed fuel task h <> Ok h').
Proof.
  split.
  - intros fuel. split.
    + intros [h' Hm]. by eapply markFailed_Ok_chain.
    + intros (n & Hn & Hc). by eapply markFailed_returns.
  - intros t s Ht Hs Hcycle fuel h' Hm.
    destruct (markFailed_Ok_chain _ _ _ _ Hm) as (n & _ & Hc).
    inversion Hc as [? t' Ht' Hs' | ? t' s' m Ht' Hs' Hc']; subst;
      assert (t' = t) as -> by congruence; [congruence|].
    assert (s' = s) as -> by congruence.
    destruct (chain_onChain _ _ _ Hc' _ Hcycle) as (k & Hk & Hck).
    pose proof (chain_functional _ _ _ Hc _ Hck). lia.
Qed.

Lemma markFailed_returns_iff_chain_witness :
  let h := [mkTask SuiteT "0" "outer" Run None (Some 1%nat) None [1%nat];
            mkTask SuiteT "1" "inner" Run None (Some 0%nat) None [0%nat]] in
  exists t s,
    h !! 0%nat = Some t /\ task_suite t = Some s /\ onChain h s 0%nat /\
    forall fuel h', markFailed fuel 0%nat h <> Ok h'.
Proof.
  intros h. eexists _, _.
  assert (H0 : h !! 0%nat = Some (mkTask SuiteT "0" "outer" Run None (Some 1%nat) None [1%nat]))
    by reflexivity.
  assert (Hs : task_suite (mkTask SuiteT "0" "outer" Run None (Some 1%nat) None [1%nat])
               = Some 1%nat) by reflexivity.
  assert (Hc : onChain h 1%nat 0%nat).
  { eapply onChain_up; [reflexivity|reflexivity|constructor]. }
  split; [exact H0|]. split; [exact Hs|]. split; [exact Hc|].
  destruct (markFailed_returns_iff_chain h 0%nat) as [_ Hcyc].
  exact (Hcyc _ _ H0 Hs Hc).
Defined.

Lemma markFailed_marks_chain_only_witness :
  let h := [mkTask SuiteT "0" "file" Run None None None [1%nat; 2%nat];
            mkTask SuiteT "1" "A" Skip (Some 0%nat) (Some 0%nat) None [];
            mkTask SuiteT "2" "B" Run (Some 0%nat) (Some 0%nat) None []] in
  chain h 1%nat 2 /\ (2 <= 5)%nat /\
  exists h',
    markFailed 5 1%nat h = Ok h' /\
    (forall r, onChain h 1%nat r -> h' !! r = marked <$> (h !! r)) /\
    (forall r, ~ onChain h 1%nat r -> h' !! r = h !! r).
Proof.
  intros h.
  assert (Hc : chain h 1%nat 2).
  { eapply chain_up; [reflexivity | reflexivity | eapply chain_top; reflexivity]. }
  assert (Hle : (2 <= 5)%nat) by lia.
  split; [exact Hc|]. split; [exact Hle|].
  exact (markFailed_marks_chain_only h 1%nat 2 5 Hc Hle).
Defined.

(** * More on the definition locator *)



Lemma sortDefinitions_sorted_id (l : list LocalCallDefinition) :
  StronglySorted startsBefore l -> sortDefinitions l = l.
Proof.
  induction 1 as [|d l Hs IH Hall]; [done|].
  change (sortDefinitions (d :: l)) with (insertByStart d (sortDefinitions l)).
  rewrite IH. destruct l as [|x l]; [done|]. simpl.
  apply Forall_cons in Hall as [Hx _]. unfold startsBefore in Hx.
  by rewrite (proj2 (Z.leb_le _ _) Hx).
Qed.



(** * The keys of the index map *)

Lemma allChars_app P (a b : string) :
  allChars P (a +:+ b) = allChars P a && allChars P b.
Proof.
  induction a as [|c a IH]; [done|]. rewrite append_cons. simpl.
  by rewrite IH, andb_assoc.
Qed.

Lemma allChars_impl (P Q : ascii -> bool) (s : string) :
  (forall c, P c = true -> Q c = true) -> allChars P s = true -> allChars Q s = true.
Proof.
  intros HPQ. induction s as [|c s IH]; simpl; [done|].
  rewrite !andb_true_iff. intros [??]. auto.
Qed.

Lemma pretty_N_char_digit (x : N) : isDigit (pretty_N_char x) = true.
Proof. unfold pretty_N_char. by repeat case_match. Qed.

Lemma pretty_N_go_digits (x : N) : forall s,
  allChars isDigit s = true -> allChars isDigit (pretty_N_go x s) = true.
Proof.
  induction (N.lt_wf_0 x) as [x _ IH]; intros s Hs.
  assert (x = 0 \/ 0 < x)%N as [->|Hpos] by lia; [by rewrite pretty_N_go_0|].
  rewrite pretty_N_go_step by done. apply IH; [by apply N.div_lt|].
  simpl. by rewrite pretty_N_char_digit.
Qed.

(** A printed natural number is a non-empty string of digits. *)
Lemma pretty_N_digits (x : N) :
  allChars isDigit (pretty x) = true /\ pretty x <> "".
Proof.
  unfold pretty, pretty_N. case_decide as Hx; [done|].
  split; [by apply pretty_N_go_digits|].
  assert (0 < x)%N as Hpos by lia.
  rewrite pretty_N_go_step by done. intros Hnil.
  assert (Hlen : forall y s, (String.length s <= String.length (pretty_N_go y s))%nat).
  { intros y. induction (N.lt_wf_0 y) as [y _ IH]; intros s.
    assert (y = 0 \/ 0 < y)%N as [->|?] by lia; [by rewrite pretty_N_go_0|].
    rewrite pretty_N_go_step by done. etrans; [|by eapply IH, N.div_lt]. simpl. lia. }
  specialize (Hlen (x `div` 10)%N (String (pretty_N_char (x `mod` 10)) "")).
  rewrite Hnil in Hlen. simpl in Hlen. lia.
Qed.

Lemma pretty_Z_number (z : Z) : allChars isNumberChar (pretty z) = true.
Proof.
  assert (Hd : forall p : positive, allChars isNumberChar (pretty (Npos p)) = true).
  { intros p. eapply allChars_impl; [|apply pretty_N_digits].
    intros c Hc. unfold isNumberChar. by rewrite Hc. }
  destruct z as [|p|p]; [done|apply Hd|].
  change (pretty (Z.neg p)) with ("-" +:+ pretty (Npos p)).
  rewrite append_cons. simpl. by rewrite append_nil_l, Hd.
Qed.

Lemma showNullable_notColon (o : option Z) : allChars notColon (showNullable o) = true.
Proof.
  destruct o as [z|]; [|done]. simpl.
  eapply allChars_impl; [|apply pretty_Z_number].
  intros c. unfold isNumberChar, isDigit, notColon.
  destruct (bool_decide (c = ":"%char)) eqn:Hc; [|done].
  apply bool_decide_eq_true in Hc. by subst.
Qed.

Lemma showNullable_inj (a b : option Z) : showNullable a = showNullable b -> a = b.
Proof.
  destruct a as [x|], b as [y|]; simpl; intros H; [| | |done].
  - f_equal. by apply (inj pretty).
  - pose proof (pretty_Z_number x) as Hx. by rewrite H in Hx.
  - pose proof (pretty_Z_number y) as Hy. by rewrite <- H in Hy.
Qed.

(** Two strings without colon that are followed by a colon and agree with
    their continuations agree themselves. *)
Lemma colon_split (a b s t : string) :
  allChars notColon a = true -> allChars notColon b = true ->
  a +:+ ":" +:+ s = b +:+ ":" +:+ t -> a = b /\ s = t.
Proof.
  assert (Hcolon : forall u, ":" +:+ u = String ":" u) by done.
  rewrite !Hcolon.
  revert b. induction a as [|x a IH]; intros [|y b] Ha Hb H.
  - rewrite !append_nil_l in H. by injection H as ->.
  - rewrite append_nil_l, !append_cons in H. injection H as <- _.
    cbn [allChars] in Hb. apply andb_true_iff in Hb as [Hb _].
    unfold notColon in Hb. by rewrite bool_decide_eq_true_2 in Hb.
  - rewrite append_nil_l, !append_cons in H. injection H as -> _.
    cbn [allChars] in Ha. apply andb_true_iff in Ha as [Ha _].
    unfold notColon in Ha. by rewrite bool_decide_eq_true_2 in Ha.
  - rewrite !append_cons in H. simpl in Ha, Hb.
    apply andb_true_iff in Ha as [_ Ha]. apply andb_true_iff in Hb as [_ Hb].
    injection H as -> H. destruct (IH b Ha Hb H) as [-> ->]. done.
Qed.

(** X4: the key into the index map determines the position: two positions
    with the same key have the same line and the same column (null
    included), so diagnostics at different positions never share an entry
    of the index map. *)
Theorem indexKey_injective (p q : Position) : indexKey p = indexKey q -> p = q.
Proof.
  unfold indexKey. intros H.
  apply colon_split in H as [Hl Hc]; [|apply showNullable_notColon..].
  apply showNullable_inj in Hl, Hc. destruct p, q. simpl in *. by subst.
Qed.

Lemma indexKey_injective_witness :
  indexKey (mkPosition (Some 12) None) = indexKey (mkPosition (Some 12) None) /\
  mkPosition (Some 12) None = mkPosition (Some 12) None.
Proof.
  assert (H : indexKey (mkPosition (Some 12) None) = indexKey (mkPosition (Some 12) None))
    by reflexivity.
  split; [exact H|]. exact (indexKey_injective _ _ H).
Defined.

(** X5: when the file has a source map that has no mapping for the file's
    path, the lookup answers with the null position, the fallback to the
    reported position is not taken, and (the index map has no entry for the
    key "null:null") the diagnostic is attached to the file itself, whatever
    position it reports and whatever the definitions are. *)
Theorem unmapped_source_attaches_to_file (fuel : nat) (path : string) (file : ref)
    (defs : list LocalCallDefinition) (sm : list Mapping) (im : gmap string Z)
    (idx : nat) (e : SuiteError) (h : list Task) (f : Task) (n : nat) :
  (forall m, m ∈ sm -> source m <> path) ->
  im !! "null:null" = None ->
  h !! file = Some f -> chain h file n -> (n <= fuel)%nat ->
  lookupPosition (Some sm) (se_originalError e) path = Ok nullPosition /\
  owner defs im file nullPosition = file /\
  exists h',
    attachError fuel path file defs (Some sm) im idx e h = Ok h' /\
    h' !! length h = Some (syntheticTask file file f idx e).
Proof.
  intros Hsrc Hkey Hf Hc Hle.
  assert (Hpos : lookupPosition (Some sm) (se_originalError e) path = Ok nullPosition).
  { unfold lookupPosition, generatedPositionFor.
    destruct (existsb _ sm) eqn:Hex; [|done].
    apply existsb_exists in Hex as (m & Hm & Hs). apply bool_decide_eq_true in Hs.
    destruct (Hsrc m); [by apply list_elem_of_In|done]. }
  assert (Hown : owner defs im file nullPosition = file).
  { unfold owner. change (indexKey nullPosition) with "null:null". by rewrite Hkey. }
  split; [done|]. split; [done|].
  destruct (attachError_returns fuel path file defs (Some sm) im idx e h nullPosition f n)
    as (h' & Hok & Hfresh); rewrite ?Hown; try done.
  rewrite Hown in Hfresh. eauto.
Qed.

Lemma unmapped_source_attaches_to_file_witness :
  let h := [mkTask SuiteT "0" "a.test-d.ts" Run None None None [1%nat];
            mkTask SuiteT "1" "A" Run (Some 0%nat) (Some 0%nat) None []] in
  let f := mkTask SuiteT "0" "a.test-d.ts" Run None None None [1%nat] in
  let defs := [mkDefinition 0 100 1%nat] in
  let sm := [mkMapping 1 0 "/r/other.ts" 1 0] in
  let im : gmap string Z := {[ "1:1" := 5 ]} in
  let e := mkSuiteError (mkTscErrorInfo "a.test-d.ts" 2322 "msg" 1 1)
             (mkTypeCheckError "TypeCheckError" "msg"
                [mkParsedStack "/r/a.test-d.ts" 1 1 "" (mkSourcePos 1 1)] []) in
  lookupPosition None (se_originalError e) "/r/a.test-d.ts" = Ok (mkPosition (Some 1) (Some 1)) /\
  owner defs im 0%nat (mkPosition (Some 1) (Some 1)) = 1%nat /\
  lookupPosition (Some sm) (se_originalError e) "/r/a.test-d.ts" = Ok nullPosition /\
  owner defs im 0%nat nullPosition = 0%nat /\
  exists h',
    attachError 1 "/r/a.test-d.ts" 0%nat defs (Some sm) im 0 e h = Ok h' /\
    h' !! length h = Some (syntheticTask 0%nat 0%nat f 0 e).
Proof.
  intros h f defs sm im e.
  split; [reflexivity|]. split; [vm_compute; reflexivity|].
  apply (unmapped_source_attaches_to_file 1 "/r/a.test-d.ts" 0%nat defs sm im 0 e h f 1).
  - intros m Hm. apply elem_of_cons in Hm as [-> | Hm]; [done|by apply elem_of_nil in Hm].
  - vm_compute. reflexivity.
  - reflexivity.
  - eapply chain_top; reflexivity.
  - lia.
Defined.

(** * More on [parseTscLikeOutput] *)

Lemma Map_get_set {V} (m : list (string * V)) (k p : string) (v : V) :
  Map_get (Map_set m k v) p = if decide (k = p) then Some v else Map_get m p.
Proof.
  induction m as [|[k' v'] m IH]; simpl.
  - by destruct (decide (k = p)).
  - destruct (decide (k' = k)) as [->|Hne]; simpl.
    + by destruct (decide (k = p)).
    + rewrite IH. destruct (decide (k' = p)) as [->|]; [|done].
      by rewrite decide_False by done.
Qed.

Lemma Map_set_fst {V} (m : list (string * V)) (k : string) (v : V) :
  map fst (Map_set m k v) = Set_add (map fst m) k.
Proof.
  unfold Set_add. induction m as [|[k' v'] m IH]; simpl; [done|].
  destruct (decide (k' = k)) as [->|Hne]; simpl.
  - rewrite bool_decide_eq_true_2; [done|]. apply elem_of_cons. by left.
  - rewrite IH. destruct (bool_decide (k ∈ map fst m)) eqn:Hin.
    + apply bool_decide_eq_true in Hin.
      rewrite bool_decide_eq_true_2; [done|]. apply elem_of_cons. by right.
    + apply bool_decide_eq_false in Hin.
      rewrite bool_decide_eq_false_2; [done|].
      rewrite elem_of_cons. intros [?|?]; congruence.
Qed.

Section MoreParseFacts.

Variable getRawErrsMapFromTsCompile : string -> list (string * list TscErrorInfo).
Variable resolve : string -> string -> string.
Variable callStack : list string.
Variable root : string.

Lemma wrapErrors_wrapped filepath : forall errors limit,
  (wrapErrors callStack filepath errors limit).1 = map (wrapped filepath) errors.
Proof.
  induction errors as [|info errors IH]; intros limit; simpl; [done|].
  specialize (IH limit).
  destruct (wrapErrors callStack filepath errors limit) as [es l2]. simpl in *.
  by rewrite IH.
Qed.

Lemma lastGroup_acc p (errorsMap : list (string * list TscErrorInfo)) acc :
  foldl (fun acc kv => if bool_decide (resolve root kv.1 = p) then Some kv.2 else acc)
        acc errorsMap =
  match lastGroup resolve root p errorsMap with
  | Some infos => Some infos
  | None => acc
  end.
Proof.
  unfold lastGroup. revert acc.
  induction errorsMap as [|[path errors] errorsMap IH]; intros acc; [done|].
  cbn [foldl]. rewrite IH, (IH (if bool_decide _ then _ else None)). simpl.
  destruct (foldl _ None errorsMap); [done|]. by destruct (bool_decide _).
Qed.

Lemma lastGroup_elem p (errorsMap : list (string * list TscErrorInfo)) infos :
  lastGroup resolve root p errorsMap = Some infos ->
  exists path, (path, infos) ∈ errorsMap /\ resolve root path = p.
Proof.
  induction errorsMap as [|[path errs] errorsMap IH]; [done|].
  unfold lastGroup. cbn [foldl]. rewrite lastGroup_acc. simpl.
  destruct (lastGroup resolve root p errorsMap) as [infos'|].
  - intros [= ->]. destruct IH as (path' & Hin & Hp); [done|].
    exists path'. split; [by apply elem_of_cons; right|done].
  - case_bool_decide as Hp; [|done]. intros [= ->].
    exists path. split; [by apply elem_of_cons; left|done].
Qed.

Lemma resolveErrors_get p : forall errorsMap typesErrors limit,
  Map_get (resolveErrors resolve callStack root errorsMap typesErrors limit).1 p =
  match lastGroup resolve root p errorsMap with
  | Some infos => Some (map (wrapped p) infos)
  | None => Map_get typesErrors p
  end.
Proof.
  induction errorsMap as [|[path errors] errorsMap IH]; intros typesErrors limit; [done|].
  cbn [resolveErrors].
  pose proof (wrapErrors_wrapped (resolve root path) errors limit) as Hw.
  destruct (wrapErrors callStack (resolve root path) errors limit) as [suiteErrors l1].
  simpl in Hw. subst. rewrite IH.
  unfold lastGroup at 2. cbn [foldl]. rewrite lastGroup_acc. simpl.
  destruct (lastGroup resolve root p errorsMap); [done|].
  rewrite Map_get_set. case_bool_decide as Hp.
  - subst p. by rewrite decide_True.
  - by rewrite decide_False.
Qed.

Lemma resolveErrors_keys : forall errorsMap typesErrors limit,
  map fst (resolveErrors resolve callStack root errorsMap typesErrors limit).1 =
  foldl Set_add (map fst typesErrors) (map (fun kv => resolve root kv.1) errorsMap).
Proof.
  induction errorsMap as [|[path errors] errorsMap IH]; intros typesErrors limit; [done|].
  cbn [resolveErrors].
  destruct (wrapErrors callStack (resolve root path) errors limit) as [suiteErrors l1].
  rewrite IH, Map_set_fst. done.
Qed.

(** X6: the map that [parseTscLikeOutput] returns has one key per distinct
    resolved path, in the order in which the paths first occur in the raw
    map; under a key it holds the diagnostics of the last raw entry that
    resolves to it, each wrapped with its raw record kept as
    [originalError] and in the raw order, so the diagnostics of an earlier
    raw entry with the same resolved path are not in the map. *)
Theorem parseTscLikeOutput_entries (output : string) (st : State) (p : string) :
  let typeErrors :=
    (parseTscLikeOutput getRawErrsMapFromTsCompile resolve callStack root output st).1 in
  let raw := getRawErrsMapFromTsCompile output in
  map fst typeErrors = newSet (map (fun kv => resolve root kv.1) raw) /\
  Map_get typeErrors p = map (wrapped p) <$> lastGroup resolve root p raw /\
  (forall errors, Map_get typeErrors p = Some errors ->
     exists infos, (exists path, (path, infos) ∈ raw /\ resolve root path = p) /\
                   map se_originalError errors = infos).
Proof.
  intros typeErrors raw.
  assert (Hget : Map_get typeErrors p = map (wrapped p) <$> lastGroup resolve root p raw).
  { unfold typeErrors, parseTscLikeOutput. fold raw.
    pose proof (resolveErrors_get p raw [] (stackTraceLimit st)) as H.
    destruct (resolveErrors resolve callStack root raw [] (stackTraceLimit st)) as [te l].
    simpl in *. rewrite H. by destruct (lastGroup resolve root p raw). }
  split; [|split; [done|]].
  - unfold typeErrors, parseTscLikeOutput. fold raw.
    pose proof (resolveErrors_keys raw [] (stackTraceLimit st)) as H.
    by destruct (resolveErrors resolve callStack root raw [] (stackTraceLimit st)) as [te l].
  - intros errors He. rewrite Hget in He.
    destruct (lastGroup resolve root p raw) as [infos|] eqn:Hg; [|done].
    simpl in He. injection He as <-. exists infos. split.
    + by eapply lastGroup_elem.
    + rewrite map_map. simpl. by rewrite map_id.
Qed.

End MoreParseFacts.

Lemma parseTscLikeOutput_entries_witness :
  let raw := fun _ : string =>
    [("a.ts", [mkTscErrorInfo "a.ts" 1 "first" 1 1]);
     ("b.ts", [mkTscErrorInfo "b.ts" 2 "other" 2 2]);
     ("./a.ts", [mkTscErrorInfo "./a.ts" 3 "second" 3 3])] in
  let resolve := fun (root path : string) =>
    if bool_decide (path = "./a.ts") then "/r/a.ts" else root +:+ "/" +:+ path in
  let typeErrors := (parseTscLikeOutput raw resolve [] "/r" "" (newTypechecker [] 10)).1 in
  exists errors,
    map fst typeErrors = ["/r/a.ts"; "/r/b.ts"] /\
    Map_get typeErrors "/r/a.ts" = Some errors /\
    exists infos, (exists path, (path, infos) ∈ raw "" /\ resolve "/r" path = "/r/a.ts") /\
                  map se_originalError errors = infos.
Proof.
  intros raw resolve typeErrors.
  assert (H : exists errors, Map_get typeErrors "/r/a.ts" = Some errors)
    by (eexists; vm_compute; reflexivity).
  destruct H as [errors H]. exists errors.
  split; [vm_compute; reflexivity|]. split; [exact H|].
  destruct (parseTscLikeOutput_entries raw resolve [] "/r" "" (newTypechecker [] 10) "/r/a.ts")
    as (_ & _ & Horig).
  exact (Horig errors H).
Defined.

(** * Classification of the parsed diagnostics *)

Lemma foldl_Set_add_NoDup (l : list string) : forall s,
  NoDup (s ++ l) -> foldl Set_add s l = s ++ l.
Proof.
  induction l as [|x l IH]; intros s Hn; simpl; [by rewrite app_nil_r|].
  assert (Hx : x ∉ s).
  { apply NoDup_app in Hn as (_ & Hd & _). intros Hin. apply (Hd x Hin).
    apply elem_of_cons. by left. }
  assert (Hadd : Set_add s x = s ++ [x]).
  { unfold Set_add. by rewrite bool_decide_eq_false_2. }
  rewrite Hadd, IH; by rewrite <- app_assoc.
Qed.

Lemma newSet_NoDup_id (l : list string) : NoDup l -> newSet l = l.
Proof. intros Hn. by apply (foldl_Set_add_NoDup l []). Qed.

(** A map with distinct keys is determined by its keys and its lookups. *)
Lemma Map_by_keys {V} (m : list (string * V)) (d : V) :
  NoDup (map fst m) -> m = map (fun k => (k, default d (Map_get m k))) (map fst m).
Proof.
  induction m as [|[k v] m IH]; intros Hn; [done|].
  simpl in Hn. apply NoDup_cons in Hn as [Hk Hn]. simpl.
  rewrite decide_True by done. simpl. f_equal.
  etrans; [apply (IH Hn)|]. apply map_ext_in. intros k0 Hk0.
  rewrite decide_False; [done|]. intros ->. apply Hk. by apply list_elem_of_In.
Qed.

Lemma filter_group (P : string -> Prop) `{!forall p, Decision (P p)} (p : string)
    (l : list TscErrorInfo) :
  filter (fun d : string * TscErrorInfo => P d.1) (map (fun info => (p, info)) l) =
  if decide (P p) then map (fun info => (p, info)) l else [].
Proof.
  induction l as [|x l IH]; simpl; [by destruct (decide (P p))|].
  rewrite filter_cons. simpl. rewrite IH. by destruct (decide (P p)).
Qed.

Lemma filter_split_length {A} (P : A -> Prop) `{!forall x, Decision (P x)} (l : list A) :
  length l = (length (filter P l) + length (filter (fun x => ~ P x) l))%nat.
Proof.
  induction l as [|x l IH]; [done|].
  rewrite !filter_cons. destruct (decide (P x)), (decide (~ P x)); simpl; try done; lia.
Qed.

(** The two groups of a map given by its keys, in terms of the diagnostics
    filed under the keys. *)
Lemma notUnderTest_groups (files keys : list string) (g : string -> list TscErrorInfo) :
  map se_error (notUnderTest files (map (fun p => (p, map (wrapped p) (g p))) keys)) =
  map errorOf (filter (fun d => d.1 ∉ files)
                 (concat (map (fun p => map (fun info => (p, info)) (g p)) keys))).
Proof.
  unfold notUnderTest. induction keys as [|p keys IH]; [done|].
  simpl. rewrite filter_app, !map_app, IH. f_equal.
  pose proof (filter_group (fun q => q ∉ files) p (g p)) as Hfg. cbv beta in Hfg.
  rewrite Hfg. clear Hfg.
  unfold requested, Set_has. simpl.
  destruct (decide (p ∉ files)) as [Hp|Hp].
  - rewrite bool_decide_eq_false_2 by (by rewrite newSet_elem).
    by rewrite !map_map.
  - rewrite bool_decide_eq_true_2; [done|]. rewrite newSet_elem. by apply dec_stable.
Qed.

Lemma underTest_groups (files keys : list string) (g : string -> list TscErrorInfo) :
  length (underTest files (map (fun p => (p, map (wrapped p) (g p))) keys)) =
  length (filter (fun d => d.1 ∈ files)
            (concat (map (fun p => map (fun info => (p, info)) (g p)) keys))).
Proof.
  unfold underTest. induction keys as [|p keys IH]; [done|].
  simpl. rewrite filter_app, !length_app, IH. f_equal.
  pose proof (filter_group (fun q => q ∈ files) p (g p)) as Hfg. cbv beta in Hfg.
  rewrite Hfg. clear Hfg.
  unfold requested, Set_has. simpl.
  destruct (decide (p ∈ files)) as [Hp|Hp].
  - rewrite bool_decide_eq_true_2 by (by rewrite newSet_elem).
    by rewrite !length_map.
  - rewrite bool_decide_eq_false_2; [done|]. by rewrite newSet_elem.
Qed.

(** The loop over a file's errors only appends to the [tasks] of the
    objects that existed before. *)
Lemma forEachError_grows fuel path file defs mc im : forall errors idx h h',
  forEachError (attachError fuel path file defs mc im) idx errors h = Ok h' ->
  forall (r : nat) t, h !! r = Some t ->
    exists t', h' !! r = Some t' /\ keepsIdentity t t' /\
               task_tasks t `prefix_of` task_tasks t'.
Proof.
  induction errors as [|e errors IH]; intros idx h h' H r t Ht; simpl in *.
  - simplify_eq. exists t. split; [done|]. split; [apply keepsIdentity_refl|done].
  - apply bind_Ok in H as (h1 & H1 & H).
    destruct (attachError_step _ _ _ _ _ _ _ _ _ _ H1)
      as (pos & s & fresh & _ & _ & _ & _ & _ & _ & Hold).
    destruct (Hold _ _ Ht) as (t1 & Ht1 & Hid1 & Htasks1).
    destruct (IH _ _ _ H _ _ Ht1) as (t' & Ht' & Hid' & Hpre').
    exists t'. split; [done|]. split; [by eapply keepsIdentity_trans|].
    etrans; [|exact Hpre']. rewrite Htasks1. by apply prefix_app_r.
Qed.

(** The task built for the error at position [k] of the list belongs to
    the file of the loop; its suite is the file or the task of one of the
    definitions, and the [tasks] of that object hold it. *)
Lemma forEachError_tasks fuel path file defs mc im : forall errors idx h h',
  forEachError (attachError fuel path file defs mc im) idx errors h = Ok h' ->
  forall k e, errors !! k = Some e ->
    exists t o so, h' !! (length h + k)%nat = Some t /\
      task_type t = TypecheckT /\ task_file t = Some file /\
      task_suite t = Some o /\ o ∈ file :: map def_task defs /\
      h' !! o = Some so /\ (length h + k)%nat ∈ task_tasks so /\
      task_id t = pretty (idx + k)%nat /\
      task_name t = "error expect " +:+ pretty (idx + k + 1)%nat.
Proof.
  induction errors as [|e0 errors IH]; intros idx h h' H k e Hk; [done|].
  simpl in H. apply bind_Ok in H as (h1 & H1 & H).
  destruct (attachError_step _ _ _ _ _ _ _ _ _ _ H1)
    as (pos & s & fresh & _ & Hs & Hlen & Hfresh & Hid & _ & Hold).
  destruct k as [|k].
  - destruct (forEachError_keeps _ _ _ _ _ _ _ _ _ _ H _ _ Hfresh) as (t & Ht & Hid').
    destruct (Hold _ _ Hs) as (s1 & Hs1 & _ & Htasks1).
    rewrite decide_True in Htasks1 by done.
    destruct (forEachError_grows _ _ _ _ _ _ _ _ _ _ H _ _ Hs1) as (so & Hso & _ & Hpre).
    exists t, (owner defs im file pos), so. rewrite Nat.add_0_r. split; [done|].
    destruct (keepsIdentity_trans _ _ _ Hid Hid') as (Hty & Hi & Hn & _ & Hfi & Hsu).
    rewrite Hty, Hi, Hn, Hfi, Hsu. simpl. rewrite !Nat.add_0_r.
    split; [done|]. split; [done|]. split; [done|]. split; [apply owner_elem|].
    split; [done|]. split; [|done].
    eapply elem_of_prefix; [|exact Hpre]. rewrite Htasks1.
    apply elem_of_app. right. apply elem_of_cons. by left.
  - simpl in Hk.
    destruct (IH _ _ _ H _ _ Hk)
      as (t & o & so & Ht & Hty & Hfi & Hsu & Ho & Hso & Hin & Hi & Hn).
    exists t, o, so. rewrite Hlen in Ht, Hin.
    replace (length h + S k)%nat with (S (length h) + k)%nat by lia.
    split; [done|]. split; [done|]. split; [done|]. split; [done|]. split; [done|].
    split; [done|]. split; [done|].
    replace (idx + S k)%nat with (S idx + k)%nat by lia. done.
Qed.

Section ClassifyParsed.

Variable getRawErrsMapFromTsCompile : string -> list (string * list TscErrorInfo).
Variable resolve : string -> string -> string.
Variable createIndexMap : string -> gmap string Z.
Variable collectFileTests : string -> list Task -> option FileInformation * list Task.
Variable callStack : list string.
Variable root : string.
Variable files : list string.

Lemma parseTscLikeOutput_get (output : string) (st : State) (p : string) :
  errorsOf (parseTscLikeOutput getRawErrsMapFromTsCompile resolve callStack root output st).1 p
  = map (wrapped p) (keptGroup resolve root (getRawErrsMapFromTsCompile output) p).
Proof.
  unfold errorsOf, keptGroup, parseTscLikeOutput.
  pose proof (resolveErrors_get resolve callStack root p
                (getRawErrsMapFromTsCompile output) [] (stackTraceLimit st)) as H.
  destruct (resolveErrors resolve callStack root (getRawErrsMapFromTsCompile output) []
              (stackTraceLimit st)) as [te l].
  simpl in *. rewrite H. by destruct (lastGroup resolve root p _).
Qed.

Lemma parseTscLikeOutput_keys (output : string) (st : State) :
  map fst (parseTscLikeOutput getRawErrsMapFromTsCompile resolve callStack root output st).1
  = newSet (map (fun kv => resolve root kv.1) (getRawErrsMapFromTsCompile output)).
Proof.
  unfold parseTscLikeOutput.
  pose proof (resolveErrors_keys resolve callStack root
                (getRawErrsMapFromTsCompile output) [] (stackTraceLimit st)) as H.
  by destruct (resolveErrors resolve callStack root (getRawErrsMapFromTsCompile output) []
                 (stackTraceLimit st)) as [te l].
Qed.

(** The map of diagnostics in terms of what the parser returned. *)
Lemma typeErrors_kept (output : string) (st : State) :
  (parseTscLikeOutput getRawErrsMapFromTsCompile resolve callStack root output st).1 =
  map (fun p => (p, map (wrapped p)
                      (keptGroup resolve root (getRawErrsMapFromTsCompile output) p)))
      (newSet (map (fun kv => resolve root kv.1) (getRawErrsMapFromTsCompile output))).
Proof.
  destruct (parseTscLikeOutput_spec getRawErrsMapFromTsCompile resolve callStack root
              output st) as (_ & _ & Hnd).
  etrans; [apply (Map_by_keys _ [] Hnd)|].
  rewrite parseTscLikeOutput_keys. apply map_ext. intros p. f_equal.
  apply parseTscLikeOutput_get.
Qed.

Lemma lastGroup_cons (p : string) (kv : string * list TscErrorInfo)
    (raw : list (string * list TscErrorInfo)) :
  lastGroup resolve root p (kv :: raw) =
  match lastGroup resolve root p raw with
  | Some infos => Some infos
  | None => if bool_decide (resolve root kv.1 = p) then Some kv.2 else None
  end.
Proof. unfold lastGroup at 1. cbn [foldl]. by rewrite lastGroup_acc. Qed.

Lemma lastGroup_None (p : string) (raw : list (string * list TscErrorInfo)) :
  p ∉ map (fun kv => resolve root kv.1) raw -> lastGroup resolve root p raw = None.
Proof.
  intros Hp. destruct (lastGroup resolve root p raw) as [infos|] eqn:Hg; [|done].
  apply lastGroup_elem in Hg as (path & Hin & Hres).
  exfalso. apply Hp. apply list_elem_of_fmap. exists (path, infos). by split.
Qed.

Lemma lastGroup_NoDup (raw : list (string * list TscErrorInfo)) :
  NoDup (map (fun kv => resolve root kv.1) raw) ->
  forall kv, kv ∈ raw -> lastGroup resolve root (resolve root kv.1) raw = Some kv.2.
Proof.
  induction raw as [|kv0 raw IH]; intros Hn kv Hin; [by apply elem_of_nil in Hin|].
  simpl in Hn. apply NoDup_cons in Hn as [Hk Hn]. rewrite lastGroup_cons.
  apply elem_of_cons in Hin as [-> | Hin].
  - rewrite lastGroup_None by done. by rewrite bool_decide_eq_true_2.
  - by rewrite (IH Hn kv Hin).
Qed.

(** When distinct raw paths resolve to distinct paths the map keeps every
    parsed diagnostic, in the parser's order. *)
Lemma kept_parsed (raw : list (string * list TscErrorInfo)) :
  NoDup (map (fun kv => resolve root kv.1) raw) ->
  keptDiagnostics resolve root raw = parsedDiagnostics resolve root raw.
Proof.
  intros Hn. unfold keptDiagnostics, parsedDiagnostics. rewrite newSet_NoDup_id by done.
  rewrite map_map. f_equal. apply map_ext_in. intros kv Hin. unfold keptGroup.
  rewrite (lastGroup_NoDup raw Hn kv) by (by apply list_elem_of_In). done.
Qed.

(** What one requested file leaves of the cached records. *)
Lemma attachFile_records fuel typeErrors path tests h out tests' h' out' :
  attachFile createIndexMap fuel typeErrors path (tests, h, out) = Ok (tests', h', out') ->
  forall p info', tests' !! p = Some info' ->
    exists info, tests !! p = Some info /\ fi_file info' = fi_file info /\
      fi_definitions info' ≡ₚ fi_definitions info.
Proof.
  unfold attachFile. intros H p info' Hp.
  destruct (tests !! path) as [info|] eqn:Hinfo; [|done].
  destruct (Map_get typeErrors path) as [errors|]; simpl in *.
  - apply bind_Ok in H as (h1 & H1 & H). simplify_eq.
    destruct (decide (path = p)) as [<-|Hne].
    + rewrite lookup_insert_eq in Hp. simplify_eq. exists info. simpl.
      split; [done|]. split; [done|]. apply sortDefinitions_perm.
    + rewrite lookup_insert_ne in Hp by done. by exists info'.
  - simplify_eq. by exists info'.
Qed.

Lemma attachFile_tasks fuel typeErrors path tests h out tests' h' out' :
  attachFile createIndexMap fuel typeErrors path (tests, h, out) = Ok (tests', h', out') ->
  forall k e, errorsOf typeErrors path !! k = Some e ->
    exists info t o so, tests !! path = Some info /\
      h' !! (length h + k)%nat = Some t /\
      task_type t = TypecheckT /\ task_file t = Some (fi_file info) /\
      task_suite t = Some o /\
      o ∈ fi_file info :: map def_task (fi_definitions info) /\
      h' !! o = Some so /\ (length h + k)%nat ∈ task_tasks so /\
      task_id t = pretty k /\ task_name t = "error expect " +:+ pretty (k + 1)%nat.
Proof.
  unfold attachFile, errorsOf. intros H k e Hk.
  destruct (tests !! path) as [info|] eqn:Hinfo; [|done].
  destruct (Map_get typeErrors path) as [errors|]; simpl in *; [|done].
  apply bind_Ok in H as (h1 & H1 & H). simplify_eq.
  destruct (forEachError_tasks _ _ _ _ _ _ _ _ _ _ H1 _ _ Hk)
    as (t & o & so & Ht & Hty & Hf & Hsu & Ho & Hso & Hin & Hi & Hn).
  exists info, t, o, so. split; [done|]. split; [done|]. split; [done|]. split; [done|].
  split; [done|]. split; [|done].
  by rewrite <- (sortDefinitions_perm (fi_definitions info)).
Qed.

(** A requested file only appends to the [tasks] of the objects that
    existed before, and so do the files after it. *)
Lemma attachFile_grows fuel typeErrors path tests h out tests' h' out' :
  attachFile createIndexMap fuel typeErrors path (tests, h, out) = Ok (tests', h', out') ->
  forall (r : nat) t, h !! r = Some t ->
    exists t', h' !! r = Some t' /\ keepsIdentity t t' /\
               task_tasks t `prefix_of` task_tasks t'.
Proof.
  unfold attachFile. intros H r t Ht.
  destruct (tests !! path) as [info|] eqn:Hinfo; [|done].
  destruct (Map_get typeErrors path) as [errors|]; simpl in *.
  - apply bind_Ok in H as (h1 & H1 & H). simplify_eq.
    by eapply forEachError_grows.
  - simplify_eq. exists t. split; [done|]. split; [apply keepsIdentity_refl|done].
Qed.

Lemma forEachTestFile_grows fuel typeErrors : forall testFiles tests h out tests' h' out',
  forEachTestFile createIndexMap fuel typeErrors testFiles (tests, h, out)
    = Ok (tests', h', out') ->
  forall (r : nat) t, h !! r = Some t ->
    exists t', h' !! r = Some t' /\ keepsIdentity t t' /\
               task_tasks t `prefix_of` task_tasks t'.
Proof.
  induction testFiles as [|path testFiles IH];
    intros tests h out tests' h' out' H r t Ht; simpl in H.
  - simplify_eq. exists t. split; [done|]. split; [apply keepsIdentity_refl|done].
  - apply bind_Ok in H as ([[tests1 h1] out1] & H1 & H).
    destruct (attachFile_grows _ _ _ _ _ _ _ _ _ H1 _ _ Ht) as (t1 & Ht1 & Hid1 & Hpre1).
    destruct (IH _ _ _ _ _ _ H _ _ Ht1) as (t' & Ht' & Hid' & Hpre').
    exists t'. split; [done|]. split; [by eapply keepsIdentity_trans|by etrans].
Qed.

(** The synthetic tasks of the requested files lie one file after the
    other, in the order of the requested files, each with the file object
    of its file and held by an object of that file. *)
Lemma forEachTestFile_tasks fuel typeErrors : forall testFiles tests h out tests' h' out',
  forEachTestFile createIndexMap fuel typeErrors testFiles (tests, h, out)
    = Ok (tests', h', out') ->
  forall i p k e, testFiles !! i = Some p -> errorsOf typeErrors p !! k = Some e ->
    let x := (length h +
              sum_list (map (fun q => length (errorsOf typeErrors q)) (take i testFiles)) +
              k)%nat in
    exists info t o so, tests !! p = Some info /\
      h' !! x = Some t /\
      task_type t = TypecheckT /\ task_file t = Some (fi_file info) /\
      task_suite t = Some o /\
      o ∈ fi_file info :: map def_task (fi_definitions info) /\
      h' !! o = Some so /\ x ∈ task_tasks so /\
      task_id t = pretty k /\ task_name t = "error expect " +:+ pretty (k + 1)%nat.
Proof.
  induction testFiles as [|path testFiles IH];
    intros tests h out tests' h' out' H i p k e Hi Hk; [done|].
  cbn [forEachTestFile] in H. apply bind_Ok in H as ([[tests1 h1] out1] & H1 & H).
  destruct i as [|i]; simpl in Hi.
  - simplify_eq.
    destruct (attachFile_tasks _ _ _ _ _ _ _ _ _ H1 _ _ Hk)
      as (info & t & o & so & Hinfo & Ht & Hty & Hfile & Hsu & Ho & Hso & Hin & Hid & Hname).
    destruct (forEachTestFile_grows _ _ _ _ _ _ _ _ _ H _ _ Ht) as (t' & Ht' & Hid' & _).
    destruct (forEachTestFile_grows _ _ _ _ _ _ _ _ _ H _ _ Hso) as (so' & Hso' & _ & Hpre).
    exists info, t', o, so'. simpl. rewrite Nat.add_0_r. split; [done|]. split; [done|].
    destruct Hid' as (Hty' & Hi' & Hn' & _ & Hf' & Hs').
    rewrite Hty', Hi', Hn', Hf', Hs'.
    split; [done|]. split; [done|]. split; [done|]. split; [done|]. split; [done|].
    split; [|done]. by eapply elem_of_prefix.
  - pose proof (attachFile_records _ _ _ _ _ _ _ _ _ H1) as Hrec.
    apply attachFile_inv in H1 as (info0 & Hinfo0 & _ & Hlen1 & _).
    destruct (IH _ _ _ _ _ _ H i p k e Hi Hk)
      as (info1 & t & o & so & Hinfo1 & Ht & Hty & Hfile & Hsu & Ho & Hso & Hin & Hrest).
    destruct (Hrec _ _ Hinfo1) as (info & Hinfo & Hfi & Hdefs).
    assert (Hx : (length h1 +
                  sum_list (map (fun q => length (errorsOf typeErrors q)) (take i testFiles)) +
                  k)%nat =
                 (length h +
                  sum_list (map (fun q => length (errorsOf typeErrors q))
                              (take (S i) (path :: testFiles))) + k)%nat).
    { simpl. lia. }
    rewrite Hx in Ht, Hin.
    exists info, t, o, so. split; [done|]. split; [done|].
    split; [done|]. split; [by rewrite <- Hfi|]. split; [done|]. split.
    { by rewrite <- Hfi, <- Hdefs. }
    split; [done|]. split; [done|]. done.
Qed.

(** C5 (as amended): every parsed diagnostic that the map keyed by resolved
    path keeps is classified exactly one way, and the map keeps every
    parsed diagnostic when distinct raw paths resolve to distinct paths
    (under one resolved path it keeps the diagnostics of the last raw entry
    only).  The pipeline returns whenever every requested file has been
    collected and is well formed.  For every run that returns: the kept
    diagnostics whose resolved path is not requested give [sourceErrors],
    error by error and in order; those whose resolved path is requested
    each yield one new typecheck task, allocated in the store and appended
    exactly once to the tasks of one owner; the two groups add up to the
    kept diagnostics.  The [k]-th diagnostic kept for the [i]-th requested
    file yields the task allocated after those of the files before it and
    the [k] diagnostics before it; that task carries the file object of
    its file, which is the [i]-th element of [files] in the snapshot; its
    suite is that file object or the task of one of the definitions of the
    file, and the [tasks] of that suite hold it. *)
Theorem prepareResults_classifies (fuel : nat) (output : string) (st : State) :
  let raw := getRawErrsMapFromTsCompile output in
  let typeErrors :=
    (parseTscLikeOutput getRawErrsMapFromTsCompile resolve callStack root output st).1 in
  let kept := keptDiagnostics resolve root raw in
  let h0 := heap (collected collectFileTests files st) in
  (NoDup (map (fun kv => resolve root kv.1) raw) ->
   kept = parsedDiagnostics resolve root raw) /\
  (forall tests,
     _tests (collected collectFileTests files st) = Some tests ->
     collectedFiles tests h0 fuel typeErrors (newSet files) ->
     exists r st',
       prepareResults getRawErrsMapFromTsCompile resolve createIndexMap collectFileTests
         callStack root files fuel output st = Ok (r, st')) /\
  forall r st',
    prepareResults getRawErrsMapFromTsCompile resolve createIndexMap collectFileTests
      callStack root files fuel output st = Ok (r, st') ->
    exists tests ec,
      _tests (collected collectFileTests files st) = Some tests /\
      caches st' !! r = Some ec /\
      ec_sourceErrors ec = map errorOf (filter (fun d => d.1 ∉ files) kept) /\
      length (heap st') =
        (length h0 + length (filter (fun d => d.1 ∈ files) kept))%nat /\
      attachments (heap st') ≡ₚ
        attachments h0 ++ seq (length h0) (length (filter (fun d => d.1 ∈ files) kept)) /\
      (forall x, (length h0 <= x)%nat /\ (x < length (heap st'))%nat ->
         exists t, heap st' !! x = Some t /\ task_type t = TypecheckT) /\
      length kept =
        (length (filter (fun d => d.1 ∈ files) kept) + length (ec_sourceErrors ec))%nat /\
      forall i p k info,
        newSet files !! i = Some p ->
        keptGroup resolve root raw p !! k = Some info ->
        let x := (length h0 + tasksBefore resolve root raw (newSet files) i + k)%nat in
        exists info t o so,
          tests !! p = Some info /\
          ec_files ec !! i = Some (fi_file info) /\
          heap st' !! x = Some t /\
          task_type t = TypecheckT /\ task_file t = Some (fi_file info) /\
          task_suite t = Some o /\
          o ∈ fi_file info :: map def_task (fi_definitions info) /\
          heap st' !! o = Some so /\ x ∈ task_tasks so /\
          task_id t = pretty k /\ task_name t = "error expect " +:+ pretty (k + 1)%nat.
Proof.
  intros raw typeErrors kept h0.
  assert (Hte : typeErrors =
            map (fun p => (p, map (wrapped p) (keptGroup resolve root raw p)))
                (newSet (map (fun kv => resolve root kv.1) raw)))
    by apply typeErrors_kept.
  split; [apply kept_parsed|].
  pose proof (prepareResults_partition getRawErrsMapFromTsCompile resolve createIndexMap
                collectFileTests callStack root files fuel output st) as Hp.
  cbv zeta in Hp. fold typeErrors h0 in Hp. destruct Hp as [Hret Hcls].
  split; [exact Hret|].
  intros r st' H.
  destruct (Hcls r st' H) as (ec & Hec & Hsrc & Hlen & Hperm & Hty & _).
  apply prepareResults_inv in H
    as (tests & tests' & out & Htests & Hloop & -> & Hcaches & _).
  fold typeErrors h0 in Hloop, Hcaches.
  assert (Hout : ec_files ec = out).
  { rewrite Hcaches, lookup_app_r, Nat.sub_diag in Hec by done.
    simpl in Hec. by simplify_eq. }
  assert (Hunder : length (underTest files typeErrors) =
                   length (filter (fun d => d.1 ∈ files) kept)).
  { rewrite Hte. apply underTest_groups. }
  assert (Hsource : map se_error (notUnderTest files typeErrors) =
                    map errorOf (filter (fun d => d.1 ∉ files) kept)).
  { rewrite Hte. apply notUnderTest_groups. }
  exists tests, ec.
  split; [done|]. split; [done|]. split; [by rewrite Hsrc|].
  split; [by rewrite <- Hunder|]. split; [by rewrite <- Hunder|]. split; [done|]. split.
  { rewrite Hsrc, Hsource, length_map. apply filter_split_length. }
  intros i p k info Hi Hk x.
  assert (He : errorsOf typeErrors p !! k = Some (wrapped p info)).
  { unfold typeErrors. rewrite parseTscLikeOutput_get, list_lookup_fmap.
    fold raw. by rewrite Hk. }
  assert (Hx : x = (length h0 +
                    sum_list (map (fun q => length (errorsOf typeErrors q))
                                (take i (newSet files))) + k)%nat).
  { unfold x, tasksBefore. f_equal. f_equal. f_equal. apply map_ext. intros q.
    unfold typeErrors. by rewrite parseTscLikeOutput_get, length_map. }
  destruct (forEachTestFile_tasks _ _ _ _ _ _ _ _ _ Hloop i p k _ Hi He)
    as (info0 & t & o & so & Hinfo0 & Ht & Hty' & Hfile & Hsu & Ho & Hso & Hin & Hrest).
  rewrite <- Hx in Ht, Hin.
  apply forEachTestFile_inv in Hloop as (fs & Hfs & Hfsout & _).
  destruct (Forall2_lookup_l _ _ _ _ _ Hfs Hi) as (f' & Hf' & Hrel).
  simpl in Hrel. rewrite Hinfo0 in Hrel. simpl in Hrel.
  assert (f' = fi_file info0) as -> by congruence.
  exists info0, t, o, so. split; [done|]. split; [by rewrite Hout, Hfsout|].
  split; [done|]. split; [done|]. split; [done|]. split; [done|]. split; [done|].
  split; [done|]. split; [done|]. done.
Qed.

End ClassifyParsed.

Lemma prepareResults_classifies_witness :
  let output := "a.test-d.ts(2,3): error TS2322" in
  let raw := Sample.getRawErrsMapFromTsCompile output in
  let typeErrors :=
    (parseTscLikeOutput Sample.getRawErrsMapFromTsCompile Sample.resolve Sample.callStack
       Sample.root output Sample.state0).1 in
  let kept := keptDiagnostics Sample.resolve Sample.root raw in
  let h0 := heap (collected Sample.collectFileTests Sample.files Sample.state0) in
  NoDup (map (fun kv => Sample.resolve Sample.root kv.1) raw) /\
  kept = parsedDiagnostics Sample.resolve Sample.root raw /\
  length kept = 3%nat /\
  exists tests0 r st',
    _tests (collected Sample.collectFileTests Sample.files Sample.state0) = Some tests0 /\
    collectedFiles tests0 h0 3 typeErrors (newSet Sample.files) /\
    Sample.prepare 3 output Sample.state0 = Ok (r, st') /\
    exists tests ec,
      _tests (collected Sample.collectFileTests Sample.files Sample.state0) = Some tests /\
      caches st' !! r = Some ec /\
      ec_sourceErrors ec = map errorOf (filter (fun d => d.1 ∉ Sample.files) kept) /\
      length (heap st') =
        (length h0 + length (filter (fun d => d.1 ∈ Sample.files) kept))%nat /\
      attachments (heap st') ≡ₚ
        attachments h0 ++
        seq (length h0) (length (filter (fun d => d.1 ∈ Sample.files) kept)) /\
      (forall x, (length h0 <= x)%nat /\ (x < length (heap st'))%nat ->
         exists t, heap st' !! x = Some t /\ task_type t = TypecheckT) /\
      length kept =
        (length (filter (fun d => d.1 ∈ Sample.files) kept) +
         length (ec_sourceErrors ec))%nat /\
      forall i p k info,
        newSet Sample.files !! i = Some p ->
        keptGroup Sample.resolve Sample.root raw p !! k = Some info ->
        let x := (length h0 +
                  tasksBefore Sample.resolve Sample.root raw (newSet Sample.files) i +
                  k)%nat in
        exists info t o so,
          tests !! p = Some info /\
          ec_files ec !! i = Some (fi_file info) /\
          heap st' !! x = Some t /\
          task_type t = TypecheckT /\ task_file t = Some (fi_file info) /\
          task_suite t = Some o /\
          o ∈ fi_file info :: map def_task (fi_definitions info) /\
          heap st' !! o = Some so /\ x ∈ task_tasks so /\
          task_id t = pretty k /\ task_name t = "error expect " +:+ pretty (k + 1)%nat.
Proof.
  intros output raw typeErrors kept h0.
  assert (Hn : NoDup (map (fun kv => Sample.resolve Sample.root kv.1) raw)).
  { vm_compute. apply NoDup_cons. split; [|apply NoDup_singleton].
    intros Hin. apply list_elem_of_singleton in Hin. discriminate Hin. }
  destruct sample_collected as (tests0 & Htests & Hc).
  destruct (prepareResults_classifies Sample.getRawErrsMapFromTsCompile Sample.resolve
              Sample.createIndexMap Sample.collectFileTests Sample.callStack Sample.root
              Sample.files 3 output Sample.state0) as (Hkept & Hret & Hcls).
  destruct (Hret tests0 Htests Hc) as (r & st' & H).
  split; [exact Hn|]. split; [exact (Hkept Hn)|]. split; [reflexivity|].
  exists tests0, r, st'. split; [exact Htests|]. split; [exact Hc|]. split; [exact H|].
  exact (Hcls r st' H).
Defined.

(** C5, counterexample: with two raw paths that resolve to the same
    requested file, the diagnostic parsed under the first path is
    classified in no way: both parsed diagnostics belong to the requested
    file, the run returns, and the store gains one synthetic task only, the
    one of the second diagnostic, while [sourceErrors] stays empty. *)
Lemma parsed_diagnostic_dropped :
  let raw := Collision.getRawErrsMapFromTsCompile "" in
  exists r st' ec t,
    prepareResults Collision.getRawErrsMapFromTsCompile Collision.resolve
      Sample.createIndexMap Sample.collectFileTests Sample.callStack Sample.root
      Sample.files 3 "" Sample.state0 = Ok (r, st') /\
    caches st' !! r = Some ec /\
    parsedDiagnostics Collision.resolve Sample.root raw =
      [(Sample.path, Collision.first); (Sample.path, Collision.second)] /\
    Sample.path ∈ Sample.files /\
    length (heap st') = S (length (heap Sample.state0)) /\
    heap st' !! length (heap Sample.state0) = Some t /\
    task_result t =
      Some (mkTaskResult Fail (Some (errorOf (Sample.path, Collision.second)))) /\
    ec_sourceErrors ec = [].
Proof.
  intros raw. eexists _, _, _, _.
  split; [vm_compute; reflexivity|]. split; [vm_compute; reflexivity|].
  split; [vm_compute; reflexivity|]. split; [apply elem_of_cons; by left|].
  split; [vm_compute; reflexivity|]. split; [vm_compute; reflexivity|].
  split; [vm_compute; reflexivity|]. reflexivity.
Qed.

(** * More on [collectTests] and [prepareResults] *)

Lemma newSet_fold_app (l : list string) : forall s,
  foldl Set_add s l = s ++ filter (fun y => y ∉ s) (newSet l).
Proof.
  unfold newSet. induction l as [|y l IH] using rev_ind; intros s.
  - simpl. by rewrite app_nil_r.
  - rewrite !foldl_app. simpl. rewrite IH. unfold Set_add.
    set (N := foldl Set_add [] l) in *.
    destruct (decide (y ∈ s)) as [Hs|Hs].
    + rewrite (bool_decide_eq_true_2 (y ∈ s ++ _)) by (apply elem_of_app; by left).
      case_bool_decide; [done|].
      rewrite filter_app, filter_cons, decide_False, filter_nil, app_nil_r; [done|].
      by intros ?.
    + destruct (decide (y ∈ N)) as [HN|HN].
      * rewrite (bool_decide_eq_true_2 (y ∈ N)) by done.
        rewrite bool_decide_eq_true_2; [done|].
        apply elem_of_app. right. by apply list_elem_of_filter.
      * rewrite (bool_decide_eq_false_2 (y ∈ N)) by done.
        rewrite bool_decide_eq_false_2.
        -- rewrite filter_app, filter_cons, decide_True, filter_nil by done.
           by rewrite app_assoc.
        -- rewrite elem_of_app, list_elem_of_filter. tauto.
Qed.

Lemma newSet_cons (x : string) (l : list string) :
  newSet (x :: l) = x :: filter (fun y => y <> x) (newSet l).
Proof.
  unfold newSet at 1. simpl. unfold Set_add at 2. simpl.
  rewrite newSet_fold_app. simpl. f_equal.
  apply list_filter_iff. intros y. rewrite list_elem_of_singleton. done.
Qed.

Section MorePipelineFacts.

Variable getRawErrsMapFromTsCompile : string -> list (string * list TscErrorInfo).
Variable resolve : string -> string -> string.
Variable createIndexMap : string -> gmap string Z.
Variable collectFileTests : string -> list Task -> option FileInformation * list Task.
Variable callStack : list string.
Variable root : string.
Variable files : list string.

Lemma collectAll_length : forall paths h,
  length (collectAll collectFileTests paths h).1 = length paths.
Proof.
  induction paths as [|p paths IH]; intros h; simpl; [done|].
  destruct (collectFileTests p h) as [data h1]. specialize (IH h1).
  destruct (collectAll collectFileTests paths h1) as [datas h2]. simpl in *. lia.
Qed.

Lemma collect_fold_lookup (p : string) : forall datas (acc : gmap string FileInformation),
  foldl (fun acc data =>
           match data with
           | None => acc
           | Some d => <[fi_filepath d := d]> acc
           end) acc datas !! p =
  match last (filter (fun d => fi_filepath d = p) (collectedData datas)) with
  | Some d => Some d
  | None => acc !! p
  end.
Proof.
  unfold collectedData.
  induction datas as [|[d|] datas IH]; intros acc; simpl; [done| |apply IH].
  rewrite IH, filter_cons. destruct (decide (fi_filepath d = p)) as [Hp|Hp].
  - rewrite last_cons. destruct (last _); [done|]. subst p. by rewrite lookup_insert_eq.
  - destruct (last _); [done|]. by rewrite lookup_insert_ne.
Qed.

(** X7: [collectTests] asks for every requested file, in order and with
    duplicates, drops the nulls and keys each record by the path the record
    itself carries: the entry of a path is the last collected record with
    that path and is absent when there is none.  It replaces [_tests] by the
    new record and leaves the published snapshot alone. *)
Theorem collectTests_entries (st : State) (p : string) :
  let datas := (collectAll collectFileTests files (heap st)).1 in
  let tests := (collectTests collectFileTests files st).1 in
  let st' := (collectTests collectFileTests files st).2 in
  length datas = length files /\
  tests !! p = last (filter (fun d => fi_filepath d = p) (collectedData datas)) /\
  (tests !! p = None <-> forall d, Some d ∈ datas -> fi_filepath d <> p) /\
  _tests st' = Some tests /\
  heap st' = (collectAll collectFileTests files (heap st)).2 /\
  _result st' = _result st /\ caches st' = caches st /\
  stackTraceLimit st' = stackTraceLimit st.
Proof.
  intros datas tests st'.
  assert (Hlookup : tests !! p =
            last (filter (fun d => fi_filepath d = p) (collectedData datas))).
  { unfold tests, datas, collectTests.
    destruct (collectAll collectFileTests files (heap st)) as [ds h]. simpl.
    rewrite collect_fold_lookup. by destruct (last _). }
  split; [apply collectAll_length|]. split; [done|]. split.
  - rewrite Hlookup, last_None. split.
    + intros Hnil d Hd Hp.
      assert (Hin : d ∈ filter (fun d => fi_filepath d = p) (collectedData datas)).
      { apply list_elem_of_filter. split; [done|].
        unfold collectedData. apply list_elem_of_omap. by exists (Some d). }
      rewrite Hnil in Hin. by apply elem_of_nil in Hin.
    + intros Hnone.
      destruct (filter (fun d => fi_filepath d = p) (collectedData datas)) as [|d l] eqn:Hf;
        [done|].
      assert (Hin : d ∈ filter (fun d => fi_filepath d = p) (collectedData datas))
        by (rewrite Hf; apply elem_of_cons; by left).
      apply list_elem_of_filter in Hin as [Hp Hin].
      unfold collectedData in Hin. apply list_elem_of_omap in Hin as (o & Ho & Hd).
      simpl in Hd. subst o. by destruct (Hnone d Ho).
  - unfold st', tests, collectTests.
    by destruct (collectAll collectFileTests files (heap st)) as [ds h].
Qed.

(** X8: with [_tests] null, as a detected rerun leaves it, [prepareResults]
    is [collectTests] followed by [prepareResults]: same outcome, same
    snapshot, same final state. *)
Theorem prepareResults_collects_when_null (fuel : nat) (output : string) (st : State) :
  _tests st = None ->
  prepareResults getRawErrsMapFromTsCompile resolve createIndexMap collectFileTests
    callStack root files fuel output st =
  prepareResults getRawErrsMapFromTsCompile resolve createIndexMap collectFileTests
    callStack root files fuel output (collectTests collectFileTests files st).2.
Proof.
  intros Hnull. unfold prepareResults.
  pose proof (parseTscLikeOutput_spec getRawErrsMapFromTsCompile resolve callStack root
                output st) as (Hst & _).
  pose proof (parseTscLikeOutput_spec getRawErrsMapFromTsCompile resolve callStack root
                output (collectTests collectFileTests files st).2) as (Hst2 & _).
  assert (Hte : (parseTscLikeOutput getRawErrsMapFromTsCompile resolve callStack root
                   output (collectTests collectFileTests files st).2).1 =
                (parseTscLikeOutput getRawErrsMapFromTsCompile resolve callStack root
                   output st).1).
  { unfold parseTscLikeOutput, collectTests.
    destruct (collectAll collectFileTests files (heap st)) as [ds h]. simpl.
    by destruct (resolveErrors _ _ _ _ _ _). }
  destruct (parseTscLikeOutput _ _ _ _ output st) as [te st1].
  destruct (parseTscLikeOutput _ _ _ _ output (collectTests collectFileTests files st).2)
    as [te2 st2].
  simpl in *. subst. rewrite Hnull.
  unfold collectTests.
  by destruct (collectAll collectFileTests files (heap st)) as [ds h].
Qed.



Lemma sortedInfo_idem info : sortedInfo (sortedInfo info) = sortedInfo info.
Proof.
  unfold sortedInfo, set_definitions. simpl.
  by rewrite sortDefinitions_sorted_id by apply sortDefinitions_sorted.
Qed.

Lemma forEachTestFile_tests fuel typeErrors : forall testFiles tests h out tests' h' out',
  forEachTestFile createIndexMap fuel typeErrors testFiles (tests, h, out)
    = Ok (tests', h', out') ->
  forall p,
    tests' !! p =
      if bool_decide (p ∈ testFiles /\ is_Some (Map_get typeErrors p))
      then sortedInfo <$> tests !! p else tests !! p.
Proof.
  induction testFiles as [|path testFiles IH]; intros tests h out tests' h' out' H p.
  - simpl in H. simplify_eq. rewrite bool_decide_eq_false_2; [done|].
    intros [Hp _]. by apply elem_of_nil in Hp.
  - cbn [forEachTestFile] in H. apply bind_Ok in H as ([[tests1 h1] out1] & H1 & H).
    rewrite (IH _ _ _ _ _ _ H p).
    assert (Ht1 : tests1 !! p =
              if bool_decide (p = path /\ is_Some (Map_get typeErrors p))
              then sortedInfo <$> tests !! p else tests !! p).
    { unfold attachFile in H1. destruct (tests !! path) as [info|] eqn:Hinfo; [|done].
      destruct (Map_get typeErrors path) as [errors|] eqn:Hget; simpl in H1.
      - apply bind_Ok in H1 as (h2 & _ & H1). simplify_eq.
        destruct (decide (p = path)) as [->|Hne].
        + rewrite lookup_insert_eq, bool_decide_eq_true_2, Hinfo; [done|].
          split; [done|]. by rewrite Hget.
        + rewrite lookup_insert_ne by done.
          rewrite bool_decide_eq_false_2; [done|]. by intros [? _].
      - simplify_eq. rewrite bool_decide_eq_false_2; [done|].
        intros [-> [x Hx]]. congruence. }
    rewrite Ht1.
    destruct (decide (is_Some (Map_get typeErrors p))) as [Hsome|Hnone].
    + destruct (decide (p = path)) as [->|Hne].
      * rewrite (bool_decide_eq_true_2 (path = path /\ _)) by done.
        rewrite (bool_decide_eq_true_2 (path ∈ path :: testFiles /\ _))
          by (split; [by left|done]).
        destruct (bool_decide (path ∈ testFiles /\ _)); destruct (tests !! path);
          simpl; rewrite ?sortedInfo_idem; done.
      * rewrite (bool_decide_eq_false_2 (p = path /\ _)) by (by intros [? _]).
        destruct (decide (p ∈ testFiles)) as [Hin|Hout].
        -- rewrite !bool_decide_eq_true_2; [done|split; [by right|done]|done].
        -- rewrite !bool_decide_eq_false_2; [done| |by intros [? _]].
           rewrite elem_of_cons. intros [[?|?] _]; done.
    + rewrite !bool_decide_eq_false_2; [done|by intros [_ ?]..].
Qed.

(** X10: [prepareResults] sorts the cached definitions in place, as a side
    effect that outlives the call: afterwards the entry of every requested
    file that has an entry in the map of diagnostics (an empty list of
    diagnostics included) holds its definitions by descending start, with
    nothing else of the record changed, and all other entries of [_tests]
    are the ones it started from. *)
Theorem prepareResults_sorts_cached_definitions (fuel : nat) (output : string)
    (st st' : State) (r : nat) :
  prepareResults getRawErrsMapFromTsCompile resolve createIndexMap collectFileTests
    callStack root files fuel output st = Ok (r, st') ->
  let typeErrors :=
    (parseTscLikeOutput getRawErrsMapFromTsCompile resolve callStack root output st).1 in
  exists tests tests',
    _tests (collected collectFileTests files st) = Some tests /\
    _tests st' = Some tests' /\
    forall p,
      tests' !! p =
        if bool_decide (p ∈ files /\ is_Some (Map_get typeErrors p))
        then sortedInfo <$> tests !! p else tests !! p.
Proof.
  intros H typeErrors.
  apply prepareResults_inv in H as (tests & tests' & out & Ht & Hloop & _ & _ & Ht' & _).
  exists tests, tests'. split; [done|]. split; [done|]. intros p.
  rewrite (forEachTestFile_tests _ _ _ _ _ _ _ _ _ Hloop p).
  fold typeErrors.
  rewrite (bool_decide_ext (p ∈ newSet files /\ is_Some (Map_get typeErrors p))
             (p ∈ files /\ is_Some (Map_get typeErrors p))); [done|].
  by rewrite newSet_elem.
Qed.

(** X11: the [files] of a snapshot list each distinct requested file once,
    in the order of its first request: the list follows [new Set(files)],
    which keeps the first occurrence of every path and drops the later
    ones. *)
Theorem snapshot_files_in_first_request_order (fuel : nat) (output : string)
    (st st' : State) (r : nat) :
  prepareResults getRawErrsMapFromTsCompile resolve createIndexMap collectFileTests
    callStack root files fuel output st = Ok (r, st') ->
  exists tests ec,
    _tests (collected collectFileTests files st) = Some tests /\
    caches st' !! r = Some ec /\
    Forall2 (fun p f => fi_file <$> tests !! p = Some f) (newSet files) (ec_files ec) /\
    NoDup (newSet files) /\
    (forall p, p ∈ newSet files <-> p ∈ files) /\
    (forall x l, newSet (x :: l) = x :: filter (fun y => y <> x) (newSet l)).
Proof.
  intros H. apply prepareResults_files in H as (tests & ec & Ht & Hec & Hall).
  exists tests, ec. split; [done|]. split; [done|]. split; [done|].
  split; [apply newSet_NoDup|]. split; [apply newSet_elem|apply newSet_cons].
Qed.

End MorePipelineFacts.

(** * More on the stdout handler and [start] *)

Lemma joined_app (a b : list string) : joined (a ++ b) = joined a +:+ joined b.
Proof.
  unfold joined. induction a as [|x a IH]; simpl; [done|]. by rewrite IH, append_assoc.
Qed.

(** Without [--watch] a chunk is appended to the buffer and nothing else
    happens. *)
Lemma feed_once_eq (chunks : list string) (s : Session) :
  feed false chunks s =
    mkSession (tc s) (output s +:+ joined chunks) (rerunTriggered s) (pending s) (events s).
Proof.
  revert s. induction chunks as [|c chunks IH]; intros s.
  - unfold joined. simpl. rewrite append_nil_r. by destruct s.
  - change (feed false (c :: chunks) s) with (feed false chunks (onData false c s)).
    rewrite IH. unfold onData. simpl. unfold joined. simpl. by rewrite append_assoc.
Qed.

(** X12: without [--watch] the handler only accumulates the output: the
    buffer grows by the chunks and nothing else changes, whatever the
    chunks contain; no rerun is signalled, nothing is cleared, and no
    pipeline run is started, even when the output carries both markers. *)
Theorem feed_one_shot_accumulates (chunks : list string) (s : Session) :
  feed false chunks s =
    mkSession (tc s) (output s +:+ joined chunks) (rerunTriggered s) (pending s) (events s).
Proof. apply feed_once_eq. Qed.

(** X13: in watch mode no text of the output is lost or used twice: the
    buffers handed to [prepareResults], in order, followed by the current
    buffer, are exactly the earlier buffer followed by the chunks received.
    Every buffer handed over matches the pass-complete pattern, at most one
    is handed over per chunk, and the buffer that remains after a chunk
    does not match it. *)
Theorem feed_watch_partitions_output : forall (chunks : list string) (s : Session),
  exists jobs,
    pending (feed true chunks s) = pending s ++ jobs /\
    joined jobs +:+ output (feed true chunks s) = output s +:+ joined chunks /\
    Forall (fun job => passComplete job = true) jobs /\
    (chunks <> [] -> passComplete (output (feed true chunks s)) = false) /\
    (length jobs <= length chunks)%nat.
Proof.
  induction chunks as [|c chunks IH]; intros s.
  - exists []. unfold joined. simpl. rewrite app_nil_r, append_nil_r.
    split; [done|]. split; [done|]. split; [constructor|]. split; [done|lia].
  - change (feed true (c :: chunks) s) with (feed true chunks (onData true c s)).
    destruct (IH (onData true c s)) as (jobs & Hp & Hj & Hall & Hout & Hlen).
    set (s1 := onData true c s) in *.
    assert (H1 : (passComplete (output s +:+ c) = true /\
                  pending s1 = pending s ++ [output s +:+ c] /\ output s1 = "") \/
                 (passComplete (output s +:+ c) = false /\
                  pending s1 = pending s /\ output s1 = output s +:+ c)).
    { unfold s1. rewrite onData_watch. simpl.
      destruct (passComplete (output s +:+ c)); [by left|by right]. }
    assert (Hlast : passComplete (output s1) = false).
    { destruct H1 as [(_ & _ & ->) | (? & _ & ->)]; done. }
    assert (Hout' : passComplete (output (feed true chunks s1)) = false).
    { destruct chunks as [|c' chunks]; [done|by apply Hout]. }
    destruct H1 as [(Hdone & Hp1 & Ho1) | (Hdone & Hp1 & Ho1)]; rewrite Hp1 in Hp;
      rewrite Ho1 in Hj.
    + exists ((output s +:+ c) :: jobs). split; [by rewrite Hp, <- app_assoc|].
      split; [|split; [by constructor|split; [done|simpl; lia]]].
      rewrite append_nil_l in Hj.
      unfold joined in *. simpl. by rewrite !append_assoc, Hj.
    + exists jobs. split; [done|]. split; [|split; [done|split; [done|simpl; lia]]].
      rewrite Hj. unfold joined. simpl. by rewrite append_assoc.
Qed.


Section MoreSessionFacts.

Variable getRawErrsMapFromTsCompile : string -> list (string * list TscErrorInfo).
Variable resolve : string -> string -> string.
Variable createIndexMap : string -> gmap string Z.
Variable collectFileTests : string -> list Task -> option FileInformation * list Task.
Variable callStack : list string.
Variable root : string.
Variable files : list string.

(** X14: [start] without [--watch] runs the pipeline exactly once, over the
    concatenation of everything the process wrote, so the outcome does not
    depend on how the output was cut into chunks.  When it returns, the
    callbacks invoked are [onParseStart] and then [onParseEnd] with the new
    snapshot, which is what [getResult] returns from then on; the rerun
    callback is never invoked and no pipeline run is left pending. *)
Theorem startOnce_runs_pipeline_once (fuel : nat) (chunks : list string) (st : State) :
  startOnce getRawErrsMapFromTsCompile resolve createIndexMap collectFileTests
    callStack root files fuel chunks st =
  (r <- prepareResults getRawErrsMapFromTsCompile resolve createIndexMap collectFileTests
          callStack root files fuel (joined chunks) st ;;
   Ok (mkSession (set_result_ref r.2 r.1) (joined chunks) false []
                 [OnParseStart; OnParseEnd r.1])) /\
  (forall chunks', joined chunks' = joined chunks ->
     startOnce getRawErrsMapFromTsCompile resolve createIndexMap collectFileTests
       callStack root files fuel chunks' st =
     startOnce getRawErrsMapFromTsCompile resolve createIndexMap collectFileTests
       callStack root files fuel chunks st) /\
  (forall s',
     startOnce getRawErrsMapFromTsCompile resolve createIndexMap collectFileTests
       callStack root files fuel chunks st = Ok s' ->
     events s' = [OnParseStart; OnParseEnd (_result (tc s'))] /\
     reruns (events s') = 0%nat /\ pending s' = [] /\
     _result (tc s') = length (caches st) /\
     is_Some (getResult (tc s'))).
Proof.
  assert (Heq : forall cs,
    startOnce getRawErrsMapFromTsCompile resolve createIndexMap collectFileTests
      callStack root files fuel cs st =
    (r <- prepareResults getRawErrsMapFromTsCompile resolve createIndexMap collectFileTests
            callStack root files fuel (joined cs) st ;;
     Ok (mkSession (set_result_ref r.2 r.1) (joined cs) false []
                   [OnParseStart; OnParseEnd r.1]))).
  { intros cs. unfold startOnce. rewrite feed_once_eq. simpl.
    by rewrite append_nil_l. }
  split; [apply Heq|]. split.
  - intros chunks' Hj. by rewrite !Heq, Hj.
  - intros s' H. rewrite Heq in H. apply bind_Ok in H as ([r st1] & Hprep & H).
    simplify_eq. simpl.
    apply prepareResults_publishes in Hprep as (-> & _ & ec & Hc).
    split; [done|]. split; [done|]. split; [done|]. split; [done|].
    unfold getResult. simpl. rewrite Hc, lookup_app_r, Nat.sub_diag; [by eexists|done].
Qed.

End MoreSessionFacts.

(** X15: while a pass stays open, chunk arrival changes the checker state at
    most once: at the first chunk that brings the rerun marker into the
    buffer, if the flag was clear, [_tests] becomes null and the published
    snapshot is emptied; in every other case, and for all other chunks, the
    state, the task store included, is left as it was. *)
Theorem feed_open_clears_once : forall (chunks : list string) (c : string) (s : Session),
  passOpen s (c :: chunks) ->
  tc (feed true (c :: chunks) s) =
    if negb (rerunTriggered s) && includes rerunMarker (buffer s (c :: chunks))
    then set_tests (clearResult (tc s)) None
    else tc s.
Proof.
  induction chunks as [|c' chunks IH]; intros c s Hopen.
  - pose proof (Hopen 1%nat ltac:(simpl; lia)) as H1.
    unfold feed, buffer in *. simpl in H1 |- *. rewrite append_nil_r in H1 |- *.
    rewrite onData_watch. simpl. rewrite H1, (andb_comm (negb _)).
    by destruct (includes rerunMarker _ && negb _).
  - pose proof (Hopen 1%nat ltac:(simpl; lia)) as H1.
    destruct (feed_open [] c s) as (Ho1 & Hf1 & _).
    { intros k Hk. simpl in Hk. assert (k = 1%nat) as -> by lia. done. }
    change (feed true [c] s) with (onData true c s) in Ho1, Hf1.
    change (feed true (c :: c' :: chunks) s)
      with (feed true (c' :: chunks) (onData true c s)).
    set (s1 := onData true c s) in *.
    assert (Htc1 : tc s1 = if negb (rerunTriggered s) && includes rerunMarker (buffer s [c])
                            then set_tests (clearResult (tc s)) None else tc s).
    { unfold s1, buffer in *. simpl in H1 |- *. rewrite append_nil_r in H1 |- *.
      rewrite onData_watch. simpl. rewrite H1, (andb_comm (negb _)).
      by destruct (includes rerunMarker _ && negb _). }
    assert (Hbuf : forall l, buffer s1 l = buffer s (c :: l)).
    { intros l. unfold buffer in *. simpl in *. rewrite Ho1.
      by rewrite append_nil_r, append_assoc. }
    rewrite IH by (intros k Hk; rewrite Hbuf; apply (Hopen (S k)); simpl in *; lia).
    rewrite Hbuf, Hf1, Htc1.
    assert (Hmono : includes rerunMarker (buffer s [c]) = true ->
                    includes rerunMarker (buffer s (c :: c' :: chunks)) = true).
    { intros Hi. unfold buffer in *. simpl in *. rewrite append_nil_r in Hi.
      rewrite <- append_assoc. by apply includes_append. }
    destruct (rerunTriggered s); simpl; [done|].
    destruct (includes rerunMarker (buffer s [c])) eqn:Hi; simpl.
    + by rewrite Hmono.
    + done.
Qed.

(** * The loop over a file's errors, seen from the objects that existed before *)

Lemma onChain_dec (h : list Task) (a : nat) n :
  chain h a n -> forall b, onChain h a b \/ ~ onChain h a b.
Proof.
  induction 1 as [a t Ht Hs | a t s n Ht Hs _ IH]; intros b.
  - destruct (decide (b = a)) as [->|Hne]; [left; constructor|].
    right. intros Hb. inversion Hb as [|? t' s' ? Ht' Hs' _]; subst; [done|congruence].
  - destruct (decide (b = a)) as [->|Hne]; [left; constructor|].
    destruct (IH b) as [Hy|Hn]; [left; by eapply onChain_up|].
    right. intros Hb. inversion Hb as [|? t' s' ? Ht' Hs' Hb']; subst; [done|].
    apply Hn. by assert (s = s') as -> by congruence.
Qed.

Lemma onChain_back (h h' : list Task) :
  (forall r t, h !! r = Some t -> exists t', h' !! r = Some t' /\ keepsIdentity t t') ->
  forall a n, chain h a n -> forall b, onChain h' a b -> onChain h a b.
Proof.
  intros Hkeep a n. induction 1 as [a t Ht Hs | a t s n Ht Hs _ IH]; intros b Hb;
    destruct (Hkeep _ _ Ht) as (t' & Ht' & Hid);
    destruct Hid as (_&_&_&_&_&Hsu).
  - inversion Hb as [|? t0 s0 ? Ht0 Hs0 Hb0]; [constructor|]. congruence.
  - inversion Hb as [|? t0 s0 ? Ht0 Hs0 Hb0]; [constructor|].
    assert (s0 = s) by congruence. subst.
    eapply onChain_up; [done|done|]. by apply IH.
Qed.

Section LoopEffect.

Variable fuel : nat.
Variable path : string.
Variable file : nat.
Variable defs : list LocalCallDefinition.
Variable mc : option (list Mapping).
Variable im : gmap string Z.

(** One step, seen from an object that existed before it. *)
Lemma attachError_effect idx e (h : list Task) pos s n :
  lookupPosition mc (se_originalError e) path = Ok pos ->
  h !! owner defs im file pos = Some s ->
  chain h (owner defs im file pos) n -> (n <= fuel)%nat ->
  exists h',
    attachError fuel path file defs mc im idx e h = Ok h' /\
    length h' = S (length h) /\
    forall (r : nat) t, h !! r = Some t ->
      exists t', h' !! r = Some t' /\ keepsIdentity t t' /\
        task_tasks t' = task_tasks t ++
                        (if decide (r = owner defs im file pos) then [length h] else []) /\
        (failOrMode (task_mode s) = Fail -> onChain h (owner defs im file pos) r ->
           task_result t' = Some (mkTaskResult (failOrMode (task_mode t)) None)) /\
        (task_result t' = task_result t \/
         (failOrMode (task_mode s) = Fail /\ onChain h (owner defs im file pos) r)).
Proof.
  intros Hpos Hs Hc Hle.
  rewrite (attachError_unfold _ _ _ _ _ _ _ _ _ _ _ Hpos Hs).
  set (suite := owner defs im file pos) in *.
  set (task := syntheticTask file suite s idx e) in *.
  pose proof (lookup_lt_Some _ _ _ Hs) as Hlt.
  assert (Hh2 : exists h2,
            match failOrMode (task_mode s) with
            | Fail => markFailed fuel suite (h ++ [task])
            | _ => Ok (h ++ [task])
            end = Ok (h2 ++ [task]) /\
            length h2 = length h /\
            forall (r : nat) t, h !! r = Some t ->
              exists t2, h2 !! r = Some t2 /\ keepsIdentity t t2 /\
                task_tasks t2 = task_tasks t /\
                (failOrMode (task_mode s) = Fail -> onChain h suite r ->
                   task_result t2 = Some (mkTaskResult (failOrMode (task_mode t)) None)) /\
                (task_result t2 = task_result t \/
                 (failOrMode (task_mode s) = Fail /\ onChain h suite r))).
  { assert (Hsame : forall (r : nat) t, h !! r = Some t ->
              failOrMode (task_mode s) <> Fail ->
              exists t2, h !! r = Some t2 /\ keepsIdentity t t2 /\
                task_tasks t2 = task_tasks t /\
                (failOrMode (task_mode s) = Fail -> onChain h suite r ->
                   task_result t2 = Some (mkTaskResult (failOrMode (task_mode t)) None)) /\
                (task_result t2 = task_result t \/
                 (failOrMode (task_mode s) = Fail /\ onChain h suite r))).
    { intros r t Ht Hne. exists t. split; [done|]. split; [apply keepsIdentity_refl|].
      split; [done|]. split; [done|by left]. }
    destruct (failOrMode (task_mode s)) eqn:Hst.
    - exists h. split; [done|]. split; [done|]. intros r t Ht. by apply Hsame.
    - exists h. split; [done|]. split; [done|]. intros r t Ht. by apply Hsame.
    - destruct (markFailed_returns _ _ _ Hc fuel Hle) as [hm Hm].
      exists hm. split; [by apply markFailed_app|].
      split; [by eapply markFailed_length|].
      destruct (markFailed_Ok_effect _ _ _ _ Hm) as [Hon Hoff].
      intros r t Ht. destruct (onChain_dec _ _ _ Hc r) as [Hy|Hn].
      + exists (marked t). rewrite (Hon _ Hy), Ht. split; [done|].
        split; [apply keepsIdentity_marked|]. split; [done|]. split; [done|by right].
      + exists t. rewrite (Hoff _ Hn). split; [done|].
        split; [apply keepsIdentity_refl|]. split; [done|]. split; [done|by left]. }
  destruct Hh2 as (h2 & -> & Hlen & Hres). cbn [bind].
  destruct (Hres _ _ Hs) as (s2 & Hs2 & _).
  unfold deref. rewrite lookup_app_l by lia. rewrite Hs2. cbn [bind].
  eexists. split; [done|]. split.
  { rewrite length_insert, length_app. simpl. lia. }
  intros r t Ht. destruct (Hres _ _ Ht) as (t2 & Ht2 & Hid & Htasks & Hf & Hor).
  pose proof (lookup_lt_Some _ _ _ Ht) as Hr.
  destruct (decide (r = suite)) as [->|Hne].
  - assert (t2 = s2) as -> by congruence.
    exists (push_task s2 (length h)).
    rewrite list_lookup_insert_eq by (rewrite length_app; simpl; lia).
    split; [done|]. split; [by apply keepsIdentity_push|].
    split; [simpl; by rewrite Htasks|]. split; [done|done].
  - exists t2. rewrite list_lookup_insert_ne by done.
    rewrite lookup_app_l by lia.
    split; [done|]. split; [done|]. split; [by rewrite app_nil_r|]. split; [done|done].
Qed.

Lemma ownerOf_elem (errors : list SuiteError) (o : nat) :
  Some o ∈ map (ownerOf path file defs mc im) errors -> o ∈ file :: map def_task defs.
Proof.
  intros Ho. apply list_elem_of_fmap in Ho as (e & He & _).
  unfold ownerOf in He. destruct (lookupPosition _ _ _); simplify_eq.
  apply owner_elem.
Qed.

Lemma failedBy_keeps (h h1 : list Task) (owners : list (option nat)) (r : nat) :
  (forall r t, h !! r = Some t -> exists t', h1 !! r = Some t' /\ keepsIdentity t t') ->
  ownersBounded h fuel file defs ->
  (forall o, Some o ∈ owners -> o ∈ file :: map def_task defs) ->
  failedBy h owners r <-> failedBy h1 owners r.
Proof.
  intros Hkeep Hb Hown. split.
  - intros (o & s & Hin & Hs & Hf & Hon).
    destruct (Hkeep _ _ Hs) as (s1 & Hs1 & Hid).
    exists o, s1. split; [done|]. split; [done|]. split.
    + destruct Hid as (_&_&_&->&_). done.
    + by eapply onChain_keeps.
  - intros (o & s1 & Hin & Hs1 & Hf & Hon).
    destruct (Hb o (Hown _ Hin)) as (n & Hc & _).
    destruct (chain_lookup _ _ _ Hc) as [s Hs].
    destruct (Hkeep _ _ Hs) as (s1' & Hs1' & Hid).
    assert (s1' = s1) as -> by congruence.
    exists o, s. split; [done|]. split; [done|]. split.
    + destruct Hid as (_&_&_&<-&_). done.
    + by eapply onChain_back.
Qed.

Lemma forEachError_effect_from : forall (errors : list SuiteError) (idx : nat) (h : list Task),
  lookupsReturn mc path errors ->
  ownersBounded h fuel file defs ->
  exists h',
    forEachError (attachError fuel path file defs mc im) idx errors h = Ok h' /\
    forall (r : nat) t, h !! r = Some t ->
      exists t', h' !! r = Some t' /\ keepsIdentity t t' /\
        task_tasks t' = task_tasks t ++
          attachedTo (map (ownerOf path file defs mc im) errors) (length h) r /\
        (failedBy h (map (ownerOf path file defs mc im) errors) r ->
           task_result t' = Some (mkTaskResult (failOrMode (task_mode t)) None)) /\
        (task_result t' = task_result t \/
         failedBy h (map (ownerOf path file defs mc im) errors) r).
Proof.
  induction errors as [|e errors IH]; intros idx h Hl Hb.
  - exists h. split; [done|]. intros r t Ht. exists t. split; [done|].
    split; [apply keepsIdentity_refl|]. split; [by rewrite app_nil_r|]. split; [|by left].
    intros (o & s & Hin & _). by apply elem_of_nil in Hin.
  - apply Forall_cons in Hl as [[pos Hpos] Hl].
    destruct (Hb _ (owner_elem defs im file pos)) as (n & Hc & Hn).
    destruct (chain_lookup _ _ _ Hc) as [s Hs].
    destruct (attachError_effect idx e h pos s n Hpos Hs Hc Hn) as (h1 & H1 & Hlen1 & Hstep).
    assert (Hkeep1 : forall r t, h !! r = Some t ->
              exists t', h1 !! r = Some t' /\ keepsIdentity t t').
    { intros r t Ht. destruct (Hstep _ _ Ht) as (t' & ? & ? & _). eauto. }
    assert (Hb1 : ownersBounded h1 fuel file defs) by (by eapply ownersBounded_keeps).
    destruct (IH (S idx) h1 Hl Hb1) as (h' & H & Hrest).
    exists h'. cbn [forEachError]. rewrite H1. cbn [bind]. split; [done|].
    intros r t Ht.
    destruct (Hstep _ _ Ht) as (t1 & Ht1 & Hid1 & Htasks1 & Hf1 & Hor1).
    destruct (Hrest _ _ Ht1) as (t' & Ht' & Hid' & Htasks' & Hf' & Hor').
    assert (Hmode : task_mode t1 = task_mode t) by (by destruct Hid1 as (_&_&_&->&_)).
    assert (Hown : ownerOf path file defs mc im e = Some (owner defs im file pos)).
    { unfold ownerOf. by rewrite Hpos. }
    assert (Hfb : failedBy h (map (ownerOf path file defs mc im) errors) r <->
                  failedBy h1 (map (ownerOf path file defs mc im) errors) r).
    { apply failedBy_keeps; [done|done|apply ownerOf_elem]. }
    assert (Hfirst : failOrMode (task_mode s) = Fail -> onChain h (owner defs im file pos) r ->
              failedBy h (map (ownerOf path file defs mc im) (e :: errors)) r).
    { intros Hf Hon. exists (owner defs im file pos), s.
      split; [|done]. simpl. rewrite Hown. by left. }
    assert (Hlater : failedBy h (map (ownerOf path file defs mc im) errors) r ->
              failedBy h (map (ownerOf path file defs mc im) (e :: errors)) r).
    { intros (o & s0 & Hin & Hrest0). exists o, s0. split; [|done]. simpl. by right. }
    exists t'. split; [done|]. split; [by eapply keepsIdentity_trans|]. split; [|split].
    + rewrite Htasks', Htasks1, Hlen1, <- app_assoc. f_equal. simpl. rewrite Hown.
      f_equal. destruct (decide (r = owner defs im file pos)) as [->|Hne].
      * by rewrite decide_True.
      * rewrite decide_False; [done|congruence].
    + intros (o & s0 & Hin & Hs0 & Hf0 & Hon0). simpl in Hin. rewrite Hown in Hin.
      rewrite <- Hmode.
      apply elem_of_cons in Hin as [Heq | Hin].
      * injection Heq as ->. assert (s0 = s) as -> by congruence.
        destruct Hor' as [-> | Hfb']; [|by apply Hf'].
        rewrite Hmode. by apply Hf1.
      * apply Hf', Hfb. by exists o, s0.
    + destruct Hor' as [-> | Hfb']; [|right; by apply Hlater, Hfb].
      destruct Hor1 as [-> | [Hf Hon]]; [by left|right; by apply Hfirst].
Qed.

(** X16: what the loop over a file's errors leaves of every object that
    existed before it.  The loop returns; the object keeps its type, id,
    name, mode, file and suite; its [tasks] are the former ones followed by
    the synthetic tasks of the diagnostics it owns, in the order of the
    diagnostics; its result is rewritten from its own mode when it is, or
    is an ancestor of, the owner of a diagnostic whose owner runs, and is
    left as it was otherwise: a diagnostic in a skipped suite does not fail
    the file. *)
Theorem forEachError_effect_on_suites (errors : list SuiteError) (h : list Task) :
  lookupsReturn mc path errors ->
  ownersBounded h fuel file defs ->
  exists h',
    forEachError (attachError fuel path file defs mc im) 0 errors h = Ok h' /\
    forall (r : ref) t, h !! r = Some t ->
      exists t', h' !! r = Some t' /\ keepsIdentity t t' /\
        task_tasks t' = task_tasks t ++
          attachedTo (map (ownerOf path file defs mc im) errors) (length h) r /\
        (failedBy h (map (ownerOf path file defs mc im) errors) r ->
           task_result t' = Some (mkTaskResult (failOrMode (task_mode t)) None)) /\
        (~ failedBy h (map (ownerOf path file defs mc im) errors) r ->
           task_result t' = task_result t).
Proof.
  intros Hl Hb.
  destruct (forEachError_effect_from errors 0%nat h Hl Hb) as (h' & H & Hall).
  exists h'. split; [done|]. intros r t Ht.
  destruct (Hall _ _ Ht) as (t' & Ht' & Hid & Htasks & Hf & Hor).
  exists t'. split; [done|]. split; [done|]. split; [done|]. split; [done|].
  intros Hn. by destruct Hor.
Qed.

End LoopEffect.

(** * The end-of-pass pattern *)

Lemma passComplete_here (s : string) : matchHere s = true -> passComplete s = true.
Proof. intros H. destruct s; cbn [passComplete]; by rewrite H. Qed.

Lemma passComplete_append_l (pre s : string) :
  passComplete s = true -> passComplete (pre +:+ s) = true.
Proof.
  intros H. induction pre as [|a pre IH]; [done|].
  rewrite append_cons. cbn [passComplete]. rewrite IH. apply orb_true_r.
Qed.

Lemma stripPrefix_append (p s : string) : stripPrefix p (p +:+ s) = Some s.
Proof.
  induction p as [|a p IH]; [by destruct s|].
  rewrite append_cons. cbn [stripPrefix]. by rewrite bool_decide_eq_true_2.
Qed.

Lemma skipWord_append (w rest : string) :
  allChars isWordChar w = true ->
  skipWord (w +:+ String " " rest) = String " " rest.
Proof.
  induction w as [|a w IH]; [done|].
  cbn [allChars]. rewrite andb_true_iff. intros [Ha Hw].
  rewrite append_cons. cbn [skipWord]. rewrite Ha. by apply IH.
Qed.

Lemma matchTail_plural (k : nat) (c : ascii) (post : string) :
  isLineTerminator c = false ->
  matchTail (plural k +:+ String c (" Watching for" +:+ post)) = true.
Proof.
  intros Hc. induction k as [|k IH].
  - cbn [plural]. rewrite append_nil_l. cbn [matchTail]. rewrite Hc.
    rewrite (prefix_append " Watching for" " Watching for" post) by done. done.
  - cbn [plural]. rewrite append_cons. cbn [matchTail]. rewrite IH.
    rewrite bool_decide_eq_true_2 by done. apply orb_true_r.
Qed.

Lemma passComplete_summary (pre post w : string) (k : nat) (c : ascii) :
  w <> "" -> allChars isWordChar w = true -> isLineTerminator c = false ->
  passComplete (pre +:+ "Found " +:+ w +:+ " error" +:+ plural k +:+
                String c (" Watching for" +:+ post)) = true.
Proof.
  intros Hne Hw Hc. apply passComplete_append_l, passComplete_here.
  unfold matchHere. rewrite stripPrefix_append.
  set (rest := plural k +:+ String c (" Watching for" +:+ post)).
  assert (Hskip : skipWord (w +:+ " error" +:+ rest) = " error" +:+ rest).
  { change (" error" +:+ rest) with (String " " ("error" +:+ rest)).
    by apply skipWord_append. }
  rewrite Hskip, stripPrefix_append.
  destruct w as [|a w]; [done|]. rewrite append_cons.
  simpl in Hw. apply andb_true_iff in Hw as [-> _]. simpl.
  by apply matchTail_plural.
Qed.

(** X17: the end-of-pass pattern matches every buffer that holds the
    summary line of a watch pass: the word Found, a non-empty run of word
    characters, the word error followed by any number of letters s, one
    more character that is no line terminator, and the words Watching for;
    whatever comes before and after.  In particular it matches the line
    for every count of errors, printed in decimal, in the singular and in
    the plural. *)
Theorem passComplete_detects_summary (pre post : string) :
  (forall (w : string) (k : nat) (c : ascii),
     w <> "" -> allChars isWordChar w = true -> isLineTerminator c = false ->
     passComplete (pre +:+ "Found " +:+ w +:+ " error" +:+ plural k +:+
                   String c (" Watching for" +:+ post)) = true) /\
  (forall n : N,
     passComplete (pre +:+ "Found " +:+ pretty n +:+ " error. Watching for" +:+ post) = true /\
     passComplete (pre +:+ "Found " +:+ pretty n +:+ " errors. Watching for" +:+ post) = true).
Proof.
  split; [intros w k c; apply passComplete_summary|].
  intros n. destruct (pretty_N_digits n) as [Hd Hne].
  assert (Hw : allChars isWordChar (pretty n) = true).
  { eapply allChars_impl; [|exact Hd]. intros c. unfold isDigit, isWordChar. simpl.
    intros ->. done. }
  split.
  - apply (passComplete_summary pre post (pretty n) 0 "."%char); done.
  - apply (passComplete_summary pre post (pretty n) 1 "."%char); done.
Qed.

(** * Instances on the sample project *)

Lemma sampleStore_lookups :
  lookupsReturn None "/r/a.test-d.ts" SampleStore.errors.
Proof. repeat constructor; eexists; reflexivity. Qed.

Lemma sampleStore_bounded :
  ownersBounded SampleStore.h 2 0%nat SampleStore.defs.
Proof.
  intros o Ho. apply elem_of_cons in Ho as [-> | Ho].
  { exists 1%nat. split; [eapply chain_top; reflexivity | lia]. }
  apply elem_of_cons in Ho as [-> | Ho].
  { exists 2%nat. split; [|lia].
    eapply chain_up; [reflexivity | reflexivity | eapply chain_top; reflexivity]. }
  apply elem_of_cons in Ho as [-> | Ho]; [|by apply elem_of_nil in Ho].
  exists 2%nat. split; [|lia].
  eapply chain_up; [reflexivity | reflexivity | eapply chain_top; reflexivity].
Qed.

Lemma forEachError_effect_on_suites_witness :
  let owners := map (ownerOf "/r/a.test-d.ts" 0%nat SampleStore.defs None SampleStore.im)
                    SampleStore.errors in
  lookupsReturn None "/r/a.test-d.ts" SampleStore.errors /\
  ownersBounded SampleStore.h 2 0%nat SampleStore.defs /\
  exists h',
    forEachError (attachError 2 "/r/a.test-d.ts" 0%nat SampleStore.defs None SampleStore.im)
      0 SampleStore.errors SampleStore.h = Ok h' /\
    forall (r : ref) t, SampleStore.h !! r = Some t ->
      exists t', h' !! r = Some t' /\ keepsIdentity t t' /\
        task_tasks t' = task_tasks t ++ attachedTo owners (length SampleStore.h) r /\
        (failedBy SampleStore.h owners r ->
           task_result t' = Some (mkTaskResult (failOrMode (task_mode t)) None)) /\
        (~ failedBy SampleStore.h owners r -> task_result t' = task_result t).
Proof.
  intros owners.
  split; [exact sampleStore_lookups|]. split; [exact sampleStore_bounded|].
  exact (forEachError_effect_on_suites 2 "/r/a.test-d.ts" 0%nat SampleStore.defs None
           SampleStore.im SampleStore.errors SampleStore.h
           sampleStore_lookups sampleStore_bounded).
Defined.

Lemma passComplete_detects_summary_witness :
  "3"%string <> ""%string /\ allChars isWordChar "3" = true /\
  isLineTerminator "."%char = false /\
  passComplete ("12:00:01 - " +:+ "Found " +:+ "3" +:+ " error" +:+ plural 1 +:+
                String "." (" Watching for" +:+ " file changes.")) = true.
Proof.
  assert (H1 : "3"%string <> ""%string) by discriminate.
  assert (H2 : allChars isWordChar "3" = true) by reflexivity.
  assert (H3 : isLineTerminator "."%char = false) by reflexivity.
  split; [exact H1|]. split; [exact H2|]. split; [exact H3|].
  destruct (passComplete_detects_summary "12:00:01 - " " file changes.") as [H _].
  exact (H "3"%string 1%nat "."%char H1 H2 H3).
Defined.

Lemma feed_open_clears_once_witness :
  let s := startWatch Sample.state0 in
  passOpen s [Sample.changed; "more"] /\
  tc (feed true [Sample.changed; "more"] s) =
    if negb (rerunTriggered s) && includes rerunMarker (buffer s [Sample.changed; "more"])
    then set_tests (clearResult (tc s)) None
    else tc s.
Proof.
  intros s.
  assert (Hopen : passOpen s [Sample.changed; "more"]).
  { intros k Hk. simpl in Hk.
    destruct k as [|[|[|k]]]; [lia|vm_compute; reflexivity|vm_compute; reflexivity|lia]. }
  split; [exact Hopen|].
  exact (feed_open_clears_once ["more"] Sample.changed s Hopen).
Defined.

Lemma feed_watch_partitions_output_witness :
  let chunks := [Sample.changed; Sample.finished; "rest"] in
  let s := startWatch Sample.state0 in
  chunks <> [] /\
  exists jobs,
    pending (feed true chunks s) = pending s ++ jobs /\
    joined jobs +:+ output (feed true chunks s) = output s +:+ joined chunks /\
    Forall (fun job => passComplete job = true) jobs /\
    passComplete (output (feed true chunks s)) = false /\
    (length jobs <= length chunks)%nat.
Proof.
  intros chunks s.
  assert (Hne : chunks <> []) by discriminate.
  split; [exact Hne|].
  destruct (feed_watch_partitions_output chunks s) as (jobs & H1 & H2 & H3 & H4 & H5).
  exists jobs. split; [exact H1|]. split; [exact H2|]. split; [exact H3|].
  split; [exact (H4 Hne)|exact H5].
Defined.

Lemma startOnce_runs_pipeline_once_witness :
  let chunks := ["a.test-d.ts(2,3): error TS2322"] in
  let chunks' := ["a.test-d.ts(2,3): "; "error "; "TS2322"] in
  let once := startOnce Sample.getRawErrsMapFromTsCompile Sample.resolve
                Sample.createIndexMap Sample.collectFileTests Sample.callStack Sample.root
                Sample.files 3 in
  joined chunks' = joined chunks /\
  once chunks' Sample.state0 = once chunks Sample.state0 /\
  exists s',
    once chunks Sample.state0 = Ok s' /\
    events s' = [OnParseStart; OnParseEnd (_result (tc s'))] /\
    reruns (events s') = 0%nat /\ pending s' = [] /\
    _result (tc s') = length (caches Sample.state0) /\
    is_Some (getResult (tc s')).
Proof.
  intros chunks chunks' once.
  assert (Hj : joined chunks' = joined chunks) by reflexivity.
  assert (Hs : exists s', once chunks Sample.state0 = Ok s')
    by (eexists; vm_compute; reflexivity).
  destruct Hs as [s' Hs].
  destruct (startOnce_runs_pipeline_once Sample.getRawErrsMapFromTsCompile Sample.resolve
              Sample.createIndexMap Sample.collectFileTests Sample.callStack Sample.root
              Sample.files 3 chunks Sample.state0) as (_ & Hsame & Hev).
  split; [exact Hj|]. split; [exact (Hsame chunks' Hj)|].
  exists s'. split; [exact Hs|]. exact (Hev s' Hs).
Defined.

Lemma prepareResults_collects_when_null_witness :
  let st := set_tests (newTypechecker [] 10) None in
  _tests st = None /\
  prepareResults Sample.getRawErrsMapFromTsCompile Sample.resolve Sample.createIndexMap
    Sample.collectFileTests Sample.callStack Sample.root Sample.files 3
    "a.test-d.ts(2,3): error TS2322" st =
  prepareResults Sample.getRawErrsMapFromTsCompile Sample.resolve Sample.createIndexMap
    Sample.collectFileTests Sample.callStack Sample.root Sample.files 3
    "a.test-d.ts(2,3): error TS2322" (collectTests Sample.collectFileTests Sample.files st).2.
Proof.
  intros st.
  assert (Hn : _tests st = None) by reflexivity.
  split; [exact Hn|].
  exact (prepareResults_collects_when_null Sample.getRawErrsMapFromTsCompile Sample.resolve
           Sample.createIndexMap Sample.collectFileTests Sample.callStack Sample.root
           Sample.files 3 "a.test-d.ts(2,3): error TS2322" st Hn).
Defined.


Lemma prepareResults_sorts_cached_definitions_witness :
  let output := "a.test-d.ts(2,3): error TS2322" in
  let typeErrors :=
    (parseTscLikeOutput Sample.getRawErrsMapFromTsCompile Sample.resolve Sample.callStack
       Sample.root output Sample.state0).1 in
  exists r st' tests tests',
    Sample.prepare 3 output Sample.state0 = Ok (r, st') /\
    _tests (collected Sample.collectFileTests Sample.files Sample.state0) = Some tests /\
    _tests st' = Some tests' /\
    forall p,
      tests' !! p =
        if bool_decide (p ∈ Sample.files /\ is_Some (Map_get typeErrors p))
        then sortedInfo <$> tests !! p else tests !! p.
Proof.
  intros output typeErrors.
  assert (H : exists r st', Sample.prepare 3 output Sample.state0 = Ok (r, st'))
    by (eexists _, _; vm_compute; reflexivity).
  destruct H as (r & st' & H).
  destruct (prepareResults_sorts_cached_definitions Sample.getRawErrsMapFromTsCompile
              Sample.resolve Sample.createIndexMap Sample.collectFileTests Sample.callStack
              Sample.root Sample.files 3 output Sample.state0 st' r H)
    as (tests & tests' & H1 & H2 & H3).
  exists r, st', tests, tests'. split; [exact H|]. split; [exact H1|].
  split; [exact H2|exact H3].
Defined.

Lemma snapshot_files_in_first_request_order_witness :
  let output := "a.test-d.ts(2,3): error TS2322" in
  let files := [Sample.path; Sample.path] in
  let st := set_tests (newTypechecker [] 10) None in
  exists r st' tests ec,
    prepareResults Sample.getRawErrsMapFromTsCompile Sample.resolve Sample.createIndexMap
      Sample.collectFileTests Sample.callStack Sample.root files 3 output st = Ok (r, st') /\
    _tests (collected Sample.collectFileTests files st) = Some tests /\
    caches st' !! r = Some ec /\
    Forall2 (fun p f => fi_file <$> tests !! p = Some f) (newSet files) (ec_files ec) /\
    NoDup (newSet files) /\
    (forall p, p ∈ newSet files <-> p ∈ files).
Proof.
  intros output files st.
  assert (H : exists r st',
    prepareResults Sample.getRawErrsMapFromTsCompile Sample.resolve Sample.createIndexMap
      Sample.collectFileTests Sample.callStack Sample.root files 3 output st = Ok (r, st'))
    by (eexists _, _; vm_compute; reflexivity).
  destruct H as (r & st' & H).
  destruct (snapshot_files_in_first_request_order Sample.getRawErrsMapFromTsCompile
              Sample.resolve Sample.createIndexMap Sample.collectFileTests Sample.callStack
              Sample.root files 3 output st st' r H)
    as (tests & ec & H1 & H2 & H3 & H4 & H5 & _).
  exists r, st', tests, ec. split; [exact H|]. split; [exact H1|]. split; [exact H2|].
  split; [exact H3|]. split; [exact H4|exact H5].
Defined.
